(** * Log viewer: the extraction pipeline and the syntax highlighter

    A shallow embedding of [src/app/page.js]: the scan loop of
    [SyntaxHighlighter] (the tokenizer), [formatMessage], and the extraction
    effect of [Home].

    - JavaScript strings are sequences of UTF-16 code units.
    - The regular expression of the highlighter is kept as a syntax tree and
      run by a backtracking matcher that follows the pattern semantics of
      ECMAScript (greedy quantifiers, ordered alternatives, capture groups).
    - The values are those that [JSON.parse] builds; code that may throw
      returns a sum of an exception and a result.
    - What the source takes from the engine ([JSON.parse], [JSON.stringify],
      [Date.parse], [Array.prototype.sort], the texts of its errors) is a
      type class, [Runtime]; the theorems hold for every engine, and a
      reference engine runs the model on concrete inputs. *)

From Stdlib Require Import String Ascii List Arith NArith ZArith Lia Bool.
From Stdlib Require Import Sorting.Sorted Sorting.Permutation SpecFloat.
Import ListNotations.

Set Implicit Arguments.

(** ** JavaScript strings *)

Module JsString.

(** A code unit is a 16-bit number; the functions below never rely on the
    bound, so it is left out of the type. *)
Definition codeunit := N.
Definition jsstring := list codeunit.

Definition codeunit_eqb (a b : codeunit) : bool := N.eqb a b.

Fixpoint jsstring_eqb (s t : jsstring) : bool :=
  match s, t with
  | [], [] => true
  | a :: s', b :: t' => codeunit_eqb a b && jsstring_eqb s' t'
  | _, _ => false
  end.

(** Literals.  [ch "a"] is the code unit of an ASCII character.  [js] reads
    a literal in which the apostrophe stands for the double quote (code unit
    34), so that JSON text can be written down without escaping. *)
Definition ch (a : ascii) : codeunit := N_of_ascii a.

Definition QUOTE : codeunit := 34%N.
Definition BACKSLASH : codeunit := 92%N.
Definition APOSTROPHE : codeunit := 39%N.

Definition lit (s : string) : jsstring := map ch (list_ascii_of_string s).

Definition js (s : string) : jsstring :=
  map (fun c => if codeunit_eqb c APOSTROPHE then QUOTE else c) (lit s).

(** [text.slice(start, end)] and [text.slice(start)] for indices that are
    non-negative integers (the only way the source calls them); indices past
    the end are clamped by [skipn] and [firstn]. *)
Definition slice (text : jsstring) (start finish : nat) : jsstring :=
  firstn (finish - start) (skipn start text).

Definition slice_from (text : jsstring) (start : nat) : jsstring :=
  skipn start text.

(** [message.substring(start, end)] for non-negative integers: both are
    clamped to the length and swapped when [start > end]. *)
Definition substring (s : jsstring) (start finish : nat) : jsstring :=
  let a := Nat.min start (length s) in
  let b := Nat.min finish (length s) in
  slice s (Nat.min a b) (Nat.max a b).

Definition substring_from (s : jsstring) (start : nat) : jsstring :=
  skipn (Nat.min start (length s)) s.

(** [s.indexOf(c)] and [s.lastIndexOf(c)] for a one-unit search string;
    [None] is the source's [-1]. *)
Fixpoint indexOf (c : codeunit) (s : jsstring) : option nat :=
  match s with
  | [] => None
  | a :: s' =>
      if codeunit_eqb a c then Some 0
      else match indexOf c s' with
           | Some i => Some (S i)
           | None => None
           end
  end.

Fixpoint lastIndexOf (c : codeunit) (s : jsstring) : option nat :=
  match s with
  | [] => None
  | a :: s' =>
      match lastIndexOf c s' with
      | Some i => Some (S i)
      | None => if codeunit_eqb a c then Some 0 else None
      end
  end.

Definition startsWith (s : jsstring) (c : codeunit) : bool :=
  match s with
  | a :: _ => codeunit_eqb a c
  | [] => false
  end.

(** White space and line terminators of ECMAScript: what [trim] strips and
    what the class [\s] matches. *)
Definition white_space_ranges : list (N * N) :=
  [ (9, 13); (32, 32); (160, 160); (5760, 5760); (8192, 8202);
    (8232, 8233); (8239, 8239); (8287, 8287); (12288, 12288);
    (65279, 65279) ]%N.

Definition in_ranges (rs : list (N * N)) (c : codeunit) : bool :=
  existsb (fun r => N.leb (fst r) c && N.leb c (snd r)) rs.

Definition is_white_space (c : codeunit) : bool :=
  in_ranges white_space_ranges c.

Fixpoint trimStart (s : jsstring) : jsstring :=
  match s with
  | c :: s' => if is_white_space c then trimStart s' else s
  | [] => []
  end.

Definition trim (s : jsstring) : jsstring :=
  rev (trimStart (rev (trimStart s))).

End JsString.
Import JsString.

(** ** Properties of the string methods *)

Module JsStringFacts.

Lemma codeunit_eqb_eq a b : codeunit_eqb a b = true <-> a = b.
Proof. apply N.eqb_eq. Qed.

Lemma codeunit_eqb_neq a b : codeunit_eqb a b = false <-> a <> b.
Proof. apply N.eqb_neq. Qed.

Lemma jsstring_eqb_eq s : forall t, jsstring_eqb s t = true <-> s = t.
Proof.
  induction s as [|a s IH]; intros [|b t]; simpl; split; intros H;
    try reflexivity; try discriminate.
  - apply andb_true_iff in H. destruct H as [H1 H2].
    apply codeunit_eqb_eq in H1. apply IH in H2. congruence.
  - inversion H; subst. apply andb_true_iff. split.
    + apply codeunit_eqb_eq. reflexivity.
    + apply IH. reflexivity.
Qed.

(** [indexOf] finds the first occurrence. *)
Lemma indexOf_first c pre suf :
  ~ In c pre -> indexOf c (pre ++ c :: suf) = Some (length pre).
Proof.
  induction pre as [|a pre IH]; simpl; intros H.
  - unfold codeunit_eqb. rewrite N.eqb_refl. reflexivity.
  - destruct (codeunit_eqb a c) eqn:E.
    + apply codeunit_eqb_eq in E. tauto.
    + rewrite IH by tauto. reflexivity.
Qed.

Lemma indexOf_Some c s : forall i,
  indexOf c s = Some i ->
  exists pre suf, s = pre ++ c :: suf /\ ~ In c pre /\ length pre = i.
Proof.
  induction s as [|a s IH]; simpl; intros i H; [discriminate|].
  destruct (codeunit_eqb a c) eqn:E.
  - apply codeunit_eqb_eq in E. inversion H; subst.
    exists [], s. simpl. tauto.
  - destruct (indexOf c s) as [j|]; [|discriminate].
    inversion H; subst.
    destruct (IH j eq_refl) as (pre & suf & -> & Hn & Hl).
    exists (a :: pre), suf. simpl. apply codeunit_eqb_neq in E.
    repeat split; [|congruence]. intros [H1|H1]; tauto.
Qed.

(** [lastIndexOf] finds the last occurrence. *)
Lemma lastIndexOf_last c pre suf :
  ~ In c suf -> lastIndexOf c (pre ++ c :: suf) = Some (length pre).
Proof.
  intros H.
  assert (Hsuf : lastIndexOf c suf = None).
  { induction suf as [|a suf IH]; simpl; [reflexivity|].
    rewrite IH by (simpl in H; tauto).
    destruct (codeunit_eqb a c) eqn:E; [|reflexivity].
    apply codeunit_eqb_eq in E. simpl in H. tauto. }
  induction pre as [|a pre IH]; simpl.
  - rewrite Hsuf. unfold codeunit_eqb. rewrite N.eqb_refl. reflexivity.
  - rewrite IH. reflexivity.
Qed.

Lemma lastIndexOf_Some c s : forall j,
  lastIndexOf c s = Some j ->
  exists pre suf, s = pre ++ c :: suf /\ ~ In c suf /\ length pre = j.
Proof.
  induction s as [|a s IH]; simpl; intros j H; [discriminate|].
  destruct (lastIndexOf c s) as [k|] eqn:E.
  - inversion H; subst.
    destruct (IH k eq_refl) as (pre & suf & -> & Hn & Hl).
    exists (a :: pre), suf. simpl. repeat split; auto.
  - destruct (codeunit_eqb a c) eqn:Ea; [|discriminate].
    apply codeunit_eqb_eq in Ea. inversion H; subst.
    exists [], s. repeat split; auto.
    clear H IH. induction s as [|b s IHs]; simpl; [tauto|].
    simpl in E. destruct (lastIndexOf c s); [discriminate|].
    destruct (codeunit_eqb b c) eqn:Eb; [discriminate|].
    apply codeunit_eqb_neq in Eb. intros [H|H]; [congruence|].
    apply IHs; auto.
Qed.

(** Two occurrences at increasing positions split the string in three. *)
Lemma split_between (a b : codeunit) pre1 : forall suf1 pre2 suf2,
  pre1 ++ a :: suf1 = pre2 ++ b :: suf2 ->
  length pre1 < length pre2 ->
  exists mid, suf1 = mid ++ b :: suf2 /\ pre2 = pre1 ++ a :: mid.
Proof.
  induction pre1 as [|x pre1 IH]; intros suf1 pre2 suf2 E L.
  - destruct pre2 as [|y pre2]; [simpl in L; lia|].
    simpl in E. inversion E; subst. exists pre2. split; reflexivity.
  - destruct pre2 as [|y pre2]; [simpl in L; lia|].
    simpl in E. inversion E; subst.
    destruct (IH suf1 pre2 suf2 H1) as (mid & -> & ->); [simpl in L; lia|].
    exists mid. split; reflexivity.
Qed.

Lemma substring_prefix (pre rest : jsstring) :
  substring (pre ++ rest) 0 (length pre) = pre.
Proof.
  unfold substring, slice. rewrite length_app.
  replace (Nat.min 0 (length pre + length rest)) with 0 by lia.
  replace (Nat.min (length pre) (length pre + length rest))
    with (length pre) by lia.
  simpl. rewrite Nat.sub_0_r.
  rewrite firstn_app, firstn_all, Nat.sub_diag. simpl.
  apply app_nil_r.
Qed.

Lemma substring_middle (pre mid suf : jsstring) :
  substring (pre ++ mid ++ suf) (length pre) (length pre + length mid) = mid.
Proof.
  unfold substring, slice. rewrite !length_app.
  replace (Nat.min (length pre) (length pre + (length mid + length suf)))
    with (length pre) by lia.
  replace (Nat.min (length pre + length mid)
                   (length pre + (length mid + length suf)))
    with (length pre + length mid) by lia.
  replace (Nat.min (length pre) (length pre + length mid))
    with (length pre) by lia.
  replace (Nat.max (length pre) (length pre + length mid))
    with (length pre + length mid) by lia.
  replace (length pre + length mid - length pre) with (length mid) by lia.
  rewrite skipn_app, skipn_all, Nat.sub_diag. simpl.
  rewrite firstn_app, firstn_all, Nat.sub_diag. simpl.
  apply app_nil_r.
Qed.

Lemma substring_from_suffix (pre suf : jsstring) :
  substring_from (pre ++ suf) (length pre) = suf.
Proof.
  unfold substring_from. rewrite length_app.
  replace (Nat.min (length pre) (length pre + length suf))
    with (length pre) by lia.
  rewrite skipn_app, skipn_all, Nat.sub_diag. reflexivity.
Qed.

Lemma trimStart_white_nil s :
  forallb is_white_space s = true -> trimStart s = [].
Proof.
  induction s as [|c s IH]; simpl; [reflexivity|].
  intros H. apply andb_true_iff in H. destruct H as [Hc Hs].
  rewrite Hc. auto.
Qed.

(** [trim] leaves nothing of a string of white space. *)
Lemma trim_white s : forallb is_white_space s = true -> trim s = [].
Proof.
  intros H. unfold trim. rewrite (trimStart_white_nil _ H). reflexivity.
Qed.

Lemma trimStart_nil s : trimStart s = [] -> forallb is_white_space s = true.
Proof.
  induction s as [|c s IH]; simpl; [reflexivity|].
  destruct (is_white_space c); [exact IH|discriminate].
Qed.

Lemma trimStart_white s :
  forallb is_white_space (trimStart s) = true ->
  forallb is_white_space s = true.
Proof.
  induction s as [|c s IH]; simpl; [reflexivity|].
  destruct (is_white_space c) eqn:E; [exact IH|].
  simpl. rewrite E. discriminate.
Qed.

Lemma trim_nil s : trim s = [] -> forallb is_white_space s = true.
Proof.
  unfold trim. intros H.
  apply (f_equal (@rev codeunit)) in H. rewrite rev_involutive in H.
  simpl in H. apply trimStart_nil in H.
  apply trimStart_white.
  rewrite forallb_forall in *. intros c Hc. apply H.
  apply in_rev in Hc. exact Hc.
Qed.

End JsStringFacts.

(** ** Regular expressions *)

Module RegExp.

(** The part of the pattern syntax that the source uses.  A class is a list
    of inclusive ranges, possibly negated.  [Repeat r min max] is the greedy
    quantifier [{min,max}], with [None] for no upper bound, so that [*] is
    [Repeat r 0 None], [+] is [Repeat r 1 None] and [?] is
    [Repeat r 0 (Some 1)]. *)
Inductive regex : Type :=
| Empty : regex
| Char : codeunit -> regex
| Class : bool -> list (N * N) -> regex
| WordBoundary : regex
| Seq : regex -> regex -> regex
| Alt : regex -> regex -> regex
| Repeat : regex -> nat -> option nat -> regex
| Group : nat -> regex -> regex.

Definition Star (r : regex) := Repeat r 0 None.
Definition Plus (r : regex) := Repeat r 1 None.
Definition Opt (r : regex) := Repeat r 0 (Some 1).

Fixpoint Lit (s : jsstring) : regex :=
  match s with
  | [] => Empty
  | [c] => Char c
  | c :: s' => Seq (Char c) (Lit s')
  end.

(** A match state: the index reached and the captures, each the pair of
    indices that delimits the captured text. *)
Record state : Type := mkState {
  endIndex : nat;
  captures : list (nat * (nat * nat))
}.

Definition get_capture (n : nat) (x : state) : option (nat * nat) :=
  match find (fun p => Nat.eqb (fst p) n) (captures x) with
  | Some p => Some (snd p)
  | None => None
  end.

Definition clear_captures (gs : list nat) (x : state) : state :=
  mkState (endIndex x)
    (filter (fun p => negb (existsb (Nat.eqb (fst p)) gs)) (captures x)).

Definition set_capture (n : nat) (from : nat) (y : state) : state :=
  mkState (endIndex y)
    ((n, (from, endIndex y)) ::
     filter (fun p => negb (Nat.eqb (fst p) n)) (captures y)).

Fixpoint groups (r : regex) : list nat :=
  match r with
  | Seq r1 r2 | Alt r1 r2 => groups r1 ++ groups r2
  | Repeat r' _ _ => groups r'
  | Group n r' => n :: groups r'
  | _ => []
  end.

Definition word_ranges : list (N * N) :=
  [ (48, 57); (65, 90); (95, 95); (97, 122) ]%N.

Definition is_word_char (c : codeunit) : bool := in_ranges word_ranges c.

Definition pred_max (max : option nat) : option nat :=
  match max with
  | Some n => Some (Nat.pred n)
  | None => None
  end.

Section Matcher.

Variable input : jsstring.

Definition is_word_at (i : nat) : bool :=
  match nth_error input i with
  | Some c => is_word_char c
  | None => false
  end.

(** [\b]: exactly one of the characters on the two sides of the index is a
    word character. *)
Definition at_word_boundary (i : nat) : bool :=
  xorb (match i with 0 => false | S j => is_word_at j end) (is_word_at i).

(** The quantifier, as RepeatMatcher of the language definition: the
    captures of the body are reset before each iteration; while iterations
    are still mandatory the body is simply run; after that an iteration
    that consumes nothing is rejected, and the empty continuation comes
    last (the quantifier is greedy).  The results are listed in the order in
    which backtracking reaches them.  [fuel] bounds the number of optional
    iterations; each one moves the index forward, so the distance to the end
    of the input is enough (see [repeat_greedy_fuel]). *)
Fixpoint repeat_greedy (m : state -> list state) (gs : list nat)
    (fuel : nat) (max : option nat) (x : state) : list state :=
  match max, fuel with
  | Some 0, _ => [x]
  | _, 0 => [x]
  | _, S fuel' =>
      flat_map
        (fun y => if Nat.eqb (endIndex y) (endIndex x) then []
                  else repeat_greedy m gs fuel' (pred_max max) y)
        (m (clear_captures gs x))
      ++ [x]
  end.

Fixpoint repeat_matcher (m : state -> list state) (gs : list nat)
    (min : nat) (max : option nat) (x : state) : list state :=
  match max, min with
  | Some 0, _ => [x]
  | _, 0 => repeat_greedy m gs (length input - endIndex x) max x
  | _, S min' =>
      flat_map (repeat_matcher m gs min' (pred_max max))
               (m (clear_captures gs x))
  end.

(** [matches r x]: every way in which [r] matches the input from state [x],
    in backtracking order.  The engine commits to the first one. *)
Fixpoint matches (r : regex) (x : state) : list state :=
  match r with
  | Empty => [x]
  | Char c =>
      match nth_error input (endIndex x) with
      | Some a =>
          if codeunit_eqb a c then [mkState (S (endIndex x)) (captures x)]
          else []
      | None => []
      end
  | Class neg rs =>
      match nth_error input (endIndex x) with
      | Some a =>
          if xorb neg (in_ranges rs a)
          then [mkState (S (endIndex x)) (captures x)]
          else []
      | None => []
      end
  | WordBoundary => if at_word_boundary (endIndex x) then [x] else []
  | Seq r1 r2 => flat_map (matches r2) (matches r1 x)
  | Alt r1 r2 => matches r1 x ++ matches r2 x
  | Repeat r' min max => repeat_matcher (matches r') (groups r') min max x
  | Group n r' => map (set_capture n (endIndex x)) (matches r' x)
  end.

(** The search of RegExpBuiltinExec: the pattern is tried at [i], then at
    [i + 1], and so on up to the length of the input (inclusive).  The result
    is the index of the match and its final state. *)
Fixpoint search (r : regex) (fuel : nat) (i : nat) : option (nat * state) :=
  match fuel with
  | 0 => None
  | S fuel' =>
      match matches r (mkState i []) with
      | y :: _ => Some (i, y)
      | [] => search r fuel' (S i)
      end
  end.

(** [regex.exec(input)] for a pattern with the [g] flag whose [lastIndex] is
    [lastIndex]: [None] is [null]. *)
Definition exec (r : regex) (lastIndex : nat) : option (nat * state) :=
  search r (S (length input) - lastIndex) lastIndex.

(** [regex.test(input)] for a pattern without flags. *)
Definition test (r : regex) : bool :=
  match search r (S (length input)) 0 with
  | Some _ => true
  | None => false
  end.

End Matcher.

End RegExp.
Import RegExp.

(** ** The syntax highlighter: [SyntaxHighlighter] *)

Module Highlighter.

(** The [type] of a part: ['key'], ['string'], ['boolean'], ['number'] and
    ['text'] (Key, String, Boolean, Number and Text in the specification). *)
Inductive token_type : Type :=
  t_key | t_string | t_boolean | t_number | t_text.

Record token : Type := mkToken {
  type : token_type;
  content : jsstring
}.

Definition digit : regex := Class false [(48, 57)]%N.

(** The second group of the pattern: an escape [\\u] with four letters or
    digits, or a backslash with any unit but [u], or any unit but the
    backslash and the double quote. *)
Definition string_char : regex :=
  Group 2
    (Alt (Seq (Char BACKSLASH)
              (Seq (Char (ch "u"))
                   (Repeat (Class false [(97, 122); (65, 90); (48, 57)]%N)
                           4 (Some 4))))
    (Alt (Seq (Char BACKSLASH) (Class true [(117, 117)]%N))
         (Class true [(92, 92); (34, 34)]%N))).

(** A double quote, the units of the string, a double quote, and the
    optional third group [(\s*:)?]. *)
Definition string_lexeme : regex :=
  Seq (Char QUOTE)
 (Seq (Star string_char)
 (Seq (Char QUOTE)
      (Opt (Group 3 (Seq (Star (Class false white_space_ranges))
                         (Char (ch ":"))))))).

(** [\b(true|false|null)\b] *)
Definition keyword_lexeme : regex :=
  Seq WordBoundary
 (Seq (Group 4 (Alt (Lit (lit "true"))
               (Alt (Lit (lit "false")) (Lit (lit "null")))))
      WordBoundary).

(** The number: an optional minus sign, one or more digits, an optional
    fraction (a dot and any number of digits), and an optional exponent
    ([e] or [E], an optional sign, one or more digits). *)
Definition number_lexeme : regex :=
  Seq (Opt (Char (ch "-")))
 (Seq (Plus digit)
 (Seq (Opt (Seq (Char (ch ".")) (Star digit)))
      (Opt (Seq (Class false [(101, 101); (69, 69)]%N)
           (Seq (Opt (Class false [(43, 43); (45, 45)]%N))
                (Plus digit)))))).

(** The pattern of line 8; its outer parentheses are group 1. *)
Definition regex : RegExp.regex :=
  Group 1 (Alt string_lexeme (Alt keyword_lexeme number_lexeme)).

(** [/true|false|null/] of line 24. *)
Definition keyword_regex : RegExp.regex :=
  Alt (Lit (lit "true")) (Alt (Lit (lit "false")) (Lit (lit "null"))).

(** [match[n]] used as a condition: the group took part in the match and
    captured a non-empty string. *)
Definition capture_truthy (n : nat) (y : state) : bool :=
  match get_capture n y with
  | Some (a, b) => negb (Nat.eqb (b - a) 0)
  | None => false
  end.

(** Lines 19-28: the type of the token pushed for a match. *)
Definition classify (tok : jsstring) (y : state) : token_type :=
  if capture_truthy 3 y then t_key
  else if startsWith tok QUOTE then t_string
  else if test tok keyword_regex then t_boolean
  else t_number.

(** The [while] loop of lines 13-31 followed by lines 34-38.  Each unit of
    [fuel] pays for one iteration; [None] means that the fuel ran out before
    [exec] returned [null]. *)
Fixpoint tokenize_loop (text : jsstring) (fuel : nat) (lastIndex : nat)
    (parts : list token) : option (list token) :=
  match fuel with
  | 0 => None
  | S fuel' =>
      match exec text regex lastIndex with
      | Some (index, y) =>
          let parts1 :=
            if Nat.ltb lastIndex index
            then parts ++ [mkToken t_text (slice text lastIndex index)]
            else parts in
          let tok := slice text index (endIndex y) in
          tokenize_loop text fuel' (endIndex y)
            (parts1 ++ [mkToken (classify tok y) tok])
      | None =>
          Some (if Nat.ltb lastIndex (length text)
                then parts ++ [mkToken t_text (slice_from text lastIndex)]
                else parts)
      end
  end.

(** The memoised [tokens] of the component.  Every match is at least one
    code unit long, so the loop runs at most [length text] times before the
    final, failing [exec]. *)
Definition tokenize (text : jsstring) : option (list token) :=
  tokenize_loop text (S (length text)) 0 [].

End Highlighter.

(** ** Properties of the matcher *)

Module RegExpFacts.

(** [consumes r]: a syntactic check that every match of [r] is at least one
    code unit long. *)
Fixpoint consumes (r : regex) : bool :=
  match r with
  | Empty | WordBoundary => false
  | Char _ | Class _ _ => true
  | Seq r1 r2 => consumes r1 || consumes r2
  | Alt r1 r2 => consumes r1 && consumes r2
  | Repeat r' min max =>
      consumes r' && negb (Nat.eqb min 0)
      && match max with Some 0 => false | _ => true end
  | Group _ r' => consumes r'
  end.

Section Facts.

Variable input : jsstring.

(** [y] is reached from [x] by moving forward inside the input. *)
Definition forward (x y : state) : Prop :=
  endIndex x <= endIndex y <= Nat.max (endIndex x) (length input).

Lemma forward_refl x : forward x x.
Proof. unfold forward; lia. Qed.

Lemma forward_trans x y z : forward x y -> forward y z -> forward x z.
Proof. unfold forward; lia. Qed.

Lemma forward_clear gs x y : forward (clear_captures gs x) y -> forward x y.
Proof. unfold forward; simpl; auto. Qed.

Section Quantifier.

Variables (m : state -> list state) (gs : list nat).
Hypothesis m_forward : forall x y, In y (m x) -> forward x y.

Lemma repeat_greedy_forward fuel : forall max x y,
  In y (repeat_greedy m gs fuel max x) -> forward x y.
Proof.
  induction fuel as [|fuel IH]; intros max x y Hy.
  - assert (y = x) as ->; [|apply forward_refl].
    destruct max as [[|n]|]; simpl in Hy; intuition.
  - assert (Hstep :
      In y (flat_map
              (fun y0 => if Nat.eqb (endIndex y0) (endIndex x) then []
                         else repeat_greedy m gs fuel (pred_max max) y0)
              (m (clear_captures gs x)) ++ [x]) -> forward x y).
    { intros H. apply in_app_or in H. destruct H as [H|[<-|[]]].
      - apply in_flat_map in H. destruct H as (y0 & Hy0 & H).
        destruct (Nat.eqb (endIndex y0) (endIndex x)); [destruct H|].
        apply forward_trans with y0; [|eapply IH; eauto].
        apply forward_clear with gs. auto.
      - apply forward_refl. }
    destruct max as [[|n]|]; simpl in Hy; auto.
    destruct Hy as [<-|[]]. apply forward_refl.
Qed.

Lemma repeat_matcher_forward min : forall max x y,
  In y (repeat_matcher input m gs min max x) -> forward x y.
Proof.
  induction min as [|min IH]; intros max x y Hy.
  - destruct max as [[|n]|]; simpl in Hy.
    + destruct Hy as [<-|[]]. apply forward_refl.
    + eapply repeat_greedy_forward; eauto.
    + eapply repeat_greedy_forward; eauto.
  - assert (Hstep :
      In y (flat_map (repeat_matcher input m gs min (pred_max max))
                     (m (clear_captures gs x))) -> forward x y).
    { intros H. apply in_flat_map in H. destruct H as (y0 & Hy0 & H).
      apply forward_trans with y0; [|eapply IH; eauto].
      apply forward_clear with gs. auto. }
    destruct max as [[|n]|]; simpl in Hy; auto.
    destruct Hy as [<-|[]]. apply forward_refl.
Qed.

Lemma flat_map_ext_in (A B : Type) (f g : A -> list B) l :
  (forall a, In a l -> f a = g a) -> flat_map f l = flat_map g l.
Proof.
  induction l as [|a l IH]; intros H; simpl; [reflexivity|].
  rewrite H by (left; reflexivity). rewrite IH; [reflexivity|].
  intros b Hb. apply H. right; exact Hb.
Qed.

Lemma repeat_greedy_S f max x :
  repeat_greedy m gs (S f) max x =
  match max with
  | Some 0 => [x]
  | _ =>
      flat_map
        (fun y => if Nat.eqb (endIndex y) (endIndex x) then []
                  else repeat_greedy m gs f (pred_max max) y)
        (m (clear_captures gs x))
      ++ [x]
  end.
Proof. destruct max as [[|n]|]; reflexivity. Qed.

Lemma repeat_greedy_stuck f max x :
  length input - endIndex x = 0 -> repeat_greedy m gs f max x = [x].
Proof.
  intros Hx. destruct f as [|f]; [destruct max as [[|n]|]; reflexivity|].
  rewrite repeat_greedy_S.
  rewrite flat_map_ext_in with (g := fun _ => []).
  - replace (flat_map (fun _ => []) (m (clear_captures gs x)))
      with (@nil state)
      by (induction (m (clear_captures gs x)); simpl; auto).
    destruct max as [[|n]|]; reflexivity.
  - intros y Hy. apply m_forward in Hy. unfold forward in Hy.
    simpl in Hy. replace (endIndex y) with (endIndex x) by lia.
    rewrite Nat.eqb_refl. reflexivity.
Qed.

(** The fuel of [repeat_greedy] does not cut any iteration short: any amount
    that covers the distance to the end of the input gives the same
    results. *)
Lemma repeat_greedy_fuel f1 : forall f2 max x,
  length input - endIndex x <= f1 ->
  length input - endIndex x <= f2 ->
  repeat_greedy m gs f1 max x = repeat_greedy m gs f2 max x.
Proof.
  induction f1 as [|f1 IH]; intros f2 max x H1 H2.
  - rewrite !repeat_greedy_stuck by lia. reflexivity.
  - destruct f2 as [|f2]; [rewrite !repeat_greedy_stuck by lia; reflexivity|].
    rewrite !repeat_greedy_S.
    rewrite flat_map_ext_in
      with (g := fun y => if Nat.eqb (endIndex y) (endIndex x) then []
                          else repeat_greedy m gs f2 (pred_max max) y);
      [reflexivity|].
    intros y Hy. destruct (Nat.eqb_spec (endIndex y) (endIndex x));
      [reflexivity|].
    apply m_forward in Hy. unfold forward in Hy. simpl in Hy.
    apply IH; lia.
Qed.

(** Hence the quantifier without mandatory iterations satisfies the
    recursive equation of RepeatMatcher. *)
Lemma repeat_matcher_unfold max x :
  repeat_matcher input m gs 0 max x =
  match max with
  | Some 0 => [x]
  | _ =>
      flat_map
        (fun y => if Nat.eqb (endIndex y) (endIndex x) then []
                  else repeat_matcher input m gs 0 (pred_max max) y)
        (m (clear_captures gs x))
      ++ [x]
  end.
Proof.
  assert (Hz : forall max' y,
            repeat_matcher input m gs 0 max' y =
            repeat_greedy m gs (length input - endIndex y) max' y).
  { intros [[|n]|] y; simpl; try reflexivity.
    destruct (length input - endIndex y); reflexivity. }
  rewrite Hz.
  rewrite (@repeat_greedy_fuel (length input - endIndex x)
             (S (length input - endIndex x))) by lia.
  rewrite repeat_greedy_S.
  rewrite flat_map_ext_in
    with (g := fun y => if Nat.eqb (endIndex y) (endIndex x) then []
                        else repeat_matcher input m gs 0 (pred_max max) y);
    [reflexivity|].
  intros y Hy. destruct (Nat.eqb_spec (endIndex y) (endIndex x));
    [reflexivity|].
  apply m_forward in Hy. unfold forward in Hy. simpl in Hy.
  rewrite Hz. apply repeat_greedy_fuel; lia.
Qed.

(** A mandatory iteration of a body that consumes input moves the index. *)
Hypothesis m_strict : forall x y, In y (m x) -> endIndex x < endIndex y.

Lemma repeat_matcher_strict min max x y :
  min <> 0 -> max <> Some 0 ->
  In y (repeat_matcher input m gs min max x) -> endIndex x < endIndex y.
Proof.
  intros Hmin Hmax Hy. destruct min as [|min]; [congruence|].
  assert (H : In y (flat_map (repeat_matcher input m gs min (pred_max max))
                             (m (clear_captures gs x)))).
  { destruct max as [[|n]|]; simpl in Hy; auto. congruence. }
  apply in_flat_map in H. destruct H as (y0 & Hy0 & H).
  apply m_strict in Hy0. apply repeat_matcher_forward in H.
  unfold forward in H. simpl in Hy0. lia.
Qed.

End Quantifier.

Lemma matches_forward r : forall x y, In y (matches input r x) -> forward x y.
Proof.
  induction r as [|c|neg rs| |r1 IH1 r2 IH2|r1 IH1 r2 IH2|r IH min max|n r IH];
    intros x y Hy; simpl in Hy.
  - destruct Hy as [<-|[]]. apply forward_refl.
  - destruct (nth_error input (endIndex x)) as [a|] eqn:E; [|destruct Hy].
    destruct (codeunit_eqb a c); [|destruct Hy]. destruct Hy as [<-|[]].
    assert (endIndex x < length input) by (apply nth_error_Some; congruence).
    unfold forward; simpl; lia.
  - destruct (nth_error input (endIndex x)) as [a|] eqn:E; [|destruct Hy].
    destruct (xorb neg (in_ranges rs a)); [|destruct Hy].
    destruct Hy as [<-|[]].
    assert (endIndex x < length input) by (apply nth_error_Some; congruence).
    unfold forward; simpl; lia.
  - destruct (at_word_boundary input (endIndex x)); [|destruct Hy].
    destruct Hy as [<-|[]]. apply forward_refl.
  - apply in_flat_map in Hy. destruct Hy as (z & Hz & Hy).
    eapply forward_trans; eauto.
  - apply in_app_or in Hy. destruct Hy; auto.
  - eapply repeat_matcher_forward; eauto.
  - apply in_map_iff in Hy. destruct Hy as (z & <- & Hz).
    apply IH in Hz. unfold forward in *; simpl; auto.
Qed.

Lemma matches_strict r : consumes r = true ->
  forall x y, In y (matches input r x) -> endIndex x < endIndex y.
Proof.
  induction r as [|c|neg rs| |r1 IH1 r2 IH2|r1 IH1 r2 IH2|r IH min max|n r IH];
    simpl; intros Hc x y Hy; try discriminate.
  - destruct (nth_error input (endIndex x)) as [a|]; [|destruct Hy].
    destruct (codeunit_eqb a c); [|destruct Hy].
    destruct Hy as [<-|[]]. simpl; lia.
  - destruct (nth_error input (endIndex x)) as [a|]; [|destruct Hy].
    destruct (xorb neg (in_ranges rs a)); [|destruct Hy].
    destruct Hy as [<-|[]]. simpl; lia.
  - apply in_flat_map in Hy. destruct Hy as (z & Hz & Hy).
    pose proof (matches_forward _ _ _ Hz) as F1.
    pose proof (matches_forward _ _ _ Hy) as F2.
    unfold forward in F1, F2.
    apply orb_true_iff in Hc. destruct Hc as [Hc|Hc].
    + specialize (IH1 Hc _ _ Hz). lia.
    + specialize (IH2 Hc _ _ Hy). lia.
  - apply andb_true_iff in Hc. destruct Hc as [Hc1 Hc2].
    apply in_app_or in Hy. destruct Hy; auto.
  - apply andb_true_iff in Hc. destruct Hc as [Hc Hmax].
    apply andb_true_iff in Hc. destruct Hc as [Hc Hmin].
    apply (@repeat_matcher_strict (matches input r) (groups r))
      with (min := min) (max := max); auto.
    + intros. eapply matches_forward; eauto.
    + intros ->. discriminate.
    + intros ->. discriminate.
  - apply in_map_iff in Hy. destruct Hy as (z & <- & Hz).
    simpl. auto.
Qed.

(** A successful search returns a match that starts at or after the start
    index and, for a pattern that consumes input, ends strictly after its
    start and inside the input. *)
Lemma search_spec r fuel : forall i idx y,
  search input r fuel i = Some (idx, y) ->
  i <= idx /\ idx < i + fuel /\ In y (matches input r (mkState idx [])).
Proof.
  induction fuel as [|fuel IH]; simpl; intros i idx y H; [discriminate|].
  destruct (matches input r (mkState i [])) as [|z zs] eqn:E.
  - apply IH in H. intuition lia.
  - inversion H; subst. rewrite E. split; [lia|]. split; [lia|]. left; auto.
Qed.

Lemma exec_spec r lastIndex idx y :
  consumes r = true ->
  exec input r lastIndex = Some (idx, y) ->
  lastIndex <= idx /\ idx < endIndex y <= length input.
Proof.
  unfold exec. intros Hc H. apply search_spec in H.
  destruct H as (H1 & H2 & H3).
  pose proof (matches_forward _ _ _ H3) as F.
  pose proof (matches_strict _ Hc _ _ H3) as S.
  unfold forward in F. simpl in *. lia.
Qed.

End Facts.

End RegExpFacts.

(** ** Properties of the tokenizer *)

Module HighlighterFacts.
Import Highlighter RegExpFacts.

Lemma firstn_slice (t : jsstring) : forall a b,
  a <= b -> firstn a t ++ slice t a b = firstn b t.
Proof.
  unfold slice. induction t as [|c t IH]; intros a b Hab.
  - rewrite skipn_nil, !firstn_nil. reflexivity.
  - destruct a as [|a]; simpl.
    + rewrite Nat.sub_0_r. reflexivity.
    + destruct b as [|b]; [lia|]. simpl. rewrite IH by lia. reflexivity.
Qed.

Lemma length_slice (t : jsstring) a b :
  a <= b <= length t -> length (slice t a b) = b - a.
Proof.
  intros H. unfold slice. rewrite length_firstn, length_skipn. lia.
Qed.

Lemma regex_consumes : consumes regex = true.
Proof. reflexivity. Qed.

Definition contents (parts : list token) : jsstring :=
  concat (map content parts).

Lemma contents_app p q : contents (p ++ q) = contents p ++ contents q.
Proof. unfold contents. rewrite map_app, concat_app. reflexivity. Qed.

Definition is_text (t : token) : bool :=
  match type t with t_text => true | _ => false end.

Definition nonempty (t : token) : bool :=
  match content t with [] => false | _ => true end.

(** Two neighbouring parts are both of type ['text']. *)
Fixpoint adjacent_text (parts : list token) : bool :=
  match parts with
  | a :: ((b :: _) as rest) => (is_text a && is_text b) || adjacent_text rest
  | _ => false
  end.

Definition ends_with_text (parts : list token) : bool :=
  match rev parts with
  | a :: _ => is_text a
  | [] => false
  end.

Lemma ends_with_text_snoc p t : ends_with_text (p ++ [t]) = is_text t.
Proof. unfold ends_with_text. rewrite rev_app_distr. reflexivity. Qed.

Lemma adjacent_text_snoc p t :
  adjacent_text (p ++ [t]) = adjacent_text p || (ends_with_text p && is_text t).
Proof.
  induction p as [|a p IH]; [reflexivity|].
  destruct p as [|b p].
  - simpl. unfold ends_with_text. simpl. rewrite orb_false_r. reflexivity.
  - change (adjacent_text ((a :: b :: p) ++ [t]))
      with ((is_text a && is_text b) || adjacent_text ((b :: p) ++ [t])).
    rewrite IH.
    change (adjacent_text (a :: b :: p))
      with ((is_text a && is_text b) || adjacent_text (b :: p)).
    rewrite <- orb_assoc. f_equal. f_equal. f_equal.
    unfold ends_with_text. simpl.
    destruct (rev p ++ [b]) as [|z zs] eqn:E.
    + apply app_eq_nil in E. destruct E; discriminate.
    + reflexivity.
Qed.

Lemma classify_not_text tok y : classify tok y <> t_text.
Proof.
  unfold classify.
  destruct (capture_truthy 3 y); [discriminate|].
  destruct (startsWith tok QUOTE); [discriminate|].
  destruct (test tok keyword_regex); discriminate.
Qed.

(** The invariant of the scan loop: the parts pushed so far spell the text up
    to [lastIndex], none of them is empty, no two text parts are neighbours,
    and the last one is a lexeme. *)
Lemma tokenize_loop_spec (s : jsstring) : forall fuel lastIndex parts,
  lastIndex <= length s ->
  length s - lastIndex < fuel ->
  contents parts = firstn lastIndex s ->
  forallb nonempty parts = true ->
  adjacent_text parts = false ->
  ends_with_text parts = false ->
  exists toks,
    tokenize_loop s fuel lastIndex parts = Some toks /\
    contents toks = s /\
    forallb nonempty toks = true /\
    adjacent_text toks = false.
Proof.
  induction fuel as [|fuel IH]; intros lastIndex parts Hle Hfuel Hc Hne Hadj Hend;
    [lia|].
  simpl. destruct (exec s regex lastIndex) as [[index y]|] eqn:E.
  - destruct (exec_spec _ _ _ regex_consumes E) as (H1 & H2 & H3).
    set (parts1 := if Nat.ltb lastIndex index
                   then parts ++ [mkToken t_text (slice s lastIndex index)]
                   else parts).
    assert (Hc1 : contents parts1 = firstn index s).
    { unfold parts1. destruct (Nat.ltb_spec lastIndex index).
      - rewrite contents_app, Hc. unfold contents; simpl.
        rewrite app_nil_r. apply firstn_slice. lia.
      - replace index with lastIndex by lia. exact Hc. }
    assert (Hne1 : forallb nonempty parts1 = true).
    { unfold parts1. destruct (Nat.ltb_spec lastIndex index); [|exact Hne].
      rewrite forallb_app, Hne. simpl. rewrite andb_true_r.
      unfold nonempty; simpl.
      destruct (slice s lastIndex index) eqn:Es; [|reflexivity].
      apply (f_equal (@length _)) in Es.
      rewrite length_slice in Es by lia. simpl in Es. lia. }
    assert (Hadj1 : adjacent_text parts1 = false).
    { unfold parts1. destruct (Nat.ltb lastIndex index); [|exact Hadj].
      rewrite adjacent_text_snoc, Hadj, Hend. reflexivity. }
    set (tok := slice s index (endIndex y)).
    assert (Hlex : is_text (mkToken (classify tok y) tok) = false).
    { unfold is_text; simpl.
      pose proof (classify_not_text tok y).
      destruct (classify tok y); congruence. }
    apply IH.
    + lia.
    + lia.
    + rewrite contents_app, Hc1. unfold contents; simpl.
      rewrite app_nil_r. apply firstn_slice. lia.
    + rewrite forallb_app, Hne1. simpl. rewrite andb_true_r.
      unfold nonempty; simpl. fold tok.
      destruct tok eqn:Es; [|reflexivity].
      apply (f_equal (@length _)) in Es. unfold tok in Es.
      rewrite length_slice in Es by lia. simpl in Es. lia.
    + rewrite adjacent_text_snoc, Hadj1, Hlex, andb_false_r. reflexivity.
    + rewrite ends_with_text_snoc. exact Hlex.
  - destruct (Nat.ltb_spec lastIndex (length s)) as [Hlt|Hge].
    + eexists; split; [reflexivity|]. split; [|split].
      * rewrite contents_app, Hc. unfold contents, slice_from; simpl.
        rewrite app_nil_r. apply firstn_skipn.
      * rewrite forallb_app, Hne. simpl. rewrite andb_true_r.
        unfold nonempty, slice_from; simpl.
        destruct (skipn lastIndex s) eqn:Es; [|reflexivity].
        apply (f_equal (@length _)) in Es.
        rewrite length_skipn in Es. simpl in Es. lia.
      * rewrite adjacent_text_snoc, Hadj, Hend. reflexivity.
    + eexists; split; [reflexivity|]. split; [|split]; auto.
      rewrite Hc. apply firstn_all2. lia.
Qed.

Lemma tokenize_spec (s : jsstring) :
  exists toks,
    tokenize s = Some toks /\
    contents toks = s /\
    forallb nonempty toks = true /\
    adjacent_text toks = false.
Proof.
  unfold tokenize. apply tokenize_loop_spec; try reflexivity; lia.
Qed.

(** C1: the tokenizer returns a token sequence for every input string, and
    the concatenation of the [content] fields of the tokens, in order, is the
    input string itself. *)
Theorem tokenize_round_trip (s : jsstring) :
  exists toks,
    tokenize s = Some toks /\ concat (map content toks) = s.
Proof.
  destruct (tokenize_spec s) as (toks & H & Hc & _).
  exists toks. split; [exact H|exact Hc].
Qed.

Lemma adjacent_text_tail a l : adjacent_text (a :: l) = false ->
  adjacent_text l = false.
Proof.
  destruct l as [|b l]; [reflexivity|].
  change (adjacent_text (a :: b :: l))
    with ((is_text a && is_text b) || adjacent_text (b :: l)).
  intros H. apply orb_false_iff in H. tauto.
Qed.

Lemma text_run_short toks : adjacent_text toks = false ->
  forall l1 mid l2, toks = l1 ++ mid ++ l2 ->
  (forall t, In t mid -> type t = t_text) -> length mid <= 1.
Proof.
  intros Hadj l1. revert toks Hadj.
  induction l1 as [|a l1 IH]; intros toks Hadj mid l2 -> Hmid.
  - destruct mid as [|t1 [|t2 mid]]; simpl; try lia.
    exfalso. simpl in Hadj.
    assert (H1 : is_text t1 = true)
      by (unfold is_text; rewrite (Hmid t1); simpl; auto).
    assert (H2 : is_text t2 = true)
      by (unfold is_text; rewrite (Hmid t2); simpl; auto).
    rewrite H1, H2 in Hadj. discriminate.
  - simpl in Hadj. apply adjacent_text_tail in Hadj.
    eapply IH; eauto.
Qed.

(** C9: every token that the tokenizer emits has a non-empty [content], and
    the tokens between two consecutive lexemes (a run of Text tokens with a
    lexeme on each side) are at most one; more generally no run of Text
    tokens, anywhere in the output, is longer than one. *)
Theorem tokenize_nonempty_single_text (s : jsstring) :
  exists toks,
    tokenize s = Some toks /\
    (forall t, In t toks -> content t <> []) /\
    (forall l1 a mid b l2,
       toks = l1 ++ a :: mid ++ b :: l2 ->
       type a <> t_text -> type b <> t_text ->
       (forall t, In t mid -> type t = t_text) ->
       length mid <= 1) /\
    (forall l1 mid l2,
       toks = l1 ++ mid ++ l2 ->
       (forall t, In t mid -> type t = t_text) ->
       length mid <= 1).
Proof.
  destruct (tokenize_spec s) as (toks & H & _ & Hne & Hadj).
  exists toks. split; [exact H|]. split; [|split].
  - intros t Ht. rewrite forallb_forall in Hne. specialize (Hne t Ht).
    unfold nonempty in Hne. destruct (content t); congruence.
  - intros l1 a mid b l2 E _ _ Hmid.
    apply (text_run_short Hadj (l1 ++ [a]) mid (b :: l2)); auto.
    rewrite E, <- app_assoc. reflexivity.
  - intros l1 mid l2 E Hmid. eapply text_run_short; eauto.
Qed.

(** C5: on the text [{"key": "value", "n": 42, "b": true}] the tokens are
    the Key tokens ["key":], ["n":] and ["b":], the String token ["value"],
    the Number token [42], the Boolean token [true], and Text tokens for the
    braces, commas and spaces left between them. *)
Theorem tokenize_classification_example :
  tokenize (js "{'key': 'value', 'n': 42, 'b': true}") =
  Some [ mkToken t_text (js "{");
         mkToken t_key (js "'key':");
         mkToken t_text (js " ");
         mkToken t_string (js "'value'");
         mkToken t_text (js ", ");
         mkToken t_key (js "'n':");
         mkToken t_text (js " ");
         mkToken t_number (js "42");
         mkToken t_text (js ", ");
         mkToken t_key (js "'b':");
         mkToken t_text (js " ");
         mkToken t_boolean (js "true");
         mkToken t_text (js "}") ].
Proof. vm_compute. reflexivity. Qed.

End HighlighterFacts.

(** ** JavaScript values and exceptions *)

Module Js.

(** The values that [JSON.parse] builds.  A number is an IEEE 754 binary64
    value.  An object is the list of its own properties in enumeration
    order.  [undefined] never occurs inside such a value: it only comes out
    of a property read, which returns an [option]. *)
#[local] Set Warnings "-register-all".
Inductive value : Type :=
| VNull : value
| VBoolean : bool -> value
| VNumber : spec_float -> value
| VString : jsstring -> value
| VArray : list value -> value
| VObject : list (jsstring * value) -> value.

(** The exceptions that the extraction can meet.  The message of a
    [TypeError] is chosen by the engine; the model records what went
    wrong. *)
Inductive type_error : Type :=
| ReadOfNull : jsstring -> type_error
| NotAFunction : jsstring -> type_error
| NoPrimitiveValue : type_error.

Inductive exn : Type :=
| SyntaxError : jsstring -> exn
| TypeError : type_error -> exn
| Error : jsstring -> exn.

(** Computations that may throw. *)
Definition result (A : Type) : Type := (exn + A)%type.

Definition ret {A : Type} (a : A) : result A := inr a.
Definition throw {A : Type} (e : exn) : result A := inl e.

Definition bind {A B : Type} (c : result A) (k : A -> result B) : result B :=
  match c with
  | inr a => k a
  | inl e => inl e
  end.

Declare Scope js_scope.
Delimit Scope js_scope with js.
Notation "x <- c ;; k" := (bind c (fun x => k))
  (at level 61, c at next level, right associativity) : js_scope.
Open Scope js_scope.

(** [array.filter(f)] and [array.map(f)] for callbacks that may throw: the
    elements are visited in order and the first exception ends the call. *)
Section Iteration.

Variables (A B : Type) (p : A -> result bool) (f : A -> result B).

Fixpoint filterM (l : list A) : result (list A) :=
  match l with
  | [] => ret []
  | a :: l' =>
      b <- p a ;;
      rest <- filterM l' ;;
      ret (if b then a :: rest else rest)
  end.

Fixpoint mapM (l : list A) : result (list B) :=
  match l with
  | [] => ret []
  | a :: l' =>
      b <- f a ;;
      rest <- mapM l' ;;
      ret (b :: rest)
  end.

End Iteration.

(** ToBoolean; [None] is [undefined]. *)
Definition truthy (v : value) : bool :=
  match v with
  | VNull => false
  | VBoolean b => b
  | VNumber (S754_zero _) | VNumber S754_nan => false
  | VNumber _ => true
  | VString [] => false
  | VString _ => true
  | VArray _ | VObject _ => true
  end.

Definition ToBoolean (v : option value) : bool :=
  match v with
  | Some v' => truthy v'
  | None => false
  end.

Definition own_property (props : list (jsstring * value)) (name : jsstring)
    : option value :=
  match find (fun p => jsstring_eqb (fst p) name) props with
  | Some p => Some (snd p)
  | None => None
  end.

(** [v.name] for a property name that no built-in prototype defines (the
    source reads [timestamp], [jsonPayload] and [message]): an own property
    of an object, [undefined] on any other value, and a [TypeError] on
    [null] and [undefined]. *)
Definition get (v : option value) (name : jsstring) : result (option value) :=
  match v with
  | None | Some VNull => throw (TypeError (ReadOfNull name))
  | Some (VObject props) => ret (own_property props name)
  | Some _ => ret None
  end.

Definition isArray (v : value) : bool :=
  match v with
  | VArray _ => true
  | _ => false
  end.

(** The separator-joined concatenation of [array.join(separator)]. *)
Fixpoint join_strings (separator : jsstring) (l : list jsstring) : jsstring :=
  match l with
  | [] => []
  | [s] => s
  | s :: l' => s ++ separator ++ join_strings separator l'
  end.

Definition has_own_property (props : list (jsstring * value))
    (name : jsstring) : bool :=
  match own_property props name with
  | Some _ => true
  | None => false
  end.

Section Conversions.

(** Number::toString, the shortest decimal text that reads back as the
    number. *)
Variable Number_toString : spec_float -> jsstring.

(** ToString.  An array is converted by [Array.prototype.join], which turns
    [null] into the empty string.  An object built from JSON text is
    converted by [Object.prototype.toString] unless an own property hides
    it: such a property is never callable, the inherited [valueOf] returns
    the object itself, and the conversion throws. *)
Fixpoint ToString (v : value) : result jsstring :=
  match v with
  | VNull => ret (lit "null")
  | VBoolean b => ret (if b then lit "true" else lit "false")
  | VNumber n => ret (Number_toString n)
  | VString s => ret s
  | VArray l =>
      strs <- mapM (fun e => match e with
                             | VNull => ret []
                             | _ => ToString e
                             end) l ;;
      ret (join_strings (lit ",") strs)
  | VObject props =>
      if has_own_property props (lit "toString")
      then throw (TypeError NoPrimitiveValue)
      else ret (lit "[object Object]")
  end.

(** The text of one element in [array.join]: [undefined] and [null] give
    the empty string. *)
Definition element_text (e : option value) : result jsstring :=
  match e with
  | None | Some VNull => ret []
  | Some v => ToString v
  end.

(** [array.join(separator)]. *)
Definition join (l : list (option value)) (separator : jsstring)
    : result jsstring :=
  strs <- mapM element_text l ;;
  ret (join_strings separator strs).

End Conversions.

(** TimeClip on a number: the integral part of a finite number of at most
    8.64e15 in absolute value, and [None] (NaN) otherwise. *)
Definition TimeClip (n : spec_float) : option Z :=
  match n with
  | S754_zero _ => Some 0%Z
  | S754_finite s m e =>
      let t := match e with
               | Zneg k => Z.shiftr (Zpos m) (Zpos k)
               | _ => Z.shiftl (Zpos m) e
               end in
      if Z.leb t 8640000000000000
      then Some (if s then Z.opp t else t)
      else None
  | _ => None
  end.

End Js.
Import Js.

(** ** The engine *)

Module Engine.

(** Insertion of [a] in front of the first element whose key is not
    smaller, and the sort built on it: the stable ascending sort by [key]. *)
Fixpoint insert (key : value -> Z) (a : value) (l : list value) : list value :=
  match l with
  | [] => [a]
  | b :: l' => if Z.leb (key a) (key b) then a :: l else b :: insert key a l'
  end.

Fixpoint stable_sort (key : value -> Z) (l : list value) : list value :=
  match l with
  | [] => []
  | a :: l' => insert key a (stable_sort key l')
  end.

(** *** The serialisation of [JSON.stringify]

    The text that the language prescribes for [JSON.stringify(v, null,
    space)] on a value that [JSON.parse] has built: [gap] is the indentation
    of one level ([space] spaces, at most 10), [indent] the indentation of
    the line on which the value starts.  With an empty gap everything stands
    on one line; otherwise every element of an array and every property of
    an object stands on a line of its own, indented by one gap more than the
    line of its bracket, and a property name is followed by a colon and a
    space.  Only the text of a number is left to the engine. *)

Definition hex_digit (n : N) : codeunit :=
  if N.ltb n 10 then (48 + n)%N else (87 + n)%N.

Definition unicode_escape (c : codeunit) : jsstring :=
  [BACKSLASH; ch "u"; hex_digit (c / 4096); hex_digit (c / 256 mod 16);
   hex_digit (c / 16 mod 16); hex_digit (c mod 16)]%N.

Definition is_lead (c : codeunit) : bool := N.leb 55296 c && N.leb c 56319.
Definition is_trail (c : codeunit) : bool := N.leb 56320 c && N.leb c 57343.

Fixpoint quote_units (s : jsstring) : jsstring :=
  match s with
  | [] => []
  | c :: rest =>
      let escaped : option jsstring :=
        if N.eqb c 8 then Some [BACKSLASH; ch "b"]
        else if N.eqb c 9 then Some [BACKSLASH; ch "t"]
        else if N.eqb c 10 then Some [BACKSLASH; ch "n"]
        else if N.eqb c 12 then Some [BACKSLASH; ch "f"]
        else if N.eqb c 13 then Some [BACKSLASH; ch "r"]
        else if N.eqb c 34 then Some [BACKSLASH; QUOTE]
        else if N.eqb c 92 then Some [BACKSLASH; BACKSLASH]
        else if N.ltb c 32 then Some (unicode_escape c)
        else None in
      match escaped with
      | Some e => e ++ quote_units rest
      | None =>
          if is_lead c then
            match rest with
            | d :: rest' =>
                if is_trail d then c :: d :: quote_units rest'
                else unicode_escape c ++ quote_units rest
            | [] => unicode_escape c
            end
          else if is_trail c then unicode_escape c ++ quote_units rest
          else c :: quote_units rest
      end
  end.

Definition QuoteJSONString (s : jsstring) : jsstring :=
  QUOTE :: quote_units s ++ [QUOTE].

Section Serialisation.

Variable number_text : spec_float -> jsstring.
Variable gap : jsstring.

Fixpoint serialize (indent : jsstring) (v : value) : jsstring :=
  let inner := indent ++ gap in
  let wrap (opening closing : jsstring) (members : list jsstring) :=
    match gap with
    | [] => opening ++ join_strings (lit ",") members ++ closing
    | _ =>
        opening ++ [10%N] ++ inner
        ++ join_strings (lit "," ++ [10%N] ++ inner) members
        ++ [10%N] ++ indent ++ closing
    end in
  let colon := match gap with [] => lit ":" | _ => lit ": " end in
  match v with
  | VNull => lit "null"
  | VBoolean b => if b then lit "true" else lit "false"
  | VNumber (S754_nan | S754_infinity _) => lit "null"
  | VNumber n => number_text n
  | VString s => QuoteJSONString s
  | VArray [] => lit "[]"
  | VArray l => wrap (lit "[") (lit "]") (map (serialize inner) l)
  | VObject [] => lit "{}"
  | VObject props =>
      wrap (lit "{") (lit "}")
        (map (fun p : jsstring * value =>
                let (k, w) := p in
                QuoteJSONString k ++ colon ++ serialize inner w)
             props)
  end.

End Serialisation.

(** What the source takes from the JavaScript engine.

    - [JSON_parse text] is [JSON.parse(text)]: a value or a [SyntaxError].
    - [JSON_stringify v space] is [JSON.stringify(v, null, space)] for a
      number [space] that is a natural number; an object lists its
      properties in the order in which the engine enumerates them.
    - [Number_toString] is the conversion of a number to a string.
    - [Date_parse s] is [Date.parse(s)], with [None] for NaN; which strings
      it reads beyond the ISO format is up to the engine.
    - [Array_sort compare l] is [l.sort(compare)] on an array without holes;
      the comparator returns a number ([None] is NaN) or throws.
    - [type_error_message] is the text of the engine's [TypeError]s.

    The laws are what every engine guarantees.  A text of white space only
    is not JSON.  [JSON.stringify] gives the serialisation above, with a gap
    of [space] spaces, at most 10.  [sort] rearranges the array when the comparator returns
    normally, and it is the stable ascending sort when the comparator is
    the difference of a key; the language leaves the order open when the
    comparator is not consistent, as one that returns NaN is. *)
Class Runtime : Type := {
  JSON_parse : jsstring -> result value;
  JSON_stringify : value -> nat -> jsstring;
  Number_toString : spec_float -> jsstring;
  Date_parse : jsstring -> option Z;
  Array_sort :
    (value -> value -> result (option Z)) -> list value -> result (list value);
  type_error_message : type_error -> jsstring;
  JSON_parse_blank :
    forall text, trim text = [] -> exists e, JSON_parse text = inl e;
  JSON_stringify_spec :
    forall v space,
      JSON_stringify v space =
      serialize Number_toString (repeat (ch " ") (Nat.min space 10)) [] v;
  Array_sort_permutes :
    forall compare l,
      (forall a b, In a l -> In b l -> exists v, compare a b = inr v) ->
      exists l', Array_sort compare l = inr l' /\ Permutation l l';
  Array_sort_stable :
    forall compare key l,
      (forall a b, In a l -> In b l ->
         compare a b = inr (Some (key a - key b)%Z)) ->
      Array_sort compare l = inr (stable_sort key l)
}.

End Engine.
Import Engine.

(** ** Properties of the stable sort *)

Module EngineFacts.

Section StableSort.

Variable key : value -> Z.

Definition key_le (a b : value) : Prop := (key a <= key b)%Z.

Lemma insert_In a b l : In b (insert key a l) <-> b = a \/ In b l.
Proof.
  induction l as [|c l IH]; simpl; [intuition congruence|].
  destruct (Z.leb (key a) (key c)); simpl; [intuition congruence|].
  rewrite IH. intuition congruence.
Qed.

Lemma insert_sorted a l :
  StronglySorted key_le l -> StronglySorted key_le (insert key a l).
Proof.
  induction 1 as [|b l Hl IH Hb]; simpl.
  - constructor; constructor.
  - destruct (Z.leb_spec (key a) (key b)) as [Hab|Hab].
    + constructor; [constructor; assumption|].
      constructor; [exact Hab|].
      rewrite Forall_forall in *. intros c Hc.
      specialize (Hb c Hc). unfold key_le in *. lia.
    + constructor; [exact IH|].
      rewrite Forall_forall in *. intros c Hc.
      apply insert_In in Hc. destruct Hc as [->|Hc]; [|auto].
      unfold key_le. lia.
Qed.

Lemma stable_sort_sorted l : StronglySorted key_le (stable_sort key l).
Proof.
  induction l as [|a l IH]; simpl; [constructor|].
  apply insert_sorted. exact IH.
Qed.

(** Among the entries of one key the sort keeps the original order. *)
Lemma insert_stable t a l :
  filter (fun x => Z.eqb (key x) t) (insert key a l) =
  filter (fun x => Z.eqb (key x) t) (a :: l).
Proof.
  induction l as [|b l IH]; [reflexivity|].
  simpl insert. destruct (Z.leb_spec (key a) (key b)) as [Hab|Hab];
    [reflexivity|].
  simpl in *. rewrite IH.
  destruct (Z.eqb_spec (key a) t), (Z.eqb_spec (key b) t);
    try reflexivity. lia.
Qed.

Lemma stable_sort_stable t l :
  filter (fun x => Z.eqb (key x) t) (stable_sort key l) =
  filter (fun x => Z.eqb (key x) t) l.
Proof.
  induction l as [|a l IH]; [reflexivity|].
  simpl stable_sort. rewrite insert_stable. simpl. rewrite IH. reflexivity.
Qed.

Lemma insert_permutes a l : Permutation (a :: l) (insert key a l).
Proof.
  induction l as [|b l IH]; simpl; [apply Permutation_refl|].
  destruct (Z.leb (key a) (key b)); [apply Permutation_refl|].
  eapply Permutation_trans; [apply perm_swap|]. apply perm_skip. exact IH.
Qed.

Lemma stable_sort_permutes l : Permutation l (stable_sort key l).
Proof.
  induction l as [|a l IH]; simpl; [apply Permutation_refl|].
  eapply Permutation_trans; [apply perm_skip; exact IH|].
  apply insert_permutes.
Qed.

End StableSort.

End EngineFacts.

(** ** The extraction: [formatMessage] and the effect of [Home] *)

Module Extraction.

Definition LBRACE : codeunit := 123%N.
Definition RBRACE : codeunit := 125%N.
Definition NEWLINE : codeunit := 10%N.

(** The state that the effect sets: [outputMessages], [error] and
    [messageCount] ([count]), together with the array [messages] that the
    output is joined from ([orderedMessages]; empty when the run ends in the
    [catch] block or returns early). *)
Record ExtractionResult : Type := mkResult {
  orderedMessages : list (option value);
  outputMessages : jsstring;
  count : nat;
  error : jsstring
}.

Section WithRuntime.

Context {R : Runtime}.

Definition message_of (e : exn) : jsstring :=
  match e with
  | SyntaxError m => m
  | Error m => m
  | TypeError t => type_error_message t
  end.

(** [new Date(v).getTime()]: a string is parsed, an array or an object is
    first converted to a string, anything else is converted to a number. *)
Definition Date_getTime (v : option value) : result (option Z) :=
  match v with
  | None => ret None
  | Some VNull => ret (Some 0%Z)
  | Some (VBoolean b) => ret (Some (if b then 1 else 0)%Z)
  | Some (VNumber n) => ret (TimeClip n)
  | Some (VString s) => ret (Date_parse s)
  | Some v' => s <- ToString Number_toString v' ;; ret (Date_parse s)
  end.

(** The method calls of [formatMessage] on a value that need not be a
    string: strings have all three methods, arrays have [indexOf] and
    [lastIndexOf] (which compare the elements with the one-unit string by
    strict equality), and on anything else the call throws. *)
Definition is_unit_string (c : codeunit) (v : value) : bool :=
  match v with
  | VString [a] => codeunit_eqb a c
  | _ => false
  end.

Fixpoint array_indexOf (c : codeunit) (l : list value) : option nat :=
  match l with
  | [] => None
  | v :: l' =>
      if is_unit_string c v then Some 0
      else match array_indexOf c l' with
           | Some i => Some (S i)
           | None => None
           end
  end.

Fixpoint array_lastIndexOf (c : codeunit) (l : list value) : option nat :=
  match l with
  | [] => None
  | v :: l' =>
      match array_lastIndexOf c l' with
      | Some i => Some (S i)
      | None => if is_unit_string c v then Some 0 else None
      end
  end.

Definition call_indexOf (message : option value) (c : codeunit)
    : result (option nat) :=
  match message with
  | Some (VString s) => ret (indexOf c s)
  | Some (VArray l) => ret (array_indexOf c l)
  | None | Some VNull => throw (TypeError (ReadOfNull (lit "indexOf")))
  | Some _ => throw (TypeError (NotAFunction (lit "indexOf")))
  end.

Definition call_lastIndexOf (message : option value) (c : codeunit)
    : result (option nat) :=
  match message with
  | Some (VString s) => ret (lastIndexOf c s)
  | Some (VArray l) => ret (array_lastIndexOf c l)
  | None | Some VNull => throw (TypeError (ReadOfNull (lit "lastIndexOf")))
  | Some _ => throw (TypeError (NotAFunction (lit "lastIndexOf")))
  end.

Definition call_substring (message : option value) (start finish : nat)
    : result jsstring :=
  match message with
  | Some (VString s) => ret (substring s start finish)
  | None | Some VNull => throw (TypeError (ReadOfNull (lit "substring")))
  | Some _ => throw (TypeError (NotAFunction (lit "substring")))
  end.

Definition call_substring_from (message : option value) (start : nat)
    : result jsstring :=
  match message with
  | Some (VString s) => ret (substring_from s start)
  | None | Some VNull => throw (TypeError (ReadOfNull (lit "substring")))
  | Some _ => throw (TypeError (NotAFunction (lit "substring")))
  end.

(** Lines 82-90, the inner [try]: parse, serialise and splice; any
    exception gives the message back. *)
Definition reformat (message : option value) (firstBrace lastBrace : nat)
    (potentialJson : jsstring) : option value :=
  let attempt :=
    parsed <- JSON_parse potentialJson ;;
    let formattedJson := JSON_stringify parsed 2 in
    before <- call_substring message 0 firstBrace ;;
    after <- call_substring_from message (lastBrace + 1) ;;
    ret (Some (VString (before ++ formattedJson ++ after))) in
  match attempt with
  | inr v => v
  | inl _ => message
  end.

(** Lines 76-92, the body of the outer [try]. *)
Definition formatMessage_body (message : option value)
    : result (option value) :=
  firstBrace <- call_indexOf message LBRACE ;;
  lastBrace <- call_lastIndexOf message RBRACE ;;
  match firstBrace, lastBrace with
  | Some first, Some last =>
      if Nat.ltb first last then
        potentialJson <- call_substring message first (last + 1) ;;
        ret (reformat message first last potentialJson)
      else ret message
  | _, _ => ret message
  end.

Definition formatMessage (message : option value) : option value :=
  match formatMessage_body message with
  | inr v => v
  | inl _ => message
  end.

(** The comparator of line 120. *)
Definition compare_timestamps (a b : value) : result (option Z) :=
  stampA <- get (Some a) (lit "timestamp") ;;
  timeA <- Date_getTime stampA ;;
  stampB <- get (Some b) (lit "timestamp") ;;
  timeB <- Date_getTime stampB ;;
  ret (match timeA, timeB with
       | Some x, Some y => Some (x - y)%Z
       | _, _ => None
       end).

(** The callbacks of lines 128 and 129. *)
Definition has_message (log : value) : result bool :=
  payload <- get (Some log) (lit "jsonPayload") ;;
  if ToBoolean payload then
    message <- get payload (lit "message") ;;
    ret (ToBoolean message)
  else ret false.

Definition formatted_message (log : value) : result (option value) :=
  payload <- get (Some log) (lit "jsonPayload") ;;
  message <- get payload (lit "message") ;;
  ret (formatMessage message).

(** Lines 108-132, the [try] block. *)
Definition extract_body (inputLogs : jsstring)
    : result (list (option value) * jsstring) :=
  logs <- JSON_parse inputLogs ;;
  match logs with
  | VArray entries =>
      sortedLogs <- Array_sort compare_timestamps entries ;;
      kept <- filterM has_message sortedLogs ;;
      messages <- mapM formatted_message kept ;;
      output <- join Number_toString messages [NEWLINE] ;;
      ret (messages, output)
  | _ => throw (Error (lit "Input JSON must be an array of log entries"))
  end.

(** Lines 99-141: the state after the effect has run on [inputLogs] (the
    delay of the timer is not part of the model). *)
Definition extract (inputLogs : jsstring) : ExtractionResult :=
  match trim inputLogs with
  | [] => mkResult [] [] 0 []
  | _ =>
      match extract_body inputLogs with
      | inr (messages, output) =>
          mkResult messages output (length messages) []
      | inl err => mkResult [] [] 0 (message_of err)
      end
  end.

End WithRuntime.

End Extraction.
Import Extraction.

(** ** A reference engine

    An executable instance of [Runtime], used to run the model on concrete
    inputs: a parser for JSON, the conversion between decimal text and
    binary64, the serialisation of the language with these number texts, the
    ISO date format, and a stable insertion sort driven by the
    comparator. *)

Module Reference.

Definition binary64_of_decimal (negative : bool) (digits : Z) (exponent : Z)
    : spec_float :=
  match digits with
  | Zpos m =>
      match exponent with
      | Zneg k =>
          SFdiv 53 1024 (S754_finite negative m 0)
                        (S754_finite false (Pos.pow 10 k) 0)
      | _ =>
          binary_normalize 53 1024
            (if negative then Z.opp (digits * 10 ^ exponent)
             else digits * 10 ^ exponent)%Z 0 false
      end
  | _ => S754_zero negative
  end.

(** *** [JSON.parse] *)

Definition is_digit (c : codeunit) : bool := N.leb 48 c && N.leb c 57.

Definition digit_value (c : codeunit) : Z := Z.of_N (c - 48).

Definition hex_value (c : codeunit) : option N :=
  if N.leb 48 c && N.leb c 57 then Some (c - 48)%N
  else if N.leb 97 c && N.leb c 102 then Some (c - 87)%N
  else if N.leb 65 c && N.leb c 70 then Some (c - 55)%N
  else None.

Definition is_json_space (c : codeunit) : bool :=
  N.eqb c 9 || N.eqb c 10 || N.eqb c 13 || N.eqb c 32.

Fixpoint skip_space (s : jsstring) : jsstring :=
  match s with
  | c :: s' => if is_json_space c then skip_space s' else s
  | [] => []
  end.

Definition unexpected (s : jsstring) : exn :=
  match s with
  | [] => SyntaxError (lit "Unexpected end of JSON input")
  | c :: _ => SyntaxError (lit "Unexpected token " ++ [c] ++ lit " in JSON")
  end.

(** Digits at the head of [s]: their value appended to [acc], how many
    there are, and the rest. *)
Fixpoint read_digits (s : jsstring) (acc : Z) (n : nat) : Z * nat * jsstring :=
  match s with
  | c :: s' =>
      if is_digit c then read_digits s' (acc * 10 + digit_value c)%Z (S n)
      else (acc, n, s)
  | [] => (acc, n, s)
  end.

Definition parse_number (s : jsstring) : result (value * jsstring) :=
  let (negative, s1) :=
    match s with
    | c :: s' => if N.eqb c 45 then (true, s') else (false, s)
    | [] => (false, s)
    end in
  let '(int, n_int, s2) := read_digits s1 0 0 in
  match n_int, s1 with
  | 0, _ => throw (unexpected s1)
  | S (S _), 48%N :: _ => throw (unexpected (tl s1))
  | _, _ =>
      fraction <-
        match s2 with
        | 46%N :: s' =>
            let '(m, n_frac, s3) := read_digits s' int 0 in
            match n_frac with
            | 0 => throw (unexpected s')
            | _ => ret (m, Z.of_nat n_frac, s3)
            end
        | _ => ret (int, 0%Z, s2)
        end ;;
      let '(m, scale, s3) := fraction in
      exponent <-
        match s3 with
        | (101%N | 69%N) :: s' =>
            let (minus, s4) :=
              match s' with
              | 45%N :: t => (true, t)
              | 43%N :: t => (false, t)
              | _ => (false, s')
              end in
            let '(e, n_exp, s5) := read_digits s4 0 0 in
            match n_exp with
            | 0 => throw (unexpected s4)
            | _ => ret (if minus then Z.opp e else e, s5)
            end
        | _ => ret (0%Z, s3)
        end ;;
      let (e, rest) := exponent in
      ret (VNumber (binary64_of_decimal negative m (e - scale)), rest)
  end.

Definition read_hex4 (s : jsstring) : option (codeunit * jsstring) :=
  match s with
  | a :: b :: c :: d :: rest =>
      match hex_value a, hex_value b, hex_value c, hex_value d with
      | Some x, Some y, Some z, Some w =>
          Some (((x * 16 + y) * 16 + z) * 16 + w, rest)%N
      | _, _, _, _ => None
      end
  | _ => None
  end.

(** The units of a string literal after its opening quote. *)
Fixpoint parse_string (s : jsstring) (fuel : nat)
    : result (jsstring * jsstring) :=
  match fuel with
  | 0 => throw (unexpected [])
  | S fuel' =>
      match s with
      | [] => throw (unexpected [])
      | 34%N :: rest => ret ([], rest)
      | 92%N :: e :: rest =>
          let simple (c : codeunit) :=
            r <- parse_string rest fuel' ;;
            ret (c :: fst r, snd r) in
          match e with
          | 34%N => simple 34%N
          | 92%N => simple 92%N
          | 47%N => simple 47%N
          | 98%N => simple 8%N
          | 102%N => simple 12%N
          | 110%N => simple 10%N
          | 114%N => simple 13%N
          | 116%N => simple 9%N
          | 117%N =>
              match read_hex4 rest with
              | Some (c, rest') =>
                  r <- parse_string rest' fuel' ;;
                  ret (c :: fst r, snd r)
              | None => throw (unexpected rest)
              end
          | _ => throw (unexpected (e :: rest))
          end
      | c :: rest =>
          if N.ltb c 32 || N.eqb c 92 then throw (unexpected s)
          else r <- parse_string rest fuel' ;; ret (c :: fst r, snd r)
      end
  end.

Definition expect (word : jsstring) (v : value) (s : jsstring)
    : result (value * jsstring) :=
  if jsstring_eqb (firstn (length word) s) word
  then ret (v, skipn (length word) s)
  else throw (unexpected s).

(** The index that a property name denotes, when it is the canonical text
    of an integer below [2^32 - 1]. *)
Definition array_index (name : jsstring) : option Z :=
  match name with
  | [] => None
  | [48%N] => Some 0%Z
  | 48%N :: _ => None
  | _ =>
      if forallb is_digit name && Nat.leb (length name) 10
      then let '(n, _, _) := read_digits name 0 0 in
           if Z.ltb n 4294967295 then Some n else None
      else None
  end.

(** CreateDataProperty on the list of own properties: an existing property
    keeps its place and takes the new value; a new index goes among the
    indices, in ascending order; any other new name goes last. *)
Fixpoint define_property (props : list (jsstring * value))
    (name : jsstring) (v : value) : list (jsstring * value) :=
  match props with
  | [] => [(name, v)]
  | (k, w) :: rest =>
      if jsstring_eqb k name then (k, v) :: rest
      else if has_own_property rest name
      then (k, w) :: define_property rest name v
      else match array_index name, array_index k with
           | Some i, Some j =>
               if Z.ltb i j then (name, v) :: props
               else (k, w) :: define_property rest name v
           | Some _, None => (name, v) :: props
           | None, _ => (k, w) :: define_property rest name v
           end
  end.

Fixpoint parse_value (fuel : nat) (s : jsstring) : result (value * jsstring) :=
  match fuel with
  | 0 => throw (unexpected [])
  | S fuel' =>
      let parse_elements :=
        fix parse_elements (n : nat) (acc : list value) (s : jsstring)
            : result (value * jsstring) :=
          match n with
          | 0 => throw (unexpected [])
          | S n' =>
              r <- parse_value fuel' s ;;
              let (v, s1) := r in
              match skip_space s1 with
              | 44%N :: s2 => parse_elements n' (acc ++ [v]) s2
              | 93%N :: s2 => ret (VArray (acc ++ [v]), s2)
              | s2 => throw (unexpected s2)
              end
          end in
      let parse_members :=
        fix parse_members (n : nat) (acc : list (jsstring * value))
            (s : jsstring) : result (value * jsstring) :=
          match n with
          | 0 => throw (unexpected [])
          | S n' =>
              match skip_space s with
              | 34%N :: s1 =>
                  k <- parse_string s1 (length s1) ;;
                  let (name, s2) := k in
                  match skip_space s2 with
                  | 58%N :: s3 =>
                      r <- parse_value fuel' s3 ;;
                      let (v, s4) := r in
                      let acc' := define_property acc name v in
                      match skip_space s4 with
                      | 44%N :: s5 => parse_members n' acc' s5
                      | 125%N :: s5 => ret (VObject acc', s5)
                      | s5 => throw (unexpected s5)
                      end
                  | s3 => throw (unexpected s3)
                  end
              | s1 => throw (unexpected s1)
              end
          end in
      match skip_space s with
      | c :: s1 =>
          if N.eqb c 123 then
            match skip_space s1 with
            | 125%N :: s2 => ret (VObject [], s2)
            | _ => parse_members (length s1) [] s1
            end
          else if N.eqb c 91 then
            match skip_space s1 with
            | 93%N :: s2 => ret (VArray [], s2)
            | _ => parse_elements (length s1) [] s1
            end
          else if N.eqb c 34 then
            r <- parse_string s1 (length s1) ;;
            ret (VString (fst r), snd r)
          else if N.eqb c 116 then
            expect (lit "true") (VBoolean true) (c :: s1)
          else if N.eqb c 102 then
            expect (lit "false") (VBoolean false) (c :: s1)
          else if N.eqb c 110 then
            expect (lit "null") VNull (c :: s1)
          else parse_number (c :: s1)
      | [] => throw (unexpected [])
      end
  end.

Definition JSON_parse (text : jsstring) : result value :=
  r <- parse_value (S (length text)) text ;;
  match skip_space (snd r) with
  | [] => ret (fst r)
  | rest => throw (unexpected rest)
  end.

(** *** Number::toString *)

Fixpoint decimal_digits (fuel : nat) (n : Z) (acc : jsstring) : jsstring :=
  match fuel with
  | 0 => acc
  | S fuel' =>
      let acc' := (48 + Z.to_N (n mod 10))%N :: acc in
      if Z.ltb n 10 then acc' else decimal_digits fuel' (n / 10)%Z acc'
  end.

Definition decimal (n : Z) : jsstring :=
  decimal_digits (S (Z.to_nat (Z.log2 n))) n [].

Section Shortest.

(** The positive number [num / den]. *)
Variables (num den : Z) (x : spec_float).

(** [num / den >= 10 ^ n] *)
Definition at_least_pow10 (n : Z) : bool :=
  match n with
  | Zneg k => Z.leb den (num * Z.pow_pos 10 k)
  | _ => Z.leb (den * 10 ^ n) num
  end.

(** The [n] with [10 ^ (n - 1) <= num / den < 10 ^ n]. *)
Fixpoint magnitude (fuel : nat) (n : Z) : Z :=
  match fuel with
  | 0 => n
  | S fuel' =>
      if at_least_pow10 n then magnitude fuel' (n + 1)
      else if at_least_pow10 (n - 1) then n
      else magnitude fuel' (n - 1)
  end.

Definition reads_back (s p : Z) : bool :=
  match SFcompare (binary64_of_decimal false s p) x with
  | Some Eq => true
  | _ => false
  end.

(** The digits [s] and the exponent [n] for [k] digits, when some [k]-digit
    decimal reads back as [x]: of the two neighbours of [num / den] the
    closer one, and the even one on a tie. *)
Definition with_digits (n k : Z) : option (Z * Z) :=
  let p := (n - k)%Z in
  let lo := match p with
            | Zneg q => (num * Z.pow_pos 10 q / den)%Z
            | _ => (num / (den * 10 ^ p))%Z
            end in
  let hi := (lo + 1)%Z in
  let closer : comparison :=
    match p with
    | Zneg q => Z.compare (2 * num * Z.pow_pos 10 q) ((2 * lo + 1) * den)
    | _ => Z.compare (2 * num) ((2 * lo + 1) * 10 ^ p * den)
    end in
  let pick (s : Z) :=
    if Z.eqb s (10 ^ k) then Some (10 ^ (k - 1), n + 1)%Z else Some (s, n) in
  match reads_back lo p, reads_back hi p with
  | true, true =>
      match closer with
      | Lt => pick lo
      | Gt => pick hi
      | Eq => if Z.even lo then pick lo else pick hi
      end
  | true, false => pick lo
  | false, true => pick hi
  | false, false => None
  end.

Fixpoint shortest (fuel : nat) (n k : Z) : Z * Z * Z :=
  match fuel with
  | 0 => (num / den, k, n)%Z
  | S fuel' =>
      match with_digits n k with
      | Some (s, n') => (s, k, n')
      | None => shortest fuel' n (k + 1)
      end
  end.

End Shortest.

Definition zeros (n : Z) : jsstring := repeat 48%N (Z.to_nat n).

Definition Number_toString (x : spec_float) : jsstring :=
  match x with
  | S754_nan => lit "NaN"
  | S754_zero _ => lit "0"
  | S754_infinity s => (if s then lit "-" else []) ++ lit "Infinity"
  | S754_finite sign m e =>
      let (num, den) :=
        match e with
        | Zneg q => (Zpos m, Z.pow_pos 2 q)
        | _ => (Z.shiftl (Zpos m) e, 1%Z)
        end in
      let n0 := magnitude num den 700 0 in
      let '(s, k, n) := shortest num den (S754_finite false m e) 20 n0 1 in
      let digits := decimal s in
      let exponent :=
        (if Z.ltb 0 (n - 1) then lit "e+" ++ decimal (n - 1)
         else lit "e-" ++ decimal (1 - n))%Z in
      (if sign then lit "-" else []) ++
      (if Z.leb k n && Z.leb n 21 then digits ++ zeros (n - k)
       else if Z.ltb 0 n && Z.leb n 21
       then firstn (Z.to_nat n) digits ++ lit "." ++ skipn (Z.to_nat n) digits
       else if Z.ltb (-6) n && Z.leb n 0
       then lit "0." ++ zeros (- n) ++ digits
       else if Z.eqb k 1 then digits ++ exponent
       else firstn 1 digits ++ lit "." ++ skipn 1 digits ++ exponent)
  end.

(** *** [JSON.stringify]: the serialisation of the language, with the
    number texts of this engine *)

Definition JSON_stringify (v : value) (space : nat) : jsstring :=
  serialize Number_toString (repeat (ch " ") (Nat.min space 10)) [] v.

Lemma JSON_stringify_spec v space :
  JSON_stringify v space =
  serialize Number_toString (repeat (ch " ") (Nat.min space 10)) [] v.
Proof. reflexivity. Qed.

(** *** [Date.parse] on the ISO format

    The reference engine reads [YYYY-MM-DD] and [YYYY-MM-DDTHH:mm:ss] with
    an optional fraction of a second, followed by [Z], which is how log
    entries are stamped; any other text is not a date for it. *)

Fixpoint take_digits (n : nat) (s : jsstring) (acc : Z)
    : option (Z * jsstring) :=
  match n with
  | 0 => Some (acc, s)
  | S n' =>
      match s with
      | c :: s' =>
          if is_digit c then take_digits n' s' (acc * 10 + digit_value c)%Z
          else None
      | [] => None
      end
  end.

Definition take_unit (c : codeunit) (s : jsstring) : option jsstring :=
  match s with
  | a :: s' => if codeunit_eqb a c then Some s' else None
  | [] => None
  end.

Definition is_leap (y : Z) : bool :=
  (Z.eqb (y mod 4) 0 && negb (Z.eqb (y mod 100) 0)) || Z.eqb (y mod 400) 0.

Definition days_in_month (y m : Z) : Z :=
  (if Z.eqb m 2 then (if is_leap y then 29 else 28)
   else if Z.eqb m 4 || Z.eqb m 6 || Z.eqb m 9 || Z.eqb m 11 then 30
   else 31)%Z.

(** The day number of a date, counted from 1970-01-01. *)
Definition days_from_civil (y m d : Z) : Z :=
  let y' := (if Z.leb m 2 then y - 1 else y)%Z in
  let era := (y' / 400)%Z in
  let yoe := (y' - era * 400)%Z in
  let mp := ((m + 9) mod 12)%Z in
  let doy := ((153 * mp + 2) / 5 + d - 1)%Z in
  let doe := (yoe * 365 + yoe / 4 - yoe / 100 + doy)%Z in
  (era * 146097 + doe - 719468)%Z.

Definition milliseconds (s : jsstring) : option (Z * jsstring) :=
  match s with
  | 46%N :: s1 =>
      let '(_, n, rest) := read_digits s1 0 0 in
      match n with
      | 0 => None
      | _ =>
          let '(ms, _, _) :=
            read_digits (firstn 3 (firstn n s1 ++ lit "00")) 0 0 in
          Some (ms, rest)
      end
  | _ => Some (0%Z, s)
  end.

Definition Date_parse (s : jsstring) : option Z :=
  match take_digits 4 s 0 with
  | Some (y, s1) =>
  match take_unit (ch "-") s1 with
  | Some s2 =>
  match take_digits 2 s2 0 with
  | Some (m, s3) =>
  match take_unit (ch "-") s3 with
  | Some s4 =>
  match take_digits 2 s4 0 with
  | Some (d, s5) =>
      if Z.leb 1 m && Z.leb m 12 && Z.leb 1 d && Z.leb d (days_in_month y m)
      then
        let day := days_from_civil y m d in
        match s5 with
        | [] => Some (day * 86400000)%Z
        | _ =>
          match take_unit (ch "T") s5 with
          | Some s6 =>
          match take_digits 2 s6 0 with
          | Some (hh, s7) =>
          match take_unit (ch ":") s7 with
          | Some s8 =>
          match take_digits 2 s8 0 with
          | Some (mm, s9) =>
          match take_unit (ch ":") s9 with
          | Some s10 =>
          match take_digits 2 s10 0 with
          | Some (ss, s11) =>
          match milliseconds s11 with
          | Some (ms, [90%N]) =>
              if Z.ltb hh 24 && Z.ltb mm 60 && Z.ltb ss 60
              then Some (((day * 24 + hh) * 60 + mm) * 60000
                         + ss * 1000 + ms)%Z
              else None
          | _ => None
          end
          | None => None end
          | None => None end
          | None => None end
          | None => None end
          | None => None end
          | None => None end
        end
      else None
  | None => None end
  | None => None end
  | None => None end
  | None => None end
  | None => None end.

(** *** [Array.prototype.sort]

    A stable insertion sort: an element goes in front of the first one that
    the comparator does not put before it; a NaN from the comparator counts
    as zero. *)

Section Sort.

Variable compare : value -> value -> result (option Z).

Definition after (v : option Z) : bool :=
  match v with
  | Some z => Z.ltb 0 z
  | None => false
  end.

Fixpoint insert_by (a : value) (l : list value) : result (list value) :=
  match l with
  | [] => ret [a]
  | b :: l' =>
      v <- compare a b ;;
      if after v then rest <- insert_by a l' ;; ret (b :: rest)
      else ret (a :: l)
  end.

Fixpoint Array_sort (l : list value) : result (list value) :=
  match l with
  | [] => ret []
  | a :: l' => sorted <- Array_sort l' ;; insert_by a sorted
  end.

End Sort.

(** The texts of V8. *)
Definition type_error_message (t : type_error) : jsstring :=
  match t with
  | ReadOfNull name =>
      lit "Cannot read properties of null (reading '" ++ name ++ lit "')"
  | NotAFunction name => lit "message." ++ name ++ lit " is not a function"
  | NoPrimitiveValue => lit "Cannot convert object to primitive value"
  end.

Lemma insert_by_permutes compare a l :
  (forall b, In b l -> exists v, compare a b = inr v) ->
  exists l', insert_by compare a l = inr l' /\ Permutation (a :: l) l'.
Proof.
  induction l as [|b l IH]; intros H; simpl.
  - exists [a]. split; [reflexivity|apply Permutation_refl].
  - destruct (H b (or_introl eq_refl)) as [v Hv]. rewrite Hv. simpl.
    destruct (after v).
    + destruct IH as (l' & E & P); [intros; apply H; right; assumption|].
      rewrite E. simpl. exists (b :: l'). split; [reflexivity|].
      eapply Permutation_trans; [apply perm_swap|].
      apply perm_skip. exact P.
    + exists (a :: b :: l). split; [reflexivity|apply Permutation_refl].
Qed.

Lemma Array_sort_permutes compare l :
  (forall a b, In a l -> In b l -> exists v, compare a b = inr v) ->
  exists l', Array_sort compare l = inr l' /\ Permutation l l'.
Proof.
  induction l as [|a l IH]; intros H; simpl.
  - exists []. split; [reflexivity|apply Permutation_refl].
  - destruct IH as (l1 & E & P).
    { intros; apply H; right; assumption. }
    rewrite E. simpl.
    destruct (@insert_by_permutes compare a l1) as (l2 & E2 & P2).
    { intros b Hb. apply H; [left; reflexivity|right].
      eapply Permutation_in; [apply Permutation_sym; exact P|exact Hb]. }
    exists l2. split; [exact E2|].
    eapply Permutation_trans; [apply perm_skip; exact P|exact P2].
Qed.

Lemma insert_by_key compare key a l :
  (forall b, In b l -> compare a b = inr (Some (key a - key b)%Z)) ->
  insert_by compare a l = inr (insert key a l).
Proof.
  induction l as [|b l IH]; intros H; simpl; [reflexivity|].
  rewrite (H b (or_introl eq_refl)). simpl.
  destruct (Z.ltb_spec 0 (key a - key b)), (Z.leb_spec (key a) (key b));
    try lia.
  - rewrite IH by (intros; apply H; right; assumption). reflexivity.
  - reflexivity.
Qed.

Lemma Array_sort_stable compare key l :
  (forall a b, In a l -> In b l ->
     compare a b = inr (Some (key a - key b)%Z)) ->
  Array_sort compare l = inr (stable_sort key l).
Proof.
  induction l as [|a l IH]; intros H; simpl; [reflexivity|].
  rewrite IH by (intros; apply H; right; assumption). simpl.
  apply insert_by_key. intros b Hb.
  apply H; [left; reflexivity|right].
  eapply Permutation_in;
    [apply Permutation_sym; apply EngineFacts.stable_sort_permutes|exact Hb].
Qed.

Lemma white_space_range c :
  is_white_space c = true -> (c <= 32 \/ 160 <= c)%N.
Proof.
  unfold is_white_space, in_ranges, white_space_ranges. simpl.
  rewrite !orb_true_iff, !andb_true_iff, !N.leb_le. lia.
Qed.

Lemma skip_space_white s :
  forallb is_white_space s = true ->
  forallb is_white_space (skip_space s) = true.
Proof.
  induction s as [|c s IH]; simpl; [reflexivity|].
  intros H. apply andb_true_iff in H. destruct H as [Hc Hs].
  destruct (is_json_space c); [auto|]. simpl. rewrite Hc, Hs. reflexivity.
Qed.

Lemma parse_number_white c s :
  is_white_space c = true -> exists e, parse_number (c :: s) = inl e.
Proof.
  intros H. apply white_space_range in H. unfold parse_number.
  assert (E45 : N.eqb c 45 = false) by (apply N.eqb_neq; lia).
  rewrite E45.
  assert (Ed : is_digit c = false).
  { unfold is_digit. apply andb_false_iff.
    rewrite !N.leb_gt. lia. }
  simpl. rewrite Ed. eexists. reflexivity.
Qed.

Lemma parse_value_white fuel s :
  forallb is_white_space s = true -> exists e, parse_value fuel s = inl e.
Proof.
  intros H. destruct fuel as [|fuel]; [eexists; reflexivity|].
  apply skip_space_white in H. simpl.
  destruct (skip_space s) as [|c s1]; [eexists; reflexivity|].
  simpl in H. apply andb_true_iff in H. destruct H as [Hc _].
  pose proof (white_space_range _ Hc) as Hr.
  replace (N.eqb c 123) with false by (symmetry; apply N.eqb_neq; lia).
  replace (N.eqb c 91) with false by (symmetry; apply N.eqb_neq; lia).
  replace (N.eqb c 34) with false by (symmetry; apply N.eqb_neq; lia).
  replace (N.eqb c 116) with false by (symmetry; apply N.eqb_neq; lia).
  replace (N.eqb c 102) with false by (symmetry; apply N.eqb_neq; lia).
  replace (N.eqb c 110) with false by (symmetry; apply N.eqb_neq; lia).
  apply parse_number_white. exact Hc.
Qed.

Lemma JSON_parse_blank text :
  trim text = [] -> exists e, JSON_parse text = inl e.
Proof.
  intros H. apply JsStringFacts.trim_nil in H. unfold JSON_parse.
  destruct (parse_value_white (S (length text)) _ H) as [e E].
  rewrite E. exists e. reflexivity.
Qed.

#[export] Instance runtime : Runtime := {|
  Engine.JSON_parse := JSON_parse;
  Engine.JSON_parse_blank := JSON_parse_blank;
  Engine.JSON_stringify := JSON_stringify;
  Engine.JSON_stringify_spec := JSON_stringify_spec;
  Engine.Number_toString := Number_toString;
  Engine.Date_parse := Date_parse;
  Engine.Array_sort := Array_sort;
  Engine.type_error_message := type_error_message;
  Engine.Array_sort_permutes := Array_sort_permutes;
  Engine.Array_sort_stable := Array_sort_stable
|}.

End Reference.

(** ** Properties of the extraction *)

Module ExtractionFacts.
Import JsStringFacts EngineFacts.

(** Induction on values with the hypothesis for the elements of an array
    and for the properties of an object. *)
Lemma value_induction (P : value -> Prop) :
  P VNull ->
  (forall b, P (VBoolean b)) ->
  (forall n, P (VNumber n)) ->
  (forall s, P (VString s)) ->
  (forall l, Forall P l -> P (VArray l)) ->
  (forall props, Forall (fun p => P (snd p)) props -> P (VObject props)) ->
  forall v, P v.
Proof.
  intros Hnull Hbool Hnum Hstr Harr Hobj.
  fix IH 1. intros [ |b|n|s|l|props].
  - exact Hnull.
  - apply Hbool.
  - apply Hnum.
  - apply Hstr.
  - apply Harr. induction l as [|v l IHl]; constructor.
    + apply IH.
    + exact IHl.
  - apply Hobj. induction props as [|[k v] props IHp]; constructor.
    + apply IH.
    + exact IHp.
Qed.

(** The pure readings of the fields of an entry: what [v.name] gives when
    it does not throw. *)
Definition field (v : option value) (name : jsstring) : option value :=
  match v with
  | Some (VObject props) => own_property props name
  | _ => None
  end.

Definition timestamp_of (log : value) : option value :=
  field (Some log) (lit "timestamp").

Definition message_field (log : value) : option value :=
  field (field (Some log) (lit "jsonPayload")) (lit "message").

(** The entry has a truthy [jsonPayload.message]. *)
Definition retained (log : value) : bool := ToBoolean (message_field log).

(** The value converts to a string without an exception: no object with an
    own [toString] property is met on the way. *)
Fixpoint convertible (v : value) : bool :=
  match v with
  | VArray l => forallb convertible l
  | VObject props => negb (has_own_property props (lit "toString"))
  | _ => true
  end.

Definition convertible_opt (v : option value) : bool :=
  match v with
  | Some v' => convertible v'
  | None => true
  end.

Definition is_null (v : value) : bool :=
  match v with
  | VNull => true
  | _ => false
  end.

(** An entry that the comparator accepts without an exception: it is not
    [null] and its timestamp converts to a string. *)
Definition sortable (log : value) : bool :=
  negb (is_null log) && convertible_opt (timestamp_of log).

(** An entry that the extraction processes without an exception: it is
    sortable and its message converts to a string. *)
Definition regular (log : value) : bool :=
  sortable log && convertible_opt (message_field log).

Definition is_string (v : option value) : bool :=
  match v with
  | Some (VString _) => true
  | _ => false
  end.

Lemma get_field log name :
  is_null log = false -> get (Some log) name = inr (field (Some log) name).
Proof. destruct log; simpl; intros H; try reflexivity; discriminate. Qed.

Lemma get_truthy v name :
  ToBoolean v = true -> get v name = inr (field v name).
Proof.
  destruct v as [[ | | | | | ]|]; simpl; intros H;
    try reflexivity; discriminate.
Qed.

Lemma field_falsy v name : ToBoolean v = false -> field v name = None.
Proof.
  destruct v as [[ | | | | | ]|]; simpl; intros H;
    try reflexivity; discriminate.
Qed.

Section Iteration.

Variables (A B : Type).

Lemma filterM_pure (p : A -> result bool) (q : A -> bool) l :
  (forall a, In a l -> p a = inr (q a)) -> filterM p l = inr (filter q l).
Proof.
  induction l as [|a l IH]; intros H; simpl; [reflexivity|].
  rewrite (H a (or_introl eq_refl)). simpl.
  rewrite IH by (intros; apply H; right; assumption). simpl.
  destruct (q a); reflexivity.
Qed.

Lemma mapM_pure (f : A -> result B) (g : A -> B) l :
  (forall a, In a l -> f a = inr (g a)) -> mapM f l = inr (map g l).
Proof.
  induction l as [|a l IH]; intros H; simpl; [reflexivity|].
  rewrite (H a (or_introl eq_refl)). simpl.
  rewrite IH by (intros; apply H; right; assumption). reflexivity.
Qed.

Lemma mapM_total (f : A -> result B) l :
  (forall a, In a l -> exists b, f a = inr b) ->
  exists bs, mapM f l = inr bs.
Proof.
  induction l as [|a l IH]; intros H; simpl; [eexists; reflexivity|].
  destruct (H a (or_introl eq_refl)) as [b ->]. simpl.
  destruct IH as [bs ->]; [intros; apply H; right; assumption|].
  eexists; reflexivity.
Qed.

End Iteration.

Section Conversion.

Variable Number_toString : spec_float -> jsstring.

Lemma ToString_array l :
  ToString Number_toString (VArray l) =
  (strs <- mapM (fun e => match e with
                          | VNull => ret []
                          | _ => ToString Number_toString e
                          end) l ;;
   ret (join_strings (lit ",") strs)).
Proof. reflexivity. Qed.

Lemma ToString_convertible v :
  convertible v = true -> exists s, ToString Number_toString v = inr s.
Proof.
  induction v as [ |b|n|s|l IH|props _] using value_induction;
    intros H; try (eexists; reflexivity).
  - rewrite ToString_array.
    match goal with
    | |- context [mapM ?f l] =>
        destruct (@mapM_total _ _ f l) as [strs ->]; [|eexists; reflexivity]
    end.
    intros e He. rewrite Forall_forall in IH.
    simpl in H. rewrite forallb_forall in H.
    destruct e; try (apply IH; auto); eexists; reflexivity.
  - simpl in *.
    destruct (has_own_property props (lit "toString")); [discriminate|].
    eexists; reflexivity.
Qed.

Lemma element_text_convertible v :
  convertible_opt v = true ->
  exists s, element_text Number_toString v = inr s.
Proof.
  destruct v as [v|]; [|eexists; reflexivity].
  intros H. destruct v; try (apply ToString_convertible; exact H).
  eexists; reflexivity.
Qed.

Lemma join_convertible l separator :
  forallb convertible_opt l = true ->
  exists out, join Number_toString l separator = inr out.
Proof.
  intros H. unfold join.
  match goal with
  | |- context [mapM ?f l] => destruct (@mapM_total _ _ f l) as [strs ->]
  end.
  - intros v Hv. apply element_text_convertible.
    rewrite forallb_forall in H. auto.
  - eexists; reflexivity.
Qed.

End Conversion.

Lemma StronglySorted_filter (A : Type) (le : A -> A -> Prop) f l :
  StronglySorted le l -> StronglySorted le (filter f l).
Proof.
  induction 1 as [|a l Hl IH Ha]; simpl; [constructor|].
  destruct (f a); [|exact IH]. constructor; [exact IH|].
  rewrite Forall_forall in *. intros b Hb.
  apply filter_In in Hb. apply Ha. tauto.
Qed.

Lemma filter_comm (A : Type) (f g : A -> bool) l :
  filter f (filter g l) = filter g (filter f l).
Proof.
  induction l as [|a l IH]; simpl; [reflexivity|].
  destruct (f a) eqn:Ef, (g a) eqn:Eg; simpl;
    rewrite ?Ef, ?Eg, IH; reflexivity.
Qed.

Lemma Permutation_filter (A : Type) (f : A -> bool) l l' :
  Permutation l l' -> Permutation (filter f l) (filter f l').
Proof.
  induction 1 as [|a l l' _ IH|a b l|l l' l'' _ IH1 _ IH2]; simpl.
  - constructor.
  - destruct (f a); [constructor|]; exact IH.
  - destruct (f a), (f b); try apply Permutation_refl. constructor.
  - eapply Permutation_trans; eauto.
Qed.

Section WithRuntime.

Context {R : Runtime}.

(** The messages that the extraction produces from the sorted entries. *)
Definition messages_of (sortedLogs : list value) : list (option value) :=
  map (fun log => formatMessage (message_field log))
      (filter retained sortedLogs).

(** The instant of an entry whose timestamp is a valid date (0 stands in
    for the others). *)
Definition instant (log : value) : Z :=
  match Date_getTime (timestamp_of log) with
  | inr (Some t) => t
  | _ => 0%Z
  end.

Lemma formatMessage_not_string m :
  is_string m = false -> formatMessage m = m.
Proof.
  unfold formatMessage, formatMessage_body.
  destruct m as [[ |b|n|s|l|props]|]; simpl; intros H;
    try reflexivity; try discriminate.
  destruct (array_indexOf LBRACE l) as [i|]; [|reflexivity].
  destruct (array_lastIndexOf RBRACE l) as [j|]; [|reflexivity].
  destruct (Nat.ltb i j); reflexivity.
Qed.

(** On anything but a string and an array the body of [formatMessage]
    throws, and the outer [catch] returns the message. *)
Lemma formatMessage_body_throws m :
  is_string m = false ->
  match m with Some (VArray _) => False | _ => True end ->
  exists t, formatMessage_body m = inl (TypeError t).
Proof.
  unfold formatMessage_body.
  destruct m as [[ |b|n|s|l|props]|]; simpl; intros H H';
    try discriminate; try contradiction; eexists; reflexivity.
Qed.

Lemma formatMessage_string s :
  exists s', formatMessage (Some (VString s)) = Some (VString s').
Proof.
  unfold formatMessage, formatMessage_body. simpl.
  destruct (indexOf LBRACE s) as [i|]; [|eexists; reflexivity].
  destruct (lastIndexOf RBRACE s) as [j|]; [|eexists; reflexivity].
  simpl. destruct (Nat.ltb i j); [|eexists; reflexivity].
  simpl. unfold reformat.
  destruct (JSON_parse (substring s i (j + 1))); simpl;
    eexists; reflexivity.
Qed.

Lemma formatMessage_convertible m :
  convertible_opt m = true -> convertible_opt (formatMessage m) = true.
Proof.
  intros H. destruct (is_string m) eqn:E.
  - destruct m as [[ | | |s| | ]|]; try discriminate.
    destruct (formatMessage_string s) as [s' ->]. reflexivity.
  - rewrite formatMessage_not_string by exact E. exact H.
Qed.

Lemma Date_getTime_total v :
  convertible_opt v = true -> exists t, Date_getTime v = inr t.
Proof.
  destruct v as [[ |b|n|s|l|props]|]; intros H;
    try (eexists; reflexivity).
  - destruct (ToString_convertible Number_toString (VArray l) H) as [s E].
    unfold Date_getTime. rewrite E. eexists; reflexivity.
  - destruct (ToString_convertible Number_toString (VObject props) H)
      as [s E].
    unfold Date_getTime. rewrite E. eexists; reflexivity.
Qed.

Lemma sortable_spec log :
  sortable log = true ->
  is_null log = false /\ convertible_opt (timestamp_of log) = true.
Proof.
  unfold sortable. rewrite !andb_true_iff, negb_true_iff. tauto.
Qed.

Lemma regular_spec log :
  regular log = true ->
  sortable log = true /\ convertible_opt (message_field log) = true.
Proof.
  unfold regular. rewrite !andb_true_iff. tauto.
Qed.

Lemma compare_timestamps_eq a b :
  is_null a = false -> is_null b = false ->
  compare_timestamps a b =
  (timeA <- Date_getTime (timestamp_of a) ;;
   timeB <- Date_getTime (timestamp_of b) ;;
   ret (match timeA, timeB with
        | Some x, Some y => Some (x - y)%Z
        | _, _ => None
        end)).
Proof.
  intros Ha Hb.
  destruct a; try discriminate; destruct b; try discriminate; reflexivity.
Qed.

Lemma compare_timestamps_total a b :
  sortable a = true -> sortable b = true ->
  exists v, compare_timestamps a b = inr v.
Proof.
  intros Ha Hb.
  destruct (sortable_spec _ Ha) as (Na & Ta).
  destruct (sortable_spec _ Hb) as (Nb & Tb).
  rewrite compare_timestamps_eq by assumption.
  destruct (Date_getTime_total _ Ta) as [ta ->].
  destruct (Date_getTime_total _ Tb) as [tb ->].
  eexists; reflexivity.
Qed.

Lemma has_message_eq log :
  is_null log = false -> has_message log = inr (retained log).
Proof.
  intros H. unfold has_message, retained, message_field.
  rewrite get_field by exact H.
  set (payload := field (Some log) (lit "jsonPayload")).
  unfold bind at 1.
  destruct (ToBoolean payload) eqn:E.
  - rewrite get_truthy by exact E. reflexivity.
  - rewrite field_falsy by exact E. reflexivity.
Qed.

Lemma formatted_message_eq log :
  is_null log = false -> retained log = true ->
  formatted_message log = inr (formatMessage (message_field log)).
Proof.
  intros H Hr. unfold formatted_message.
  unfold retained, message_field in *.
  rewrite get_field by exact H.
  set (payload := field (Some log) (lit "jsonPayload")) in *.
  unfold bind at 1.
  destruct (ToBoolean payload) eqn:E.
  - rewrite get_truthy by exact E. reflexivity.
  - rewrite field_falsy in Hr by exact E. discriminate.
Qed.

Lemma parsed_not_blank s v : JSON_parse s = inr v -> trim s <> [].
Proof.
  intros H E. destruct (JSON_parse_blank _ E) as [e He]. congruence.
Qed.

(** What the extraction does with an array without [null] entries once the
    sort has returned: it keeps the entries with a truthy message, formats
    their messages and joins them; only the join can still throw. *)
Lemma extract_array s entries sortedLogs :
  JSON_parse s = inr (VArray entries) ->
  Array_sort compare_timestamps entries = inr sortedLogs ->
  (forall log, In log sortedLogs -> is_null log = false) ->
  extract s =
  match join Number_toString (messages_of sortedLogs) [NEWLINE] with
  | inr out =>
      mkResult (messages_of sortedLogs) out
               (length (messages_of sortedLogs)) []
  | inl e => mkResult [] [] 0 (message_of e)
  end.
Proof.
  intros Hparse Hsort Hnull.
  assert (Hfilter :
    filterM has_message sortedLogs = inr (filter retained sortedLogs)).
  { apply filterM_pure. intros log Hl. apply has_message_eq. auto. }
  assert (Hmap :
    mapM formatted_message (filter retained sortedLogs) =
    inr (messages_of sortedLogs)).
  { apply mapM_pure. intros log Hl. apply filter_In in Hl.
    destruct Hl as [Hl Hr]. apply formatted_message_eq; auto. }
  unfold extract. pose proof (parsed_not_blank _ Hparse) as Hnb.
  destruct (trim s) as [|c rest]; [congruence|].
  unfold extract_body. rewrite Hparse. simpl.
  rewrite Hsort. simpl. rewrite Hfilter. simpl. rewrite Hmap. simpl.
  destruct (join Number_toString (messages_of sortedLogs) [NEWLINE]);
    reflexivity.
Qed.

(** For sortable entries the sort does not throw. *)
Lemma extract_sortable s entries :
  JSON_parse s = inr (VArray entries) ->
  forallb sortable entries = true ->
  exists sortedLogs,
    Permutation entries sortedLogs /\
    extract s =
    match join Number_toString (messages_of sortedLogs) [NEWLINE] with
    | inr out =>
        mkResult (messages_of sortedLogs) out
                 (length (messages_of sortedLogs)) []
    | inl e => mkResult [] [] 0 (message_of e)
    end.
Proof.
  intros Hparse Hs. rewrite forallb_forall in Hs.
  destruct (Array_sort_permutes compare_timestamps entries)
    as (sortedLogs & Hsort & Hperm).
  { intros a b Ha Hb. apply compare_timestamps_total; auto. }
  exists sortedLogs. split; [exact Hperm|].
  apply (extract_array _ Hparse Hsort).
  intros log Hl. apply sortable_spec, Hs.
  eapply Permutation_in; [apply Permutation_sym; exact Hperm|exact Hl].
Qed.

Lemma forallb_regular entries :
  forallb regular entries = true ->
  forallb sortable entries = true /\
  forallb (fun log => convertible_opt (message_field log)) entries = true.
Proof.
  rewrite !forallb_forall. intros H.
  split; intros log Hl; apply regular_spec; auto.
Qed.

(** For regular entries the join does not throw either. *)
Lemma extract_regular s entries :
  JSON_parse s = inr (VArray entries) ->
  forallb regular entries = true ->
  exists sortedLogs out,
    Permutation entries sortedLogs /\
    extract s =
      mkResult (messages_of sortedLogs) out
               (length (messages_of sortedLogs)) [].
Proof.
  intros Hparse Hreg. apply forallb_regular in Hreg.
  destruct Hreg as [Hs Hm]. rewrite forallb_forall in Hm.
  destruct (extract_sortable _ Hparse Hs) as (sortedLogs & Hperm & E).
  destruct (join_convertible Number_toString (messages_of sortedLogs)
              [NEWLINE]) as [out Hjoin].
  { apply forallb_forall. intros m Hin. unfold messages_of in Hin.
    apply in_map_iff in Hin. destruct Hin as (log & <- & Hl).
    apply filter_In in Hl. destruct Hl as [Hl _].
    apply formatMessage_convertible, Hm.
    eapply Permutation_in; [apply Permutation_sym; exact Hperm|exact Hl]. }
  exists sortedLogs, out. split; [exact Hperm|].
  rewrite E, Hjoin. reflexivity.
Qed.

(** The timestamp of the entry is a valid date. *)
Definition valid_instant (log : value) : bool :=
  match Date_getTime (timestamp_of log) with
  | inr (Some _) => true
  | _ => false
  end.

Lemma compare_timestamps_valid a b :
  is_null a = false -> is_null b = false ->
  valid_instant a = true -> valid_instant b = true ->
  compare_timestamps a b = inr (Some (instant a - instant b)%Z).
Proof.
  intros Na Nb Va Vb. rewrite compare_timestamps_eq by assumption.
  unfold valid_instant, instant in *.
  destruct (Date_getTime (timestamp_of a)) as [|[ta|]]; try discriminate.
  destruct (Date_getTime (timestamp_of b)) as [|[tb|]]; try discriminate.
  reflexivity.
Qed.

Lemma valid_instant_not_null log :
  valid_instant log = true -> is_null log = false.
Proof. destruct log; [discriminate|reflexivity..]. Qed.

(** C3 (amended): when every entry of the array carries a timestamp that
    is a valid date, the messages are those of the entries with a truthy
    message in ascending order of the instants of their entries, and entries
    of one instant keep the order that they have in the input.  The run
    yields exactly these messages, unless joining them throws. *)
Theorem extract_sorted_stable s entries :
  JSON_parse s = inr (VArray entries) ->
  forallb valid_instant entries = true ->
  exists kept,
    Permutation kept (filter retained entries) /\
    StronglySorted (fun a b => (instant a <= instant b)%Z) kept /\
    (forall t,
       filter (fun log => Z.eqb (instant log) t) kept =
       filter (fun log => Z.eqb (instant log) t) (filter retained entries)) /\
    match join Number_toString
            (map (fun log => formatMessage (message_field log)) kept)
            [NEWLINE] with
    | inr out =>
        extract s =
        mkResult (map (fun log => formatMessage (message_field log)) kept)
                 out (length kept) []
    | inl e => extract s = mkResult [] [] 0 (message_of e)
    end.
Proof.
  intros Hparse Hvalid. rewrite forallb_forall in Hvalid.
  assert (Hsort : Array_sort compare_timestamps entries =
                  inr (stable_sort instant entries)).
  { apply Array_sort_stable. intros a b Ha Hb.
    apply compare_timestamps_valid; auto using valid_instant_not_null. }
  exists (filter retained (stable_sort instant entries)).
  split; [|split; [|split]].
  - apply Permutation_filter, Permutation_sym, stable_sort_permutes.
  - apply StronglySorted_filter. apply stable_sort_sorted.
  - intros t. rewrite filter_comm, stable_sort_stable. apply filter_comm.
  - rewrite (extract_array _ Hparse Hsort).
    + unfold messages_of. rewrite length_map.
      destruct (join Number_toString _ [NEWLINE]); reflexivity.
    + intros log Hl. apply valid_instant_not_null, Hvalid.
      eapply Permutation_in;
        [apply Permutation_sym, stable_sort_permutes|exact Hl].
Qed.

Lemma messages_of_permutation entries sortedLogs :
  Permutation entries sortedLogs ->
  Permutation (messages_of sortedLogs)
    (map (fun log => formatMessage (message_field log))
         (filter retained entries)).
Proof.
  intros H. unfold messages_of.
  apply Permutation_map, Permutation_filter, Permutation_sym. exact H.
Qed.

Lemma extract_regular_summary s entries :
  JSON_parse s = inr (VArray entries) ->
  forallb regular entries = true ->
  error (extract s) = [] /\
  count (extract s) = length (filter retained entries) /\
  Permutation (orderedMessages (extract s))
    (map (fun log => formatMessage (message_field log))
         (filter retained entries)).
Proof.
  intros Hparse Hreg.
  destruct (extract_regular _ Hparse Hreg)
    as (sortedLogs & out & Hperm & ->).
  simpl. split; [reflexivity|].
  pose proof (messages_of_permutation Hperm) as P.
  split; [|exact P].
  rewrite (Permutation_length P). apply length_map.
Qed.

(** C6 (amended): in an array of sortable entries (none is [null], every
    timestamp converts to a string) the entries whose [jsonPayload.message]
    is missing or not truthy leave no trace: the messages are the formatted
    messages of the other entries, in some order; when joining them does not
    throw, the run ends with these messages, their number as [count] and no
    error; and joining does not throw when the messages convert to
    strings. *)
Theorem extract_drops_entries_without_message s entries :
  JSON_parse s = inr (VArray entries) ->
  forallb sortable entries = true ->
  (exists messages,
     Permutation messages
       (map (fun log => formatMessage (message_field log))
            (filter retained entries)) /\
     match join Number_toString messages [NEWLINE] with
     | inr out =>
         extract s =
         mkResult messages out (length (filter retained entries)) []
     | inl e => extract s = mkResult [] [] 0 (message_of e)
     end) /\
  (forallb (fun log => convertible_opt (message_field log)) entries = true ->
   error (extract s) = [] /\
   count (extract s) = length (filter retained entries)).
Proof.
  intros Hparse Hs. split.
  - destruct (extract_sortable _ Hparse Hs) as (sortedLogs & Hperm & E).
    pose proof (messages_of_permutation Hperm) as P.
    exists (messages_of sortedLogs). split; [exact P|].
    rewrite E.
    destruct (join Number_toString (messages_of sortedLogs) [NEWLINE]);
      [reflexivity|].
    rewrite (Permutation_length P), length_map. reflexivity.
  - intros Hm.
    destruct (@extract_regular_summary s entries) as (He & Hc & _); auto.
    apply forallb_forall. intros log Hl. unfold regular.
    rewrite forallb_forall in Hs, Hm. rewrite Hs, Hm by exact Hl.
    reflexivity.
Qed.

(** C10 (amended): [formatMessage] gives back unchanged any message that
    is not a string (on anything but an array its body throws and the
    exception is caught); and in an array of regular entries an entry whose
    message is truthy and not a string is retained with that message, and
    the run ends without an error. *)
Theorem extract_keeps_non_string_message s entries log :
  JSON_parse s = inr (VArray entries) ->
  forallb regular entries = true ->
  In log entries ->
  retained log = true ->
  is_string (message_field log) = false ->
  formatMessage (message_field log) = message_field log /\
  (match message_field log with
   | Some (VArray _) => True
   | m => exists t, formatMessage_body m = inl (TypeError t)
   end) /\
  error (extract s) = [] /\
  In (message_field log) (orderedMessages (extract s)).
Proof.
  intros Hparse Hreg Hin Hret Hstr.
  pose proof (formatMessage_not_string _ Hstr) as Hfm.
  split; [exact Hfm|]. split.
  { pose proof (formatMessage_body_throws (message_field log) Hstr) as Ht.
    destruct (message_field log) as [[ | | | | | ]|]; auto. }
  destruct (extract_regular_summary _ Hparse Hreg) as (Herr & _ & Hperm).
  split; [exact Herr|].
  eapply Permutation_in; [apply Permutation_sym; exact Hperm|].
  rewrite <- Hfm. apply in_map_iff. exists log. split; [reflexivity|].
  apply filter_In. split; assumption.
Qed.

(** C7: when the input parses as JSON and the value is not an array, the
    error is the text [Input JSON must be an array of log entries], there
    are no messages and the count is 0. *)
Theorem extract_rejects_non_array s v :
  JSON_parse s = inr v ->
  isArray v = false ->
  extract s =
    mkResult [] [] 0 (lit "Input JSON must be an array of log entries").
Proof.
  intros Hparse Harr. unfold extract.
  pose proof (parsed_not_blank _ Hparse) as Hnb.
  destruct (trim s) as [|c rest]; [congruence|].
  unfold extract_body. rewrite Hparse.
  destruct v; try discriminate; reflexivity.
Qed.

Lemma extract_white s :
  forallb is_white_space s = true -> extract s = mkResult [] [] 0 [].
Proof.
  intros H. apply trim_white in H. unfold extract. rewrite H. reflexivity.
Qed.

(** C8: on an input that is empty or consists of white space only there
    are no messages, the count is 0 and no error is set; the input is not
    parsed: [JSON.parse] would have thrown on it. *)
Theorem extract_blank s :
  forallb is_white_space s = true ->
  extract s = mkResult [] [] 0 [] /\
  exists e, JSON_parse s = inl e.
Proof.
  intros H. split; [apply extract_white; exact H|].
  apply JSON_parse_blank, trim_white. exact H.
Qed.

(** Exactly one of the two holds: [orderedMessages] is not empty, or
    [error] is set. *)
Definition exactly_one (r : ExtractionResult) : Prop :=
  (orderedMessages r <> [] /\ error r = []) \/
  (orderedMessages r = [] /\ error r <> []).

Lemma existsb_filter (A : Type) (f : A -> bool) (l : list A) :
  existsb f l = false <-> filter f l = [].
Proof.
  induction l as [|a l IH]; simpl; [tauto|].
  destruct (f a); simpl; [split; discriminate|exact IH].
Qed.

Lemma extract_throws s e :
  forallb is_white_space s = false ->
  JSON_parse s = inl e ->
  extract s = mkResult [] [] 0 (message_of e).
Proof.
  intros Hb He. unfold extract.
  destruct (trim s) as [|c rest] eqn:Et.
  - apply trim_nil in Et. congruence.
  - unfold extract_body. rewrite He. reflexivity.
Qed.

Lemma extract_not_array s v :
  JSON_parse s = inr v ->
  isArray v = false ->
  extract s =
    mkResult [] [] 0 (lit "Input JSON must be an array of log entries").
Proof.
  intros Hparse Harr. unfold extract.
  pose proof (parsed_not_blank _ Hparse) as Hnb.
  destruct (trim s) as [|c rest]; [congruence|].
  unfold extract_body. rewrite Hparse.
  destruct v; try discriminate; reflexivity.
Qed.

(** C2 (amended): after any run at most one of the two holds, a non-empty
    [orderedMessages] or a set [error], and [count] is the number of
    messages.  On a blank input neither holds.  Exactly one holds when
    [JSON.parse] throws with a message that is not empty (the error), when
    the input parses to a value that is not an array (the error), and when
    it parses to an array of regular entries of which one has a truthy
    message (the messages).  Neither holds when it parses to an array of
    regular entries of which none has a truthy message. *)
Theorem extract_at_most_one s :
  (orderedMessages (extract s) = [] \/ error (extract s) = []) /\
  count (extract s) = length (orderedMessages (extract s)) /\
  (forallb is_white_space s = true ->
   orderedMessages (extract s) = [] /\ error (extract s) = []) /\
  (forall e,
     forallb is_white_space s = false ->
     JSON_parse s = inl e -> message_of e <> [] ->
     orderedMessages (extract s) = [] /\ error (extract s) = message_of e /\
     exactly_one (extract s)) /\
  (forall v,
     JSON_parse s = inr v -> isArray v = false ->
     orderedMessages (extract s) = [] /\ error (extract s) <> [] /\
     exactly_one (extract s)) /\
  (forall entries,
     JSON_parse s = inr (VArray entries) ->
     forallb regular entries = true ->
     (existsb retained entries = true ->
      orderedMessages (extract s) <> [] /\ error (extract s) = [] /\
      exactly_one (extract s)) /\
     (existsb retained entries = false ->
      orderedMessages (extract s) = [] /\ error (extract s) = [] /\
      ~ exactly_one (extract s))).
Proof.
  split; [|split; [|split; [|split; [|split]]]].
  - unfold extract. destruct (trim s); [left; reflexivity|].
    destruct (extract_body s) as [e|[messages out]]; simpl; auto.
  - unfold extract. destruct (trim s); [reflexivity|].
    destruct (extract_body s) as [e|[messages out]]; reflexivity.
  - intros H. rewrite (extract_white _ H). split; reflexivity.
  - intros e Hb He Hm. rewrite (extract_throws _ Hb He). simpl.
    split; [reflexivity|]. split; [reflexivity|].
    right. split; [reflexivity|exact Hm].
  - intros v Hparse Harr. rewrite (extract_not_array _ Hparse Harr). simpl.
    split; [reflexivity|]. split; [discriminate|].
    right. split; [reflexivity|discriminate].
  - intros entries Hparse Hreg.
    destruct (extract_regular_summary _ Hparse Hreg) as (Herr & _ & Hperm).
    split.
    + intros Hex.
      assert (Hne : orderedMessages (extract s) <> []).
      { intros Hnil. rewrite Hnil in Hperm.
        apply Permutation_nil in Hperm. apply map_eq_nil in Hperm.
        apply existsb_filter in Hperm. congruence. }
      split; [exact Hne|]. split; [exact Herr|].
      left. split; assumption.
    + intros Hex. apply existsb_filter in Hex. rewrite Hex in Hperm.
      apply Permutation_sym, Permutation_nil in Hperm.
      split; [exact Hperm|]. split; [exact Herr|].
      unfold exactly_one. intros [[H _]|[_ H]]; contradiction.
Qed.

Lemma formatMessage_string_eq s :
  formatMessage (Some (VString s)) =
  match indexOf LBRACE s, lastIndexOf RBRACE s with
  | Some i, Some j =>
      if Nat.ltb i j then
        match JSON_parse (substring s i (j + 1)) with
        | inr parsed =>
            Some (VString (substring s 0 i ++ JSON_stringify parsed 2
                           ++ substring_from s (j + 1)))
        | inl _ => Some (VString s)
        end
      else Some (VString s)
  | _, _ => Some (VString s)
  end.
Proof.
  unfold formatMessage, formatMessage_body. simpl.
  destruct (indexOf LBRACE s) as [i|]; [|reflexivity].
  destruct (lastIndexOf RBRACE s) as [j|]; [|reflexivity].
  simpl. destruct (Nat.ltb i j); [|reflexivity].
  simpl. unfold reformat.
  destruct (JSON_parse (substring s i (j + 1))); reflexivity.
Qed.

(** The indices and the substrings of a message with a span between its
    first opening and its last closing brace. *)
Lemma brace_span pre mid suf :
  ~ In LBRACE pre -> ~ In RBRACE suf ->
  let s := pre ++ LBRACE :: mid ++ RBRACE :: suf in
  let i := length pre in
  let j := length pre + S (length mid) in
  indexOf LBRACE s = Some i /\
  lastIndexOf RBRACE s = Some j /\
  Nat.ltb i j = true /\
  substring s i (j + 1) = LBRACE :: mid ++ [RBRACE] /\
  substring s 0 i = pre /\
  substring_from s (j + 1) = suf.
Proof.
  intros Hpre Hsuf s i j. subst s i j. repeat split.
  - apply indexOf_first. exact Hpre.
  - replace (pre ++ LBRACE :: mid ++ RBRACE :: suf)
      with ((pre ++ LBRACE :: mid) ++ RBRACE :: suf)
      by (rewrite <- app_assoc; reflexivity).
    replace (length pre + S (length mid))
      with (length (pre ++ LBRACE :: mid))
      by (rewrite length_app; reflexivity).
    apply lastIndexOf_last. exact Hsuf.
  - apply Nat.ltb_lt. lia.
  - replace (pre ++ LBRACE :: mid ++ RBRACE :: suf)
      with (pre ++ (LBRACE :: mid ++ [RBRACE]) ++ suf)
      by (simpl; rewrite <- app_assoc; reflexivity).
    replace (length pre + S (length mid) + 1)
      with (length pre + length (LBRACE :: mid ++ [RBRACE]))
      by (simpl; rewrite length_app; simpl; lia).
    apply substring_middle.
  - apply substring_prefix.
  - replace (pre ++ LBRACE :: mid ++ RBRACE :: suf)
      with ((pre ++ LBRACE :: mid ++ [RBRACE]) ++ suf)
      by (rewrite <- !app_assoc; simpl; rewrite <- app_assoc; reflexivity).
    replace (length pre + S (length mid) + 1)
      with (length (pre ++ LBRACE :: mid ++ [RBRACE]))
      by (rewrite length_app; simpl; rewrite length_app; simpl; lia).
    apply substring_from_suffix.
Qed.

(** C4: when the message has a first opening brace and a later last
    closing brace, and the text from the one to the other parses as JSON,
    [formatMessage] replaces that text by the serialisation of the parsed
    value with a gap of two spaces for each level of nesting, starting
    without indentation, and keeps what stands before and after it; when
    that text does not parse, and when there is no such span, it returns the
    message unchanged. *)
Theorem formatMessage_spec message :
  (forall pre mid suf parsed,
     message = pre ++ LBRACE :: mid ++ RBRACE :: suf ->
     ~ In LBRACE pre -> ~ In RBRACE suf ->
     JSON_parse (LBRACE :: mid ++ [RBRACE]) = inr parsed ->
     formatMessage (Some (VString message)) =
     Some (VString
             (pre ++ serialize Number_toString (lit "  ") [] parsed ++ suf))) /\
  (forall pre mid suf e,
     message = pre ++ LBRACE :: mid ++ RBRACE :: suf ->
     ~ In LBRACE pre -> ~ In RBRACE suf ->
     JSON_parse (LBRACE :: mid ++ [RBRACE]) = inl e ->
     formatMessage (Some (VString message)) = Some (VString message)) /\
  ((forall pre mid suf,
      message <> pre ++ LBRACE :: mid ++ RBRACE :: suf) ->
   formatMessage (Some (VString message)) = Some (VString message)).
Proof.
  split; [|split].
  - intros pre mid suf parsed -> Hpre Hsuf Hparse.
    destruct (@brace_span pre mid suf Hpre Hsuf)
      as (Hi & Hj & Hlt & Hs & Hp & Hf).
    rewrite formatMessage_string_eq, Hi, Hj, Hlt, Hs, Hparse, Hp, Hf.
    rewrite JSON_stringify_spec. reflexivity.
  - intros pre mid suf e -> Hpre Hsuf Hparse.
    destruct (@brace_span pre mid suf Hpre Hsuf)
      as (Hi & Hj & Hlt & Hs & Hp & Hf).
    rewrite formatMessage_string_eq, Hi, Hj, Hlt, Hs, Hparse.
    reflexivity.
  - intros Hnone. rewrite formatMessage_string_eq.
    destruct (indexOf LBRACE message) as [i|] eqn:Ei; [|reflexivity].
    destruct (lastIndexOf RBRACE message) as [j|] eqn:Ej; [|reflexivity].
    destruct (Nat.ltb_spec i j) as [Hlt|Hge]; [|reflexivity].
    exfalso.
    destruct (indexOf_Some _ _ Ei) as (pre1 & suf1 & E1 & _ & L1).
    destruct (lastIndexOf_Some _ _ Ej) as (pre2 & suf2 & E2 & _ & L2).
    destruct (@split_between LBRACE RBRACE pre1 suf1 pre2 suf2)
      as (mid & Hs & _); [congruence|lia|].
    apply (Hnone pre1 mid suf2). rewrite E1, Hs. reflexivity.
Qed.

End WithRuntime.

End ExtractionFacts.

(** ** Runs on the reference engine *)

Module Runs.
Import ExtractionFacts.

#[local] Existing Instance Reference.runtime.

(** The entries of an input that is a JSON array. *)
Definition entries_of (input : jsstring) : list value :=
  match Reference.JSON_parse input with
  | inr (VArray entries) => entries
  | _ => []
  end.

Definition text (s : string) : option value := Some (VString (lit s)).

(** Two entries out of order, from the specification. *)
Definition out_of_order : jsstring :=
  js "[{'timestamp':'2020-01-02T00:00:00Z','jsonPayload':{'message':'second'}},
       {'timestamp':'2020-01-01T00:00:00Z','jsonPayload':{'message':'first'}}]".

(** The same with an entry without timestamp and message between them. *)
Definition with_undated_entry : jsstring :=
  js "[{'timestamp':'2020-01-02T00:00:00Z','jsonPayload':{'message':'second'}},
       {'jsonPayload':{}},
       {'timestamp':'2020-01-01T00:00:00Z','jsonPayload':{'message':'first'}}]".

Definition without_message : jsstring :=
  js "[{'timestamp':'2020-01-01T00:00:00Z','jsonPayload':{}}]".

Definition number_message : jsstring :=
  js "[{'timestamp':'2020-01-01T00:00:00Z','jsonPayload':{'message':42}}]".

Definition hidden_toString : jsstring :=
  js "[{'timestamp':'2020-01-01T00:00:00Z','jsonPayload':{'message':{'toString':1}}}]".

Definition embedded : jsstring := js "prefix {'a':1,'b':[1,2]} suffix".

Lemma extract_sorted_stable_witness :
  exists kept,
    Permutation kept (filter retained (entries_of out_of_order)) /\
    StronglySorted (fun a b => (instant a <= instant b)%Z) kept /\
    (forall t,
       filter (fun log => Z.eqb (instant log) t) kept =
       filter (fun log => Z.eqb (instant log) t)
              (filter retained (entries_of out_of_order))) /\
    match join Number_toString
            (map (fun log => formatMessage (message_field log)) kept)
            [NEWLINE] with
    | inr out =>
        extract out_of_order =
        mkResult (map (fun log => formatMessage (message_field log)) kept)
                 out (length kept) []
    | inl e => extract out_of_order = mkResult [] [] 0 (message_of e)
    end.
Proof.
  apply (@extract_sorted_stable Reference.runtime out_of_order
           (entries_of out_of_order)); vm_compute; reflexivity.
Defined.

(** On that input the message of the older entry comes first. *)
Example extract_out_of_order :
  orderedMessages (extract out_of_order) = [text "first"; text "second"].
Proof. vm_compute. reflexivity. Qed.

(** C3, as stated, fails: an entry without a timestamp stands between two
    dated entries; the comparator answers NaN whenever it meets that entry,
    the array stays as it is, and the message of the later entry comes out
    before the message of the earlier one. *)
Lemma extract_not_sorted_with_undated_entry :
  orderedMessages (extract with_undated_entry)
    = [text "second"; text "first"] /\
  map instant (filter retained (entries_of with_undated_entry))
    = [1577923200000; 1577836800000]%Z /\
  map valid_instant (entries_of with_undated_entry) = [true; false; true].
Proof. vm_compute. repeat split. Qed.

Lemma extract_drops_entries_without_message_witness :
  (exists messages,
     Permutation messages
       (map (fun log => formatMessage (message_field log))
            (filter retained (entries_of without_message))) /\
     match join Number_toString messages [NEWLINE] with
     | inr out =>
         extract without_message =
         mkResult messages out
           (length (filter retained (entries_of without_message))) []
     | inl e => extract without_message = mkResult [] [] 0 (message_of e)
     end) /\
  error (extract without_message) = [] /\
  count (extract without_message) =
    length (filter retained (entries_of without_message)).
Proof.
  destruct (@extract_drops_entries_without_message Reference.runtime
              without_message (entries_of without_message))
    as [H1 H2]; [vm_compute; reflexivity..|].
  split; [exact H1|]. apply H2. vm_compute. reflexivity.
Defined.

(** The field-filtering example of the specification. *)
Example extract_without_message :
  extract without_message = mkResult [] [] 0 [].
Proof. vm_compute. reflexivity. Qed.

(** C6, as stated, fails: a [null] entry has no [jsonPayload.message], and
    reading [jsonPayload] from it throws; the run ends in the [catch] block
    with the error set. *)
Lemma extract_null_entry_sets_error :
  entries_of (js "[null]") = [VNull] /\
  retained VNull = false /\
  extract (js "[null]") =
    mkResult [] [] 0
      (lit "Cannot read properties of null (reading 'jsonPayload')").
Proof. vm_compute. repeat split. Qed.

Lemma extract_keeps_non_string_message_witness :
  formatMessage (Some (VNumber (S754_finite false 5910974510923776 (-47))))
    = Some (VNumber (S754_finite false 5910974510923776 (-47))) /\
  (exists t,
     formatMessage_body
       (Some (VNumber (S754_finite false 5910974510923776 (-47))))
     = inl (TypeError t)) /\
  error (extract number_message) = [] /\
  In (Some (VNumber (S754_finite false 5910974510923776 (-47))))
     (orderedMessages (extract number_message)).
Proof.
  apply (@extract_keeps_non_string_message Reference.runtime number_message
           (entries_of number_message)
           (hd VNull (entries_of number_message)));
    vm_compute; auto.
Defined.

(** The number 42 is joined into the output as its decimal text. *)
Example extract_number_message :
  outputMessages (extract number_message) = lit "42" /\
  count (extract number_message) = 1.
Proof. vm_compute. split; reflexivity. Qed.

(** The same object as the timestamp of one of two entries makes the
    comparator throw. *)
Example extract_hidden_toString_timestamp :
  extract
    (js "[{'timestamp':{'toString':1}},{'timestamp':'2020-01-01T00:00:00Z'}]")
  = mkResult [] [] 0 (lit "Cannot convert object to primitive value").
Proof. vm_compute. reflexivity. Qed.

(** C10, as stated, fails: the message is an object with an own property
    [toString]; it is truthy and not a string, [formatMessage] returns it,
    and joining the messages throws on it, so that the run ends with the
    error set and no message. *)
Lemma extract_hidden_toString_sets_error :
  map retained (entries_of hidden_toString) = [true] /\
  map (fun log => is_string (message_field log)) (entries_of hidden_toString)
    = [false] /\
  extract hidden_toString =
    mkResult [] [] 0 (lit "Cannot convert object to primitive value").
Proof. vm_compute. repeat split. Qed.

Lemma extract_rejects_non_array_witness :
  extract (js "{'a':1}") =
    mkResult [] [] 0 (lit "Input JSON must be an array of log entries").
Proof.
  apply (@extract_rejects_non_array Reference.runtime (js "{'a':1}")
           (VObject [(lit "a",
                      VNumber (S754_finite false 4503599627370496 (-52)))]));
    vm_compute; reflexivity.
Defined.

Lemma extract_blank_witness :
  extract (lit "   ") = mkResult [] [] 0 [] /\
  exists e, Reference.JSON_parse (lit "   ") = inl e.
Proof.
  apply (@extract_blank Reference.runtime (lit "   ")). reflexivity.
Defined.

Lemma extract_at_most_one_witness :
  (orderedMessages (extract (lit "   ")) = [] /\
   error (extract (lit "   ")) = []) /\
  exactly_one (extract (js "[{")) /\
  exactly_one (extract (js "{'a':1}")) /\
  exactly_one (extract out_of_order) /\
  ~ exactly_one (extract without_message).
Proof.
  split; [|split; [|split; [|split]]].
  - destruct (@extract_at_most_one Reference.runtime (lit "   "))
      as (_ & _ & H & _).
    apply H. reflexivity.
  - destruct (@extract_at_most_one Reference.runtime (js "[{"))
      as (_ & _ & _ & H & _).
    apply (H (SyntaxError (lit "Unexpected end of JSON input")));
      vm_compute; [reflexivity|reflexivity|discriminate].
  - destruct (@extract_at_most_one Reference.runtime (js "{'a':1}"))
      as (_ & _ & _ & _ & H & _).
    apply (H (VObject
                [(lit "a",
                  VNumber (S754_finite false 4503599627370496 (-52)))]));
      vm_compute; reflexivity.
  - destruct (@extract_at_most_one Reference.runtime out_of_order)
      as (_ & _ & _ & _ & _ & H).
    destruct (H (entries_of out_of_order)) as [H1 _];
      [vm_compute; reflexivity..|].
    apply H1. vm_compute. reflexivity.
  - destruct (@extract_at_most_one Reference.runtime without_message)
      as (_ & _ & _ & _ & _ & H).
    destruct (H (entries_of without_message)) as [_ H2];
      [vm_compute; reflexivity..|].
    apply H2. vm_compute. reflexivity.
Defined.

(** C2, as stated, fails: the empty array is not blank, and the run on it
    ends with no message and no error. *)
Lemma extract_empty_array_neither :
  forallb is_white_space (js "[]") = false /\
  extract (js "[]") = mkResult [] [] 0 [] /\
  ~ exactly_one (extract (js "[]")).
Proof.
  split; [reflexivity|]. split; [vm_compute; reflexivity|].
  unfold exactly_one. intros [[H _]|[_ H]]; apply H; vm_compute; reflexivity.
Qed.

Lemma formatMessage_spec_witness :
  formatMessage (Some (VString embedded)) =
  Some (VString
          (lit "prefix {" ++ [NEWLINE]
           ++ js "  'a': 1," ++ [NEWLINE]
           ++ js "  'b': [" ++ [NEWLINE]
           ++ lit "    1," ++ [NEWLINE]
           ++ lit "    2" ++ [NEWLINE]
           ++ lit "  ]" ++ [NEWLINE]
           ++ lit "} suffix")).
Proof.
  refine (eq_trans
            (proj1 (@formatMessage_spec Reference.runtime embedded)
               (lit "prefix ") (js "'a':1,'b':[1,2]") (lit " suffix")
               (VObject
                  [(lit "a",
                    VNumber (S754_finite false 4503599627370496 (-52)));
                   (lit "b",
                    VArray
                      [VNumber (S754_finite false 4503599627370496 (-52));
                       VNumber (S754_finite false 4503599627370496 (-51))])])
               _ _ _ _) _).
  - reflexivity.
  - vm_compute. intuition discriminate.
  - vm_compute. intuition discriminate.
  - vm_compute. reflexivity.
  - vm_compute. reflexivity.
Defined.

(** Without a gap the serialisation stands on one line. *)
Example JSON_stringify_compact :
  Reference.JSON_stringify
    (VObject
       [(lit "a", VNumber (S754_finite false 4503599627370496 (-52)));
        (lit "b",
         VArray
           [VNumber (S754_finite false 4503599627370496 (-52));
            VNumber (S754_finite false 4503599627370496 (-51))])]) 0
  = js "{'a':1,'b':[1,2]}".
Proof. vm_compute. reflexivity. Qed.

(** The pretty-printing examples of the specification. *)
Example formatMessage_embedded :
  formatMessage (Some (VString embedded)) =
  Some (VString
          (lit "prefix {" ++ [NEWLINE]
           ++ js "  'a': 1," ++ [NEWLINE]
           ++ js "  'b': [" ++ [NEWLINE]
           ++ lit "    1," ++ [NEWLINE]
           ++ lit "    2" ++ [NEWLINE]
           ++ lit "  ]" ++ [NEWLINE]
           ++ lit "} suffix")).
Proof. vm_compute. reflexivity. Qed.

Example formatMessage_no_braces :
  formatMessage (text "no braces here") = text "no braces here".
Proof. vm_compute. reflexivity. Qed.

Example formatMessage_invalid_json :
  formatMessage (text "{not valid json}") = text "{not valid json}".
Proof. vm_compute. reflexivity. Qed.

Example extract_malformed :
  extract (js "[{") = mkResult [] [] 0 (lit "Unexpected end of JSON input").
Proof. vm_compute. reflexivity. Qed.

End Runs.

(** ** The shape of a match *)

Module MatchFacts.
Import RegExpFacts.

Lemma get_capture_clear n gs x :
  ~ In n gs -> get_capture n (clear_captures gs x) = get_capture n x.
Proof.
  intros Hn. unfold get_capture, clear_captures. simpl.
  induction (captures x) as [|[k v] l IH]; simpl; [reflexivity|].
  destruct (existsb (Nat.eqb k) gs) eqn:E; simpl.
  - destruct (Nat.eqb_spec k n) as [->|Hk]; [|exact IH].
    apply existsb_exists in E. destruct E as (m & Hm & Em).
    apply Nat.eqb_eq in Em. subst m. contradiction.
  - destruct (Nat.eqb k n); [reflexivity|exact IH].
Qed.

Lemma get_capture_set_other n k from y :
  n <> k -> get_capture n (set_capture k from y) = get_capture n y.
Proof.
  intros Hn. unfold get_capture, set_capture. simpl.
  destruct (Nat.eqb_spec k n) as [->|_]; [congruence|].
  induction (captures y) as [|[j v] l IH]; simpl; [reflexivity|].
  destruct (Nat.eqb_spec j k) as [->|Hj]; simpl.
  - destruct (Nat.eqb_spec k n) as [->|_]; [congruence|exact IH].
  - destruct (Nat.eqb j n); [reflexivity|exact IH].
Qed.

Lemma get_capture_set_same k from y :
  get_capture k (set_capture k from y) = Some (from, endIndex y).
Proof. unfold get_capture, set_capture. simpl. rewrite Nat.eqb_refl. reflexivity. Qed.

Lemma slice_app (t : jsstring) : forall a b c,
  a <= b -> b <= c -> slice t a b ++ slice t b c = slice t a c.
Proof.
  induction t as [|u t IH]; intros a b c Hab Hbc.
  - unfold slice. rewrite !skipn_nil, !firstn_nil. reflexivity.
  - destruct a as [|a].
    + unfold slice at 1 3. simpl skipn. rewrite !Nat.sub_0_r.
      apply (HighlighterFacts.firstn_slice (u :: t)). exact Hbc.
    + destruct b as [|b]; [lia|]. destruct c as [|c]; [lia|].
      apply (IH a b c); lia.
Qed.

Section Shape.

Variable input : jsstring.

(** A relation between the state before and the state after a match
    carries over from the body of a quantifier to the quantifier when it is
    reflexive and transitive and does not look at the captures that the
    quantifier resets. *)
Section Relation.

Variable Rel : state -> state -> Prop.
Hypothesis Rel_refl : forall x, Rel x x.
Hypothesis Rel_trans : forall x y z, Rel x y -> Rel y z -> Rel x z.

Section Quantifier.

Variables (m : state -> list state) (gs : list nat).
Hypothesis Rel_clear : forall x y, Rel (clear_captures gs x) y -> Rel x y.
Hypothesis m_Rel : forall x y, In y (m x) -> Rel x y.

Lemma repeat_greedy_Rel fuel : forall max x y,
  In y (repeat_greedy m gs fuel max x) -> Rel x y.
Proof.
  induction fuel as [|fuel IH]; intros max x y Hy.
  - assert (y = x) as ->; [|apply Rel_refl].
    destruct max as [[|n]|]; simpl in Hy; intuition.
  - rewrite repeat_greedy_S in Hy.
    assert (Hstep :
      In y (flat_map
              (fun y0 => if Nat.eqb (endIndex y0) (endIndex x) then []
                         else repeat_greedy m gs fuel (pred_max max) y0)
              (m (clear_captures gs x)) ++ [x]) -> Rel x y).
    { intros H. apply in_app_or in H. destruct H as [H|[<-|[]]].
      - apply in_flat_map in H. destruct H as (y0 & Hy0 & H).
        destruct (Nat.eqb (endIndex y0) (endIndex x)); [destruct H|].
        apply Rel_trans with y0; [|eapply IH; eauto].
        apply Rel_clear. auto.
      - apply Rel_refl. }
    destruct max as [[|n]|]; auto.
    destruct Hy as [<-|[]]. apply Rel_refl.
Qed.

Lemma repeat_matcher_Rel min : forall max x y,
  In y (repeat_matcher input m gs min max x) -> Rel x y.
Proof.
  induction min as [|min IH]; intros max x y Hy.
  - destruct max as [[|n]|]; simpl in Hy.
    + destruct Hy as [<-|[]]. apply Rel_refl.
    + eapply repeat_greedy_Rel; eauto.
    + eapply repeat_greedy_Rel; eauto.
  - assert (Hstep :
      In y (flat_map (repeat_matcher input m gs min (pred_max max))
                     (m (clear_captures gs x))) -> Rel x y).
    { intros H. apply in_flat_map in H. destruct H as (y0 & Hy0 & H).
      apply Rel_trans with y0; [|eapply IH; eauto].
      apply Rel_clear. auto. }
    destruct max as [[|n]|]; simpl in Hy; auto.
    destruct Hy as [<-|[]]. apply Rel_refl.
Qed.

End Quantifier.

End Relation.

(** Every unit between the two indices satisfies [P]. *)
Definition span (P : codeunit -> Prop) (x y : state) : Prop :=
  forall j, endIndex x <= j < endIndex y ->
  exists c, nth_error input j = Some c /\ P c.

(** The pattern consumes only units that satisfy [P]. *)
Fixpoint units_in (P : codeunit -> Prop) (r : regex) : Prop :=
  match r with
  | Empty | WordBoundary => True
  | Char c => P c
  | Class neg rs => neg = false /\ forall c, in_ranges rs c = true -> P c
  | Seq r1 r2 | Alt r1 r2 => units_in P r1 /\ units_in P r2
  | Repeat r' _ _ | Group _ r' => units_in P r'
  end.

Lemma matches_span P r : units_in P r ->
  forall x y, In y (matches input r x) -> span P x y.
Proof.
  induction r as [|c|neg rs| |r1 IH1 r2 IH2|r1 IH1 r2 IH2|r IH min max|n r IH];
    simpl; intros Hu x y Hy.
  - destruct Hy as [<-|[]]. intros j Hj. lia.
  - destruct (nth_error input (endIndex x)) as [a|] eqn:E; [|destruct Hy].
    destruct (codeunit_eqb a c) eqn:Ea; [|destruct Hy].
    destruct Hy as [<-|[]]. intros j Hj. simpl in Hj.
    replace j with (endIndex x) by lia. exists a. split; [exact E|].
    apply N.eqb_eq in Ea. subst a. exact Hu.
  - destruct Hu as [-> Hu].
    destruct (nth_error input (endIndex x)) as [a|] eqn:E; [|destruct Hy].
    simpl in Hy. destruct (in_ranges rs a) eqn:Ea; [|destruct Hy].
    destruct Hy as [<-|[]]. intros j Hj. simpl in Hj.
    replace j with (endIndex x) by lia. exists a. split; [exact E|auto].
  - destruct (at_word_boundary input (endIndex x)); [|destruct Hy].
    destruct Hy as [<-|[]]. intros j Hj. lia.
  - destruct Hu as [Hu1 Hu2].
    apply in_flat_map in Hy. destruct Hy as (z & Hz & Hy).
    pose proof (matches_forward _ _ _ _ Hz) as F1.
    specialize (IH1 Hu1 _ _ Hz). specialize (IH2 Hu2 _ _ Hy).
    intros j Hj. destruct (Nat.lt_ge_cases j (endIndex z)).
    + apply IH1. lia.
    + apply IH2. lia.
  - destruct Hu as [Hu1 Hu2]. apply in_app_or in Hy. destruct Hy; auto.
  - assert (H : forward input x y /\ span P x y); [|apply H].
    pose proof (@repeat_matcher_Rel
                  (fun x y => forward input x y /\ span P x y)) as L.
    eapply L; [| | | |exact Hy].
    + intros z. split; [apply forward_refl|]. intros j Hj. lia.
    + intros a b c [F1 S1] [F2 S2].
      split; [eapply forward_trans; eauto|].
      intros j Hj. unfold forward in F1, F2.
      destruct (Nat.lt_ge_cases j (endIndex b));
        [apply S1|apply S2]; lia.
    + intros a b [F1 S1]. split; [eapply forward_clear; eauto|].
      exact S1.
    + intros a b Hb. split; [eapply matches_forward; eauto|].
      apply IH; auto.
  - apply in_map_iff in Hy. destruct Hy as (z & <- & Hz).
    specialize (IH Hu _ _ Hz). intros j Hj. apply IH. exact Hj.
Qed.

(** A match leaves alone the captures of the groups that are not in the
    pattern. *)
Lemma matches_capture n r : ~ In n (groups r) ->
  forall x y, In y (matches input r x) -> get_capture n y = get_capture n x.
Proof.
  induction r as [|c|neg rs| |r1 IH1 r2 IH2|r1 IH1 r2 IH2|r IH min max|k r IH];
    simpl; intros Hn x y Hy.
  - destruct Hy as [<-|[]]. reflexivity.
  - destruct (nth_error input (endIndex x)) as [a|]; [|destruct Hy].
    destruct (codeunit_eqb a c); [|destruct Hy].
    destruct Hy as [<-|[]]. reflexivity.
  - destruct (nth_error input (endIndex x)) as [a|]; [|destruct Hy].
    destruct (xorb neg (in_ranges rs a)); [|destruct Hy].
    destruct Hy as [<-|[]]. reflexivity.
  - destruct (at_word_boundary input (endIndex x)); [|destruct Hy].
    destruct Hy as [<-|[]]. reflexivity.
  - apply in_flat_map in Hy. destruct Hy as (z & Hz & Hy).
    rewrite (IH2 (fun H => Hn (in_or_app _ _ _ (or_intror H))) _ _ Hy).
    apply (IH1 (fun H => Hn (in_or_app _ _ _ (or_introl H))) _ _ Hz).
  - apply in_app_or in Hy. destruct Hy as [Hy|Hy].
    + apply (IH1 (fun H => Hn (in_or_app _ _ _ (or_introl H))) _ _ Hy).
    + apply (IH2 (fun H => Hn (in_or_app _ _ _ (or_intror H))) _ _ Hy).
  - pose proof (@repeat_matcher_Rel
                  (fun x y => get_capture n y = get_capture n x)) as L.
    eapply L; [| | | |exact Hy].
    + reflexivity.
    + intros a b c H1 H2. congruence.
    + intros a b H. rewrite H. apply get_capture_clear. exact Hn.
    + intros a b Hb. apply IH; auto.
  - apply in_map_iff in Hy. destruct Hy as (z & <- & Hz).
    rewrite get_capture_set_other
      by (intros E; apply Hn; left; congruence).
    apply IH; [tauto|exact Hz].
Qed.

Lemma matches_Char_inv c x y :
  In y (matches input (Char c) x) ->
  nth_error input (endIndex x) = Some c /\
  y = mkState (S (endIndex x)) (captures x).
Proof.
  simpl. destruct (nth_error input (endIndex x)) as [a|]; [|intros []].
  destruct (codeunit_eqb a c) eqn:E; [|intros []].
  apply N.eqb_eq in E. subst a. intros [<-|[]]. split; reflexivity.
Qed.

(** A literal matches exactly its text. *)
Lemma matches_Lit_inv s : s <> [] -> forall x y,
  In y (matches input (Lit s) x) ->
  slice input (endIndex x) (endIndex y) = s /\
  endIndex y = endIndex x + length s /\
  captures y = captures x.
Proof.
  induction s as [|c s IH]; [congruence|]. intros _ x y Hy.
  assert (Hone : forall z, In z (matches input (Char c) x) ->
            slice input (endIndex x) (endIndex z) = [c] /\
            endIndex z = endIndex x + 1 /\ captures z = captures x).
  { intros z Hz. apply matches_Char_inv in Hz. destruct Hz as [E ->].
    simpl. split; [|split; [lia|reflexivity]].
    unfold slice. replace (S (endIndex x) - endIndex x) with 1 by lia.
    clear -E. revert E. generalize (endIndex x) as i.
    induction input as [|a l IHl]; intros [|i] E; simpl in *;
      try discriminate.
    - inversion E; reflexivity.
    - apply IHl. exact E. }
  destruct s as [|d s]; [apply Hone; exact Hy|].
  change (In y (flat_map (matches input (Lit (d :: s)))
                         (matches input (Char c) x))) in Hy.
  apply in_flat_map in Hy. destruct Hy as (z & Hz & Hy).
  destruct (Hone z Hz) as (S1 & E1 & C1).
  destruct (IH ltac:(discriminate) z y Hy) as (S2 & E2 & C2).
  split; [|split].
  - rewrite <- (@slice_app input (endIndex x) (endIndex z) (endIndex y))
      by lia.
    rewrite S1, S2. reflexivity.
  - simpl length in *. lia.
  - congruence.
Qed.

End Shape.

End MatchFacts.

(** ** The lexemes of the highlighter *)

Module LexemeFacts.
Import Highlighter RegExpFacts HighlighterFacts MatchFacts.

(** The units of a number lexeme: digits, signs, the dot and the letters of
    the exponent. *)
Definition number_unit (c : codeunit) : Prop :=
  in_ranges [(48, 57); (43, 43); (45, 46); (69, 69); (101, 101)]%N c = true.

Definition is_keyword (tok : jsstring) : Prop :=
  tok = lit "true" \/ tok = lit "false" \/ tok = lit "null".

Section Lexemes.

Variable input : jsstring.

Lemma slice_one i c :
  nth_error input i = Some c -> slice input i (S i) = [c].
Proof.
  unfold slice. replace (S i - i) with 1 by lia. revert i.
  induction input as [|a l IH]; intros [|i] E; simpl in *; try discriminate.
  - inversion E; reflexivity.
  - apply IH. exact E.
Qed.

Lemma slice_ends i e a b :
  i + 2 <= e ->
  nth_error input i = Some a -> nth_error input (e - 1) = Some b ->
  exists body, slice input i e = a :: body ++ [b].
Proof.
  intros H Ha Hb. destruct e as [|k]; [lia|].
  replace (S k - 1) with k in Hb by lia.
  exists (slice input (S i) k).
  rewrite <- (@slice_app input i (S i) (S k)) by lia.
  rewrite <- (@slice_app input (S i) k (S k)) by lia.
  rewrite (slice_one _ Ha), (slice_one _ Hb). reflexivity.
Qed.

Lemma slice_In i e c :
  In c (slice input i e) ->
  exists j, i <= j < e /\ nth_error input j = Some c.
Proof.
  unfold slice. intros H. apply In_nth_error in H. destruct H as [k Hk].
  assert (Hlt : k < e - i).
  { assert (k < length (firstn (e - i) (skipn i input)))
      by (apply nth_error_Some; congruence).
    rewrite length_firstn in H. lia. }
  rewrite nth_error_firstn in Hk.
  destruct (Nat.ltb_spec k (e - i)); [|lia].
  rewrite nth_error_skipn in Hk. exists (i + k). split; [lia|exact Hk].
Qed.

Lemma slice_Forall (P : codeunit -> Prop) i e :
  (forall j, i <= j < e -> exists c, nth_error input j = Some c /\ P c) ->
  Forall P (slice input i e).
Proof.
  intros H. apply Forall_forall. intros c Hc.
  apply slice_In in Hc. destruct Hc as (j & Hj & Ej).
  destruct (H j Hj) as (c' & Ec & Pc). congruence.
Qed.

(** A string lexeme starts with a double quote; it ends with its closing
    quote and leaves the third group unset, or it ends with a colon that the
    third group has captured. *)
Lemma string_lexeme_shape x y :
  In y (matches input string_lexeme x) ->
  get_capture 3 x = None ->
  nth_error input (endIndex x) = Some QUOTE /\
  endIndex x + 2 <= endIndex y /\
  ((get_capture 3 y = None /\
    nth_error input (endIndex y - 1) = Some QUOTE) \/
   (exists a, get_capture 3 y = Some (a, endIndex y) /\ a < endIndex y /\
              nth_error input (endIndex y - 1) = Some (ch ":"))).
Proof.
  intros Hy Hx. unfold string_lexeme in Hy.
  change (In y (flat_map
                  (matches input
                     (Seq (Star string_char)
                        (Seq (Char QUOTE)
                           (Opt (Group 3
                                   (Seq (Star (Class false white_space_ranges))
                                        (Char (ch ":"))))))))
                  (matches input (Char QUOTE) x))) in Hy.
  apply in_flat_map in Hy. destruct Hy as (z1 & Hz1 & Hy).
  apply matches_Char_inv in Hz1. destruct Hz1 as [E1 ->].
  change (In y (flat_map
                  (matches input
                     (Seq (Char QUOTE)
                        (Opt (Group 3
                                (Seq (Star (Class false white_space_ranges))
                                     (Char (ch ":")))))))
                  (matches input (Star string_char)
                     (mkState (S (endIndex x)) (captures x))))) in Hy.
  apply in_flat_map in Hy. destruct Hy as (z2 & Hz2 & Hy).
  pose proof (matches_forward _ _ _ _ Hz2) as F2.
  assert (C2 : get_capture 3 z2 = None).
  { rewrite (@matches_capture input 3 (Star string_char)) with (x := mkState (S (endIndex x)) (captures x)) (y := z2).
    - exact Hx.
    - simpl. intros [H|[]]. discriminate.
    - exact Hz2. }
  change (In y (flat_map
                  (matches input
                     (Opt (Group 3
                             (Seq (Star (Class false white_space_ranges))
                                  (Char (ch ":"))))))
                  (matches input (Char QUOTE) z2))) in Hy.
  apply in_flat_map in Hy. destruct Hy as (z3 & Hz3 & Hy).
  apply matches_Char_inv in Hz3. destruct Hz3 as [E3 ->].
  unfold forward in F2. simpl in F2.
  set (z3 := mkState (S (endIndex z2)) (captures z2)) in *.
  set (G := Group 3 (Seq (Star (Class false white_space_ranges))
                         (Char (ch ":")))) in *.
  change (In y (repeat_matcher input (matches input G) (groups G)
                  0 (Some 1) z3)) in Hy.
  rewrite repeat_matcher_unfold in Hy
    by (intros; eapply matches_forward; eauto).
  split; [exact E1|].
  apply in_app_or in Hy. destruct Hy as [Hy|[<-|[]]].
  - apply in_flat_map in Hy. destruct Hy as (y0 & Hy0 & Hy).
    destruct (Nat.eqb (endIndex y0) (endIndex z3)); [destruct Hy|].
    simpl in Hy. destruct Hy as [<-|[]].
    unfold G in Hy0.
    change (In y0 (map (set_capture 3 (endIndex (clear_captures (groups G) z3)))
                     (matches input
                        (Seq (Star (Class false white_space_ranges))
                             (Char (ch ":")))
                        (clear_captures (groups G) z3)))) in Hy0.
    apply in_map_iff in Hy0. destruct Hy0 as (w & <- & Hw).
    change (In w (flat_map (matches input (Char (ch ":")))
                    (matches input (Star (Class false white_space_ranges))
                       (clear_captures (groups G) z3)))) in Hw.
    apply in_flat_map in Hw. destruct Hw as (z4 & Hz4 & Hw).
    pose proof (matches_forward _ _ _ _ Hz4) as F4.
    apply matches_Char_inv in Hw. destruct Hw as [E4 ->].
    unfold forward in F4. simpl in F4. simpl.
    split; [lia|]. right. exists (S (endIndex z2)).
    split; [apply get_capture_set_same|]. split; [lia|].
    rewrite Nat.sub_0_r. exact E4.
  - simpl. split; [lia|]. left. split; [exact C2|].
    rewrite Nat.sub_0_r. exact E3.
Qed.

(** A keyword lexeme is one of the three words. *)
Lemma keyword_lexeme_shape x y :
  In y (matches input keyword_lexeme x) ->
  is_keyword (slice input (endIndex x) (endIndex y)) /\
  get_capture 3 y = get_capture 3 x.
Proof.
  intros Hy. split.
  - unfold keyword_lexeme in Hy.
    change (In y (flat_map
                    (matches input
                       (Seq (Group 4 (Alt (Lit (lit "true"))
                                     (Alt (Lit (lit "false"))
                                          (Lit (lit "null")))))
                            WordBoundary))
                    (matches input WordBoundary x))) in Hy.
    apply in_flat_map in Hy. destruct Hy as (z1 & Hz1 & Hy).
    simpl in Hz1. destruct (at_word_boundary input (endIndex x));
      [|destruct Hz1]. destruct Hz1 as [<-|[]].
    change (In y (flat_map (matches input WordBoundary)
                    (map (set_capture 4 (endIndex x))
                       (matches input (Lit (lit "true")) x
                        ++ matches input (Lit (lit "false")) x
                        ++ matches input (Lit (lit "null")) x)))) in Hy.
    apply in_flat_map in Hy. destruct Hy as (z2 & Hz2 & Hy).
    simpl in Hy. destruct (at_word_boundary input (endIndex z2));
      [|destruct Hy]. destruct Hy as [<-|[]].
    apply in_map_iff in Hz2. destruct Hz2 as (w & <- & Hw).
    simpl endIndex.
    apply in_app_or in Hw. destruct Hw as [Hw|Hw];
      [|apply in_app_or in Hw; destruct Hw as [Hw|Hw]];
      apply matches_Lit_inv in Hw; try discriminate;
      destruct Hw as (Hs & _); unfold is_keyword; auto.
  - apply (@matches_capture input 3 keyword_lexeme); [|exact Hy].
    simpl. intros [H|[]]. discriminate.
Qed.

Lemma number_units : units_in number_unit number_lexeme.
Proof.
  unfold number_lexeme, Opt, Plus, Star, digit. simpl.
  repeat split;
    unfold number_unit, in_ranges; simpl; try reflexivity;
    intros c Hc; rewrite ?orb_false_r in *;
    rewrite ?orb_true_iff, ?andb_true_iff, ?N.leb_le in *; lia.
Qed.

(** A number lexeme consists of units of numbers. *)
Lemma number_lexeme_shape x y :
  In y (matches input number_lexeme x) ->
  span input number_unit x y /\ get_capture 3 y = get_capture 3 x.
Proof.
  intros Hy. split.
  - eapply matches_span; [apply number_units|exact Hy].
  - apply (@matches_capture input 3 number_lexeme); [|exact Hy].
    simpl. tauto.
Qed.

Lemma slice_head i e c rest :
  slice input i e = c :: rest -> nth_error input i = Some c.
Proof.
  unfold slice. intros H.
  rewrite <- (Nat.add_0_r i), <- nth_error_skipn.
  destruct (skipn i input) as [|a l]; [rewrite firstn_nil in H; discriminate|].
  destruct (e - i); simpl in H; [discriminate|]. inversion H; reflexivity.
Qed.

Lemma search_None r :
  (forall j, matches input r (mkState j []) = []) ->
  forall fuel i, search input r fuel i = None.
Proof.
  intros H. induction fuel as [|fuel IH]; intros i; simpl; [reflexivity|].
  rewrite H. apply IH.
Qed.

(** What [search] has passed over does not match. *)
Lemma search_skips r fuel : forall i,
  match search input r fuel i with
  | Some (idx, _) =>
      forall j, i <= j < idx -> matches input r (mkState j []) = []
  | None =>
      forall j, i <= j < i + fuel -> matches input r (mkState j []) = []
  end.
Proof.
  induction fuel as [|fuel IH]; intros i; simpl; [intros j Hj; lia|].
  destruct (matches input r (mkState i [])) as [|z zs] eqn:E.
  - specialize (IH (S i)).
    destruct (search input r fuel (S i)) as [[idx y]|]; intros j Hj;
      (destruct (Nat.eq_dec j i) as [->|Hne]; [exact E|apply IH; lia]).
  - intros j Hj. lia.
Qed.

End Lexemes.

(** The test of line 24 fails on the units of a number. *)
Lemma keyword_test_number tok :
  Forall number_unit tok -> test tok keyword_regex = false.
Proof.
  intros H. unfold test. rewrite search_None; [reflexivity|].
  intros j. destruct (matches tok keyword_regex (mkState j [])) as [|y ys] eqn:E;
    [reflexivity|exfalso].
  assert (Hy : In y (matches tok keyword_regex (mkState j [])))
    by (rewrite E; left; reflexivity).
  clear E. unfold keyword_regex in Hy.
  change (In y (matches tok (Lit (lit "true")) (mkState j [])
                ++ matches tok (Lit (lit "false")) (mkState j [])
                ++ matches tok (Lit (lit "null")) (mkState j []))) in Hy.
  rewrite Forall_forall in H.
  assert (Hbad : forall c, nth_error tok j = Some c ->
            c <> ch "t" /\ c <> ch "f" /\ c <> ch "n").
  { intros c Hc. apply nth_error_In in Hc. specialize (H c Hc).
    unfold number_unit, in_ranges in H. simpl in H.
    rewrite ?orb_false_r in H.
    rewrite ?orb_true_iff, ?andb_true_iff, ?N.leb_le in H.
    unfold ch. simpl. lia. }
  apply in_app_or in Hy. destruct Hy as [Hy|Hy];
    [|apply in_app_or in Hy; destruct Hy as [Hy|Hy]];
    apply matches_Lit_inv in Hy; try discriminate;
    destruct Hy as (Hs & _); apply slice_head in Hs;
    apply Hbad in Hs; tauto.
Qed.

(** The type that lines 19-28 give to a match of the pattern tells what the
    match looks like. *)
Lemma lexeme_classified input i y :
  In y (matches input regex (mkState i [])) ->
  match classify (slice input i (endIndex y)) y with
  | t_key =>
      exists body, slice input i (endIndex y) = QUOTE :: body ++ [ch ":"]
  | t_string =>
      exists body, slice input i (endIndex y) = QUOTE :: body ++ [QUOTE]
  | t_boolean => is_keyword (slice input i (endIndex y))
  | t_number => Forall number_unit (slice input i (endIndex y))
  | t_text => False
  end.
Proof.
  intros Hy. unfold regex in Hy.
  change (In y (map (set_capture 1 i)
                  (matches input string_lexeme (mkState i [])
                   ++ matches input keyword_lexeme (mkState i [])
                   ++ matches input number_lexeme (mkState i [])))) in Hy.
  apply in_map_iff in Hy. destruct Hy as (w & <- & Hw).
  change (endIndex (set_capture 1 i w)) with (endIndex w).
  set (tok := slice input i (endIndex w)).
  assert (Hcap : capture_truthy 3 (set_capture 1 i w)
                 = match get_capture 3 w with
                   | Some (a, b) => negb (Nat.eqb (b - a) 0)
                   | None => false
                   end).
  { unfold capture_truthy. rewrite get_capture_set_other by discriminate.
    reflexivity. }
  unfold classify. rewrite Hcap. clear Hcap.
  apply in_app_or in Hw. destruct Hw as [Hw|Hw];
    [|apply in_app_or in Hw; destruct Hw as [Hw|Hw]].
  - apply string_lexeme_shape in Hw; [|reflexivity].
    simpl endIndex in Hw. destruct Hw as (Hq & Hlen & [[Hc Hl]|(a & Hc & Ha & Hl)]).
    + rewrite Hc.
      destruct (@slice_ends input i (endIndex w) _ _ Hlen Hq Hl) as [body Hb].
      fold tok in Hb. rewrite Hb. simpl. exists body. reflexivity.
    + rewrite Hc.
      destruct (Nat.eqb_spec (endIndex w - a) 0) as [E|_]; [lia|]. simpl.
      apply (@slice_ends input i (endIndex w) _ _ Hlen Hq Hl).
  - apply keyword_lexeme_shape in Hw. destruct Hw as [Hk Hc].
    rewrite Hc. simpl get_capture. simpl endIndex in Hk. fold tok in Hk.
    destruct Hk as [E|[E|E]]; rewrite E; vm_compute; auto.
  - apply number_lexeme_shape in Hw. destruct Hw as [Hs Hc].
    rewrite Hc. simpl get_capture.
    assert (Hall : Forall number_unit tok).
    { apply slice_Forall. intros j Hj. apply Hs. simpl. exact Hj. }
    assert (Hq : startsWith tok QUOTE = false).
    { destruct tok as [|c rest]; [reflexivity|]. simpl.
      inversion Hall as [|? ? Hn _]; subst.
      unfold number_unit, in_ranges in Hn. simpl in Hn.
      rewrite ?orb_false_r in Hn.
      rewrite ?orb_true_iff, ?andb_true_iff, ?N.leb_le in Hn.
      apply N.eqb_neq. unfold QUOTE. lia. }
    rewrite Hq, (keyword_test_number Hall). exact Hall.
Qed.

(** Where a part of the output comes from: a span of the text in which the
    pattern matches nowhere, or a match of the pattern with the type that
    the loop gives it. *)
Definition token_origin (s : jsstring) (t : token) : Prop :=
  (type t = t_text /\
   exists a b, content t = slice s a b /\ b <= length s /\
     forall j, a <= j < b -> matches s regex (mkState j []) = []) \/
  (exists i y, In y (matches s regex (mkState i [])) /\
     content t = slice s i (endIndex y) /\
     type t = classify (content t) y).

Lemma tokenize_loop_origin (s : jsstring) : forall fuel lastIndex parts toks,
  tokenize_loop s fuel lastIndex parts = Some toks ->
  Forall (token_origin s) parts -> Forall (token_origin s) toks.
Proof.
  induction fuel as [|fuel IH]; intros lastIndex parts toks H Hp;
    [discriminate|].
  simpl in H. pose proof (search_skips s regex (S (length s) - lastIndex)
                            lastIndex) as Hskip.
  fold (exec s regex lastIndex) in Hskip.
  destruct (exec s regex lastIndex) as [[index y]|] eqn:E.
  - destruct (exec_spec _ _ _ regex_consumes E) as (H1 & H2 & H3).
    unfold exec in E. apply search_spec in E. destruct E as (_ & _ & Hy).
    apply IH in H; [exact H|].
    apply Forall_app. split.
    + destruct (Nat.ltb lastIndex index); [|exact Hp].
      apply Forall_app. split; [exact Hp|]. constructor; [|constructor].
      left. split; [reflexivity|]. exists lastIndex, index.
      split; [reflexivity|]. split; [lia|exact Hskip].
    + constructor; [|constructor]. right. exists index, y.
      split; [exact Hy|]. split; reflexivity.
  - inversion H; subst. clear H.
    destruct (Nat.ltb_spec lastIndex (length s)); [|exact Hp].
    apply Forall_app. split; [exact Hp|]. constructor; [|constructor].
    left. split; [reflexivity|]. exists lastIndex, (length s).
    split; [|split; [lia|]].
    + unfold slice_from, slice. simpl.
      rewrite firstn_all2; [reflexivity|]. rewrite length_skipn. lia.
    + intros j Hj. apply Hskip. lia.
Qed.

Lemma tokenize_origin s toks :
  tokenize s = Some toks -> Forall (token_origin s) toks.
Proof.
  intros H. eapply tokenize_loop_origin; [exact H|constructor].
Qed.

(** What the type of a part of the output says about its content. *)
Lemma token_classified s toks t :
  tokenize s = Some toks -> In t toks ->
  match type t with
  | t_key => exists body, content t = QUOTE :: body ++ [ch ":"]
  | t_string => exists body, content t = QUOTE :: body ++ [QUOTE]
  | t_boolean => is_keyword (content t)
  | t_number => Forall number_unit (content t)
  | t_text => True
  end.
Proof.
  intros H Ht. apply tokenize_origin in H.
  rewrite Forall_forall in H. destruct (H t Ht) as [[-> _]|(i & y & Hy & Hc & Hty)];
    [exact I|].
  pose proof (@lexeme_classified s i y Hy) as L.
  rewrite <- Hc, <- Hty in L.
  destruct (type t); auto.
Qed.

(** X1.  A Key token is a double-quoted lexeme that ends with a colon. *)
Theorem key_token_shape s toks t :
  tokenize s = Some toks -> In t toks -> type t = t_key ->
  exists body, content t = QUOTE :: body ++ [ch ":"].
Proof.
  intros H Ht Hty. pose proof (@token_classified s toks t H Ht) as L.
  rewrite Hty in L. exact L.
Qed.

(** X2.  A String token starts and ends with a double quote. *)
Theorem string_token_shape s toks t :
  tokenize s = Some toks -> In t toks -> type t = t_string ->
  exists body, content t = QUOTE :: body ++ [QUOTE].
Proof.
  intros H Ht Hty. pose proof (@token_classified s toks t H Ht) as L.
  rewrite Hty in L. exact L.
Qed.

(** X3.  A Boolean token is one of the words [true], [false] and
    [null]. *)
Theorem boolean_token_shape s toks t :
  tokenize s = Some toks -> In t toks -> type t = t_boolean ->
  content t = lit "true" \/ content t = lit "false"
  \/ content t = lit "null".
Proof.
  intros H Ht Hty. pose proof (@token_classified s toks t H Ht) as L.
  rewrite Hty in L. exact L.
Qed.

(** X4.  A Number token holds nothing but digits, signs, dots and the
    letters [e] and [E]. *)
Theorem number_token_shape s toks t :
  tokenize s = Some toks -> In t toks -> type t = t_number ->
  Forall number_unit (content t).
Proof.
  intros H Ht Hty. pose proof (@token_classified s toks t H Ht) as L.
  rewrite Hty in L. exact L.
Qed.

(** The patterns that match at every index. *)
Fixpoint always_matches (r : RegExp.regex) : bool :=
  match r with
  | Empty => true
  | Repeat _ 0 _ => true
  | Seq r1 r2 => always_matches r1 && always_matches r2
  | Alt r1 r2 => always_matches r1 || always_matches r2
  | Group _ r' => always_matches r'
  | _ => false
  end.

Section Digits.

Variable input : jsstring.

Lemma repeat_zero_self m gs max x :
  In x (repeat_matcher input m gs 0 max x).
Proof.
  assert (H : forall fuel, In x (repeat_greedy m gs fuel max x)).
  { intros [|fuel]; destruct max as [[|n]|]; simpl;
      try (left; reflexivity); apply in_or_app; right; left; reflexivity. }
  destruct max as [[|n]|]; simpl; try apply H. left; reflexivity.
Qed.

Lemma flat_map_nonempty (A B : Type) (f : A -> list B) l z :
  In z l -> f z <> [] -> flat_map f l <> [].
Proof.
  intros Hz Hf H. apply Hf.
  destruct (f z) as [|b bs] eqn:E; [reflexivity|exfalso].
  assert (Hb : In b (flat_map f l))
    by (apply in_flat_map; exists z; rewrite E; simpl; auto).
  rewrite H in Hb. destruct Hb.
Qed.

Lemma matches_always r :
  always_matches r = true -> forall x, matches input r x <> [].
Proof.
  induction r as [|c|neg rs| |r1 IH1 r2 IH2|r1 IH1 r2 IH2|r IH min max|n r IH];
    simpl; intros Ha x; try discriminate.
  - apply andb_true_iff in Ha. destruct Ha as [H1 H2].
    destruct (matches input r1 x) as [|z zs] eqn:E;
      [exfalso; eapply IH1; eauto|].
    apply flat_map_nonempty with z; [left; reflexivity|auto].
  - apply orb_true_iff in Ha. intros H. apply app_eq_nil in H.
    destruct H as [E1 E2]. destruct Ha as [Ha|Ha];
      [eapply IH1|eapply IH2]; eauto.
  - destruct min as [|min]; [|discriminate]. intros H.
    pose proof (repeat_zero_self (matches input r) (groups r) max x) as Hx.
    rewrite H in Hx. destruct Hx.
  - intros H. apply map_eq_nil in H. eapply IH; eauto.
Qed.

(** The pattern matches wherever a digit stands. *)
Lemma digit_starts_match j c :
  nth_error input j = Some c -> (48 <= c <= 57)%N ->
  matches input regex (mkState j []) <> [].
Proof.
  intros Hc Hd.
  assert (Hrange : in_ranges [(48, 57)]%N c = true).
  { unfold in_ranges. simpl. rewrite orb_false_r, andb_true_iff, !N.leb_le.
    exact Hd. }
  set (x := mkState j []).
  set (rest := Seq (Opt (Seq (Char (ch ".")) (Star digit)))
                   (Opt (Seq (Class false [(101, 101); (69, 69)]%N)
                        (Seq (Opt (Class false [(43, 43); (45, 45)]%N))
                             (Plus digit))))).
  assert (Hplus : exists z, In z (matches input (Plus digit) x)).
  { exists (mkState (S j) []).
    change (In (mkState (S j) [])
              (flat_map (repeat_matcher input (matches input digit) [] 0 None)
                 (matches input digit (clear_captures [] x)))).
    assert (Hone : matches input digit (clear_captures [] x)
                   = [mkState (S j) []]).
    { change (match nth_error input j with
              | Some a =>
                  if in_ranges [(48, 57)]%N a
                  then [mkState (S j) []] else []
              | None => []
              end = [mkState (S j) []]).
      rewrite Hc, Hrange. reflexivity. }
    apply in_flat_map. exists (mkState (S j) []). split.
    - rewrite Hone. left. reflexivity.
    - apply repeat_zero_self. }
  destruct Hplus as [z Hz].
  assert (Hnum : matches input number_lexeme x <> []).
  { unfold number_lexeme. fold rest.
    change (flat_map (matches input (Seq (Plus digit) rest))
              (matches input (Opt (Char (ch "-"))) x) <> []).
    apply flat_map_nonempty with x; [apply repeat_zero_self|].
    change (flat_map (matches input rest) (matches input (Plus digit) x)
            <> []).
    apply flat_map_nonempty with z; [exact Hz|].
    apply matches_always. reflexivity. }
  unfold regex.
  change (map (set_capture 1 j)
            (matches input string_lexeme x
             ++ matches input keyword_lexeme x
             ++ matches input number_lexeme x) <> []).
  intros H. apply map_eq_nil in H. apply app_eq_nil in H.
  destruct H as [_ H]. apply app_eq_nil in H. destruct H as [_ H].
  contradiction.
Qed.

End Digits.

(** X5.  No digit is left in a Text token: every digit of the text lands
    in a lexeme. *)
Theorem text_token_no_digit s toks t c :
  tokenize s = Some toks -> In t toks -> type t = t_text ->
  In c (content t) -> ~ (48 <= c <= 57)%N.
Proof.
  intros H Ht Hty Hc Hd. apply tokenize_origin in H.
  rewrite Forall_forall in H.
  destruct (H t Ht) as [(_ & a & b & E & _ & Hgap)|(i & y & _ & _ & Hcl)].
  - rewrite E in Hc. apply slice_In in Hc. destruct Hc as (j & Hj & Ej).
    apply (@digit_starts_match s j c Ej Hd). apply Hgap. exact Hj.
  - rewrite Hty in Hcl. symmetry in Hcl.
    apply classify_not_text in Hcl. exact Hcl.
Qed.

(** X6.  The scan ends on every text, and there are at most as many tokens
    as code units. *)
Theorem tokenize_length s :
  exists toks, tokenize s = Some toks /\ length toks <= length s.
Proof.
  destruct (tokenize_spec s) as (toks & H & Hc & Hne & _).
  exists toks. split; [exact H|].
  rewrite <- Hc. clear H Hc. unfold contents.
  induction toks as [|t toks IH]; simpl; [lia|].
  simpl in Hne. apply andb_true_iff in Hne. destruct Hne as [Ht Hn].
  rewrite length_app. specialize (IH Hn).
  unfold nonempty in Ht. destruct (content t); [discriminate|].
  simpl. lia.
Qed.

(** The sample text of the specification and its tokens. *)
Definition sample : jsstring := js "{'key': 'value', 'n': 42, 'b': true}".

Definition sample_tokens : list token :=
  [ mkToken t_text (js "{"); mkToken t_key (js "'key':");
    mkToken t_text (js " "); mkToken t_string (js "'value'");
    mkToken t_text (js ", "); mkToken t_key (js "'n':");
    mkToken t_text (js " "); mkToken t_number (js "42");
    mkToken t_text (js ", "); mkToken t_key (js "'b':");
    mkToken t_text (js " "); mkToken t_boolean (js "true");
    mkToken t_text (js "}") ].

Ltac in_list := simpl; repeat (first [left; reflexivity | right]).

Lemma key_token_shape_witness :
  exists body, js "'key':" = QUOTE :: body ++ [ch ":"].
Proof.
  apply (@key_token_shape sample sample_tokens (mkToken t_key (js "'key':")));
    [vm_compute; reflexivity|in_list|reflexivity].
Defined.

Lemma string_token_shape_witness :
  exists body, js "'value'" = QUOTE :: body ++ [QUOTE].
Proof.
  apply (@string_token_shape sample sample_tokens
           (mkToken t_string (js "'value'")));
    [vm_compute; reflexivity|in_list|reflexivity].
Defined.

Lemma boolean_token_shape_witness :
  js "true" = lit "true" \/ js "true" = lit "false"
  \/ js "true" = lit "null".
Proof.
  apply (@boolean_token_shape sample sample_tokens
           (mkToken t_boolean (js "true")));
    [vm_compute; reflexivity|in_list|reflexivity].
Defined.

Lemma number_token_shape_witness : Forall number_unit (js "42").
Proof.
  apply (@number_token_shape sample sample_tokens
           (mkToken t_number (js "42")));
    [vm_compute; reflexivity|in_list|reflexivity].
Defined.

Lemma text_token_no_digit_witness : ~ (48 <= ch "," <= 57)%N.
Proof.
  apply (@text_token_no_digit sample sample_tokens
           (mkToken t_text (js ", ")) (ch ","));
    [vm_compute; reflexivity|in_list|reflexivity|in_list].
Defined.

End LexemeFacts.

(** ** The line numbers of the gutters: [getLineNumbers] *)

Module LineNumbers.
Import JsStringFacts.

(** [text.split(separator)] for a separator of one unit. *)
Fixpoint split (separator : codeunit) (text : jsstring) : list jsstring :=
  match text with
  | [] => [[]]
  | c :: rest =>
      if codeunit_eqb c separator then [] :: split separator rest
      else match split separator rest with
           | first :: others => (c :: first) :: others
           | [] => [[c]]
           end
  end.

(** The string of a positive integer that [join] puts into the output: its
    decimal numeral (as long as the integer is below [10^21], which a number
    of lines always is). *)
Definition numeral (n : nat) : jsstring := Reference.decimal (Z.of_nat n).

(** Lines 173-176. *)
Definition getLineNumbers (text : jsstring) : jsstring :=
  let lines := length (split NEWLINE text) in
  join_strings [NEWLINE]
    (map (fun i => numeral (i + 1)) (seq 0 (Nat.max lines 1))).

(** The number that a string of digits denotes. *)
Fixpoint digits_value (l : jsstring) : Z :=
  match l with
  | [] => 0
  | c :: l' =>
      Reference.digit_value c * 10 ^ Z.of_nat (length l') + digits_value l'
  end.

Definition is_digit (c : codeunit) : Prop := (48 <= c <= 57)%N.

Lemma split_not_nil separator text : split separator text <> [].
Proof.
  destruct text as [|c rest]; simpl; [discriminate|].
  destruct (codeunit_eqb c separator); [discriminate|].
  destruct (split separator rest); discriminate.
Qed.

Lemma split_without separator p :
  ~ In separator p -> split separator p = [p].
Proof.
  induction p as [|c p IH]; simpl; intros H; [reflexivity|].
  destruct (codeunit_eqb c separator) eqn:E.
  - apply codeunit_eqb_eq in E. tauto.
  - rewrite IH by tauto. reflexivity.
Qed.

Lemma split_app separator p rest :
  ~ In separator p ->
  split separator (p ++ separator :: rest) = p :: split separator rest.
Proof.
  induction p as [|c p IH]; simpl; intros H.
  - unfold codeunit_eqb. rewrite N.eqb_refl. reflexivity.
  - destruct (codeunit_eqb c separator) eqn:E.
    + apply codeunit_eqb_eq in E. tauto.
    + rewrite IH by tauto. reflexivity.
Qed.

(** Splitting what [join] has joined gives the parts back, when no part
    holds the separator. *)
Lemma split_join separator parts :
  parts <> [] ->
  (forall p, In p parts -> ~ In separator p) ->
  split separator (join_strings [separator] parts) = parts.
Proof.
  induction parts as [|p parts IH]; [congruence|]. intros _ H.
  destruct parts as [|q parts].
  - simpl. apply split_without. apply H. left; reflexivity.
  - change (join_strings [separator] (p :: q :: parts))
      with (p ++ separator :: join_strings [separator] (q :: parts)).
    rewrite split_app by (apply H; left; reflexivity).
    rewrite IH; [reflexivity|discriminate|].
    intros r Hr. apply H. right. exact Hr.
Qed.

(** The numeral of a number: its digits and its value. *)
Lemma decimal_digits_spec fuel : forall n acc,
  (0 <= n < 2 ^ Z.of_nat fuel)%Z ->
  Forall is_digit acc ->
  Forall is_digit (Reference.decimal_digits fuel n acc) /\
  digits_value (Reference.decimal_digits fuel n acc)
  = (n * 10 ^ Z.of_nat (length acc) + digits_value acc)%Z.
Proof.
  induction fuel as [|fuel IH]; intros n acc Hn Hacc.
  - simpl in *. split; [exact Hacc|].
    replace n with 0%Z by lia. lia.
  - assert (Hm : (0 <= n mod 10 < 10)%Z) by (apply Z.mod_pos_bound; lia).
    set (d := (48 + Z.to_N (n mod 10))%N).
    assert (Hd : is_digit d) by (unfold is_digit, d; lia).
    assert (Hv : Reference.digit_value d = (n mod 10)%Z).
    { unfold Reference.digit_value, d.
      replace (48 + Z.to_N (n mod 10) - 48)%N with (Z.to_N (n mod 10)) by lia.
      apply Z2N.id. lia. }
    change (Reference.decimal_digits (S fuel) n acc)
      with (if Z.ltb n 10 then d :: acc
            else Reference.decimal_digits fuel (n / 10)%Z (d :: acc)).
    destruct (Z.ltb_spec n 10) as [Hlt|Hge].
    + split; [constructor; assumption|].
      change (digits_value (d :: acc))
        with (Reference.digit_value d * 10 ^ Z.of_nat (length acc)
              + digits_value acc)%Z.
      rewrite Hv, Z.mod_small by lia. reflexivity.
    + destruct (IH (n / 10)%Z (d :: acc)) as [F V].
      * rewrite Nat2Z.inj_succ, Z.pow_succ_r in Hn by lia.
        split; [apply Z.div_pos; lia|].
        apply Z.div_lt_upper_bound; lia.
      * constructor; assumption.
      * split; [exact F|]. rewrite V.
        change (digits_value (d :: acc))
          with (Reference.digit_value d * 10 ^ Z.of_nat (length acc)
                + digits_value acc)%Z.
        rewrite Hv.
        change (length (d :: acc)) with (S (length acc)).
        rewrite Nat2Z.inj_succ, Z.pow_succ_r by lia.
        pose proof (Z.div_mod n 10 ltac:(lia)) as Hdm.
        set (k := (10 ^ Z.of_nat (length acc))%Z).
        set (q := (n / 10)%Z) in *. set (r := (n mod 10)%Z) in *.
        rewrite Hdm. ring.
Qed.

Lemma numeral_spec n :
  Forall is_digit (numeral n) /\ digits_value (numeral n) = Z.of_nat n.
Proof.
  unfold numeral, Reference.decimal.
  destruct (@decimal_digits_spec (S (Z.to_nat (Z.log2 (Z.of_nat n))))
              (Z.of_nat n) []) as [F V].
  - split; [lia|].
    rewrite Nat2Z.inj_succ, Z2Nat.id by apply Z.log2_nonneg.
    destruct (Z.eq_dec (Z.of_nat n) 0) as [->|Hne]; [reflexivity|].
    apply Z.log2_spec. lia.
  - constructor.
  - split; [exact F|]. rewrite V. simpl. lia.
Qed.

Lemma numeral_no_newline n : ~ In NEWLINE (numeral n).
Proof.
  intros H. destruct (numeral_spec n) as [F _].
  rewrite Forall_forall in F. specialize (F _ H).
  unfold is_digit, NEWLINE in F. lia.
Qed.

Lemma split_count text :
  length (split NEWLINE text) = S (count_occ N.eq_dec text NEWLINE).
Proof.
  induction text as [|c rest IH]; [reflexivity|]. simpl.
  destruct (N.eq_dec c NEWLINE) as [->|Hne].
  - unfold codeunit_eqb. rewrite N.eqb_refl. simpl. rewrite IH. reflexivity.
  - destruct (codeunit_eqb c NEWLINE) eqn:E;
      [apply codeunit_eqb_eq in E; contradiction|].
    destruct (split NEWLINE rest) as [|first others] eqn:Es;
      [simpl in IH; discriminate|].
    simpl in *. exact IH.
Qed.

Lemma getLineNumbers_split text :
  split NEWLINE (getLineNumbers text) =
    map (fun i => numeral (i + 1)) (seq 0 (length (split NEWLINE text))).
Proof.
  unfold getLineNumbers.
  replace (Nat.max (length (split NEWLINE text)) 1)
    with (length (split NEWLINE text))
    by (rewrite split_count; lia).
  apply split_join.
  - rewrite split_count. discriminate.
  - intros p Hp. apply in_map_iff in Hp. destruct Hp as (i & <- & _).
    apply numeral_no_newline.
Qed.

Lemma getLineNumbers_length text :
  length (split NEWLINE (getLineNumbers text)) = length (split NEWLINE text).
Proof. rewrite getLineNumbers_split, length_map, length_seq. reflexivity. Qed.

(** X7.  The number of lines of a text, which the header of the input pane
    shows, is one more than the number of its line feeds; in particular it
    is never 0, and the maximum with 1 in [getLineNumbers] changes
    nothing. *)
Theorem split_length text :
  length (split NEWLINE text) = S (count_occ N.eq_dec text NEWLINE) /\
  Nat.max (length (split NEWLINE text)) 1 = length (split NEWLINE text).
Proof.
  pose proof (split_count text) as H. split; [exact H|lia].
Qed.

(** X8.  The gutter has one line for each line of the text, and its line
    [k] (counted from 0) is the decimal numeral of [k + 1]. *)
Theorem getLineNumbers_lines text :
  split NEWLINE (getLineNumbers text) =
    map (fun i => numeral (i + 1)) (seq 0 (length (split NEWLINE text))) /\
  length (split NEWLINE (getLineNumbers text)) = length (split NEWLINE text) /\
  forall k line,
    nth_error (split NEWLINE (getLineNumbers text)) k = Some line ->
    Forall is_digit line /\ digits_value line = Z.of_nat (k + 1).
Proof.
  pose proof (getLineNumbers_split text) as E.
  split; [exact E|]. split.
  - apply getLineNumbers_length.
  - intros k line Hk. rewrite E in Hk.
    rewrite nth_error_map in Hk.
    destruct (nth_error (seq 0 (length (split NEWLINE text))) k) as [i|] eqn:Ei;
      [|discriminate].
    simpl in Hk. inversion Hk; subst line.
    assert (i = k).
    { assert (Hlt : k < length (seq 0 (length (split NEWLINE text))))
        by (apply nth_error_Some; congruence).
      rewrite length_seq in Hlt.
      apply nth_error_nth with (d := 0) in Ei.
      rewrite seq_nth in Ei by exact Hlt. simpl in Ei. congruence. }
    subst i. apply numeral_spec.
Qed.

End LineNumbers.

(** ** More on the extraction *)

Module ExtractionMore.
Import JsStringFacts EngineFacts ExtractionFacts.

Section StableSort.

Variable key : value -> Z.

(** The stable sort leaves a sorted list as it is. *)
Lemma stable_sort_sorted_id l :
  StronglySorted (key_le key) l -> stable_sort key l = l.
Proof.
  induction 1 as [|a l Hl IH Ha]; [reflexivity|].
  simpl. rewrite IH. destruct l as [|b l]; [reflexivity|].
  simpl. inversion Ha as [|? ? Hab _]; subst. unfold key_le in Hab.
  destruct (Z.leb_spec (key a) (key b)); [reflexivity|lia].
Qed.

(** Two sorted lists with the same elements are equal when no two elements
    have the same key. *)
Lemma sorted_unique l1 : forall l2,
  StronglySorted (key_le key) l1 -> StronglySorted (key_le key) l2 ->
  Permutation l1 l2 -> NoDup (map key l1) -> l1 = l2.
Proof.
  induction l1 as [|a l1 IH]; intros l2 S1 S2 P N.
  - apply Permutation_nil in P. congruence.
  - destruct l2 as [|b l2];
      [apply Permutation_sym, Permutation_nil in P; discriminate|].
    inversion S1 as [|? ? S1' F1]; subst.
    inversion S2 as [|? ? S2' F2]; subst.
    inversion N as [|? ? Na N']; subst.
    rewrite Forall_forall in F1, F2.
    assert (Hab : a = b).
    { assert (Hb : In b (a :: l1))
        by (eapply Permutation_in; [apply Permutation_sym; exact P|left; reflexivity]).
      assert (Ha : In a (b :: l2))
        by (eapply Permutation_in; [exact P|left; reflexivity]).
      destruct Hb as [Hb|Hb]; [exact Hb|].
      destruct Ha as [Ha|Ha]; [congruence|].
      pose proof (F1 _ Hb) as L1. pose proof (F2 _ Ha) as L2.
      unfold key_le in L1, L2. exfalso. apply Na.
      replace (key a) with (key b) by lia.
      apply in_map. exact Hb. }
    subst b. f_equal. apply IH; auto.
    eapply Permutation_cons_inv. exact P.
Qed.

End StableSort.

Section WithRuntime.

Context {R : Runtime}.

(** X9.  When [JSON.parse] throws on an input that is not blank, its
    message becomes the error and nothing is output. *)
Theorem extract_parse_error s e :
  forallb is_white_space s = false ->
  JSON_parse s = inl e ->
  extract s = mkResult [] [] 0 (message_of e).
Proof.
  intros Hb He. unfold extract.
  destruct (trim s) as [|c rest] eqn:Et.
  - apply trim_nil in Et. congruence.
  - unfold extract_body. rewrite He. reflexivity.
Qed.

Lemma join_texts texts separator :
  join Number_toString (map (fun t => Some (VString t)) texts) separator
  = inr (join_strings separator texts).
Proof.
  unfold join.
  rewrite (@mapM_pure _ _ (element_text Number_toString)
             (fun v => match v with Some (VString t) => t | _ => [] end)).
  - rewrite map_map. rewrite map_id. reflexivity.
  - intros v Hv. apply in_map_iff in Hv. destruct Hv as (t & <- & _).
    reflexivity.
Qed.

Lemma extract_strings s entries :
  JSON_parse s = inr (VArray entries) ->
  forallb sortable entries = true ->
  forallb (fun log => negb (retained log) || is_string (message_field log))
          entries = true ->
  exists texts,
    length texts = length (filter retained entries) /\
    extract s =
    mkResult (map (fun t => Some (VString t)) texts)
             (join_strings [NEWLINE] texts)
             (length (filter retained entries)) [].
Proof.
  intros Hparse Hs Hstr.
  destruct (extract_sortable _ Hparse Hs) as (sortedLogs & Hperm & E).
  assert (Htexts : exists texts,
            messages_of sortedLogs = map (fun t => Some (VString t)) texts).
  { unfold messages_of.
    assert (Hall : forall log, In log (filter retained sortedLogs) ->
              is_string (message_field log) = true).
    { intros log Hl. apply filter_In in Hl. destruct Hl as [Hl Hr].
      rewrite forallb_forall in Hstr.
      assert (Hin : In log entries)
        by (eapply Permutation_in; [apply Permutation_sym; exact Hperm|exact Hl]).
      specialize (Hstr _ Hin). rewrite Hr in Hstr. exact Hstr. }
    induction (filter retained sortedLogs) as [|log l IH].
    - exists []. reflexivity.
    - destruct IH as [texts IH]; [intros; apply Hall; right; assumption|].
      specialize (Hall log (or_introl eq_refl)).
      destruct (message_field log) as [[ | | |m| | ]|] eqn:Em;
        try discriminate.
      destruct (formatMessage_string m) as [m' Hm].
      exists (m' :: texts). cbn [map]. rewrite Em, Hm, IH. reflexivity. }
  destruct Htexts as [texts Ht]. exists texts.
  assert (Hlen : length (messages_of sortedLogs)
                 = length (filter retained entries)).
  { pose proof (messages_of_permutation Hperm) as P.
    rewrite (Permutation_length P). apply length_map. }
  split.
  - rewrite <- Hlen, Ht, length_map. reflexivity.
  - rewrite E, Ht, join_texts. f_equal. rewrite <- Ht. exact Hlen.
Qed.

(** X10.  When every message of the array is a string, the messages that
    come out are strings, the output is these strings joined by line feeds,
    and no error is set. *)
Theorem extract_joins_strings s entries :
  JSON_parse s = inr (VArray entries) ->
  forallb sortable entries = true ->
  forallb (fun log => negb (retained log) || is_string (message_field log))
          entries = true ->
  exists texts,
    extract s =
    mkResult (map (fun t => Some (VString t)) texts)
             (join_strings [NEWLINE] texts)
             (length (filter retained entries)) [].
Proof.
  intros Hparse Hs Hstr.
  destruct (extract_strings _ Hparse Hs Hstr) as (texts & _ & E).
  exists texts. exact E.
Qed.

Lemma join_strings_line_feeds texts :
  length texts - 1 <=
  count_occ N.eq_dec (join_strings [NEWLINE] texts) NEWLINE.
Proof.
  induction texts as [|t texts IH]; [simpl; lia|].
  destruct texts as [|t' texts]; [simpl; lia|].
  change (join_strings [NEWLINE] (t :: t' :: texts))
    with (t ++ [NEWLINE] ++ join_strings [NEWLINE] (t' :: texts)).
  rewrite !count_occ_app.
  change (count_occ N.eq_dec [NEWLINE] NEWLINE) with 1.
  simpl length in *.
  apply Nat.le_trans with (0 + (1 + (S (length texts) - 1))); [lia|].
  apply Nat.add_le_mono; [lia|]. apply Nat.add_le_mono_l. exact IH.
Qed.

(** X20.  When every message of the array is a string, the gutter of the
    output pane has at least as many lines as there are messages: every
    message starts on a line of its own. *)
Theorem output_lines_cover_messages s entries :
  JSON_parse s = inr (VArray entries) ->
  forallb sortable entries = true ->
  forallb (fun log => negb (retained log) || is_string (message_field log))
          entries = true ->
  count (extract s) <=
  length (LineNumbers.split NEWLINE
            (LineNumbers.getLineNumbers (outputMessages (extract s)))).
Proof.
  intros Hparse Hs Hstr.
  destruct (extract_strings _ Hparse Hs Hstr) as (texts & Hlen & E).
  rewrite E. simpl count. simpl outputMessages.
  rewrite LineNumbers.getLineNumbers_length, LineNumbers.split_count.
  rewrite <- Hlen. pose proof (join_strings_line_feeds texts). lia.
Qed.

Lemma extract_by_instant s entries :
  JSON_parse s = inr (VArray entries) ->
  forallb valid_instant entries = true ->
  extract s =
  match join Number_toString (messages_of (stable_sort instant entries))
          [NEWLINE] with
  | inr out =>
      mkResult (messages_of (stable_sort instant entries)) out
               (length (messages_of (stable_sort instant entries))) []
  | inl e => mkResult [] [] 0 (message_of e)
  end.
Proof.
  intros Hparse Hvalid. rewrite forallb_forall in Hvalid.
  apply (extract_array _ Hparse).
  - apply Array_sort_stable. intros a b Ha Hb.
    pose proof (Hvalid _ Ha). pose proof (Hvalid _ Hb).
    apply compare_timestamps_valid;
      try apply valid_instant_not_null; assumption.
  - intros log Hl. apply valid_instant_not_null, Hvalid.
    eapply Permutation_in;
      [apply Permutation_sym, stable_sort_permutes|exact Hl].
Qed.

(** X11.  An array that is already in ascending order of its instants
    keeps its order: the messages are those of the entries with a truthy
    message, in the order of the input. *)
Theorem extract_keeps_sorted_input s entries :
  JSON_parse s = inr (VArray entries) ->
  forallb valid_instant entries = true ->
  StronglySorted (fun a b => (instant a <= instant b)%Z) entries ->
  extract s =
  match join Number_toString (messages_of entries) [NEWLINE] with
  | inr out =>
      mkResult (messages_of entries) out (length (messages_of entries)) []
  | inl e => mkResult [] [] 0 (message_of e)
  end.
Proof.
  intros Hparse Hvalid Hsorted.
  rewrite (extract_by_instant _ Hparse Hvalid).
  rewrite (stable_sort_sorted_id Hsorted). reflexivity.
Qed.

(** X12.  The order of the entries in the input does not matter when the
    instants of their timestamps, the numbers of milliseconds that
    [getTime] gives, are all valid and all different: two arrays with the
    same entries give the same result.  Timestamps that differ as texts are
    not enough, since two of them can denote the same instant. *)
Theorem extract_order_irrelevant s1 s2 entries1 entries2 :
  JSON_parse s1 = inr (VArray entries1) ->
  JSON_parse s2 = inr (VArray entries2) ->
  Permutation entries1 entries2 ->
  forallb valid_instant entries1 = true ->
  NoDup (map instant entries1) ->
  extract s1 = extract s2.
Proof.
  intros H1 H2 P Hv N.
  assert (Hv2 : forallb valid_instant entries2 = true).
  { rewrite forallb_forall in *. intros log Hl. apply Hv.
    eapply Permutation_in; [apply Permutation_sym; exact P|exact Hl]. }
  rewrite (extract_by_instant _ H1 Hv), (extract_by_instant _ H2 Hv2).
  replace (stable_sort instant entries2) with (stable_sort instant entries1);
    [reflexivity|].
  apply (@sorted_unique instant).
  - apply stable_sort_sorted.
  - apply stable_sort_sorted.
  - eapply Permutation_trans;
      [apply Permutation_sym, stable_sort_permutes|].
    eapply Permutation_trans; [exact P|apply stable_sort_permutes].
  - eapply Permutation_NoDup; [|exact N].
    apply Permutation_map, stable_sort_permutes.
Qed.

End WithRuntime.

End ExtractionMore.

(** ** The component [Home]: its state and its handlers

    The state variables of the component, the timers that it has set and
    the text that it has handed to the clipboard.  React runs the effect
    after a render in which [inputLogs] has changed, after the cleanup of
    the effect before it; the state updates of one handler or timer callback
    take effect together.  Time is left out: a timer that is set fires at
    some later step, or never. *)

Module Component.
Import JsStringFacts ExtractionFacts.

Record AppState : Type := mkApp {
  inputLogs : jsstring;
  outputMessages : jsstring;
  error : jsstring;
  messageCount : nat;
  copied : bool;
  (** the debounce timer of the effect, with the input that its callback
      will read *)
  timer : option jsstring;
  (** the timers of [copyToClipboard] that have not fired yet *)
  copyTimers : nat;
  (** the last text given to [navigator.clipboard.writeText] *)
  clipboard : option jsstring
}.

(** The state after the first render and its effect. *)
Definition initial : AppState := mkApp [] [] [] 0 false None 0 None.

Inductive event : Type :=
| InputChange : jsstring -> event
| TimerFires : event
| ClearAll : event
| CopyToClipboard : event
| CopyTimerFires : event.

Section WithRuntime.

Context {R : Runtime}.

(** Lines 99-141, the effect; the timer of the effect before it has been
    cleared by its cleanup. *)
Definition effect (st : AppState) : AppState :=
  match trim (inputLogs st) with
  | [] =>
      mkApp (inputLogs st) [] [] 0 (copied st) None
            (copyTimers st) (clipboard st)
  | _ =>
      mkApp (inputLogs st) (outputMessages st) (error st) (messageCount st)
            (copied st) (Some (inputLogs st)) (copyTimers st) (clipboard st)
  end.

(** Lines 107-138, the callback of the timer, on the input of the render
    that has set it. *)
Definition timer_callback (input : jsstring) (st : AppState) : AppState :=
  match extract_body input with
  | inr (messages, output) =>
      mkApp (inputLogs st) output [] (length messages) (copied st) None
            (copyTimers st) (clipboard st)
  | inl err =>
      mkApp (inputLogs st) [] (message_of err) 0 (copied st) None
            (copyTimers st) (clipboard st)
  end.

(** [setInputLogs(v)] at the end of a handler whose other updates gave
    [st]: nothing more happens when the value is the one that the state
    holds; otherwise the component renders and the effect runs. *)
Definition setInputLogs (v : jsstring) (st : AppState) : AppState :=
  if jsstring_eqb v (inputLogs st) then st
  else effect (mkApp v (outputMessages st) (error st) (messageCount st)
                     (copied st) (timer st) (copyTimers st) (clipboard st)).

(** Lines 143-145. *)
Definition handleInputChange (v : jsstring) (st : AppState) : AppState :=
  setInputLogs v st.

(** Lines 147-152. *)
Definition clearAll (st : AppState) : AppState :=
  setInputLogs []
    (mkApp (inputLogs st) [] [] 0 (copied st) (timer st)
           (copyTimers st) (clipboard st)).

(** Lines 154-159. *)
Definition copyToClipboard (st : AppState) : AppState :=
  match outputMessages st with
  | [] => st
  | _ =>
      mkApp (inputLogs st) (outputMessages st) (error st) (messageCount st)
            true (timer st) (S (copyTimers st)) (Some (outputMessages st))
  end.

Definition step (st : AppState) (e : event) : AppState :=
  match e with
  | InputChange v => handleInputChange v st
  | TimerFires =>
      match timer st with
      | Some input => timer_callback input st
      | None => st
      end
  | ClearAll => clearAll st
  | CopyToClipboard => copyToClipboard st
  | CopyTimerFires =>
      match copyTimers st with
      | S n =>
          mkApp (inputLogs st) (outputMessages st) (error st)
                (messageCount st) false (timer st) n (clipboard st)
      | 0 => st
      end
  end.

(** The state after a sequence of events. *)
Definition run (events : list event) : AppState :=
  fold_left step events initial.

(** What the panes show is the result of the extraction on [input]. *)
Definition shows (st : AppState) (input : jsstring) : Prop :=
  outputMessages st = Extraction.outputMessages (extract input) /\
  error st = Extraction.error (extract input) /\
  messageCount st = count (extract input).

(** The invariant of the component. *)
Definition consistent (st : AppState) : Prop :=
  match timer st with
  | Some input => input = inputLogs st /\ trim input <> []
  | None => shows st (inputLogs st)
  end /\
  (copied st = true -> 0 < copyTimers st) /\
  (forall text, clipboard st = Some text -> text <> []) /\
  (error st <> [] -> outputMessages st = [] /\ messageCount st = 0).

Lemma shows_blank st input :
  trim input = [] ->
  outputMessages st = [] -> error st = [] -> messageCount st = 0 ->
  shows st input.
Proof.
  intros Ht Ho He Hc. unfold shows, extract. rewrite Ht. simpl. auto.
Qed.

Lemma timer_callback_shows input st :
  trim input <> [] ->
  let st' := timer_callback input st in
  outputMessages st' = Extraction.outputMessages (extract input) /\
  error st' = Extraction.error (extract input) /\
  messageCount st' = count (extract input) /\
  timer st' = None /\ inputLogs st' = inputLogs st /\
  copied st' = copied st /\ copyTimers st' = copyTimers st /\
  clipboard st' = clipboard st /\
  (error st' <> [] -> outputMessages st' = [] /\ messageCount st' = 0).
Proof.
  intros Hn. unfold timer_callback, extract.
  destruct (trim input) as [|c rest]; [congruence|].
  destruct (extract_body input) as [err|[messages output]]; simpl;
    repeat split; auto; congruence.
Qed.

Lemma effect_consistent st :
  (copied st = true -> 0 < copyTimers st) ->
  (forall text, clipboard st = Some text -> text <> []) ->
  (error st <> [] -> outputMessages st = [] /\ messageCount st = 0) ->
  consistent (effect st).
Proof.
  intros Hc Hp He. unfold effect, consistent.
  destruct (trim (inputLogs st)) as [|c rest] eqn:Et; simpl.
  - split; [|split; [exact Hc|split; [exact Hp|congruence]]].
    apply shows_blank; simpl; auto.
  - split; [|split; [exact Hc|split; [exact Hp|exact He]]].
    split; [reflexivity|]. rewrite Et. discriminate.
Qed.

Lemma setInputLogs_consistent v st :
  (copied st = true -> 0 < copyTimers st) ->
  (forall text, clipboard st = Some text -> text <> []) ->
  (error st <> [] -> outputMessages st = [] /\ messageCount st = 0) ->
  (v = inputLogs st -> consistent st) ->
  consistent (setInputLogs v st).
Proof.
  intros Hc Hp He Hsame. unfold setInputLogs.
  destruct (jsstring_eqb v (inputLogs st)) eqn:E.
  - apply Hsame. apply jsstring_eqb_eq. exact E.
  - apply effect_consistent; simpl; assumption.
Qed.

Lemma step_consistent st e : consistent st -> consistent (step st e).
Proof.
  intros H. pose proof H as (Ht & Hc & Hp & He).
  destruct e as [v| | | | ]; simpl.
  - unfold handleInputChange. apply setInputLogs_consistent; auto.
  - destruct (timer st) as [input|] eqn:E; [|exact H].
    destruct Ht as [-> Hn].
    pose proof (@timer_callback_shows (inputLogs st) st Hn) as L.
    simpl in L.
    destruct L as (L1 & L2 & L3 & L4 & L5 & L6 & L7 & L8 & L9).
    unfold consistent. rewrite L4, L5, L6, L7, L8.
    split; [unfold shows; auto|]. split; [exact Hc|].
    split; [exact Hp|exact L9].
  - unfold clearAll. apply setInputLogs_consistent; simpl.
    + exact Hc.
    + exact Hp.
    + congruence.
    + intros Heq. unfold consistent. simpl.
      split; [|split; [exact Hc|split; [exact Hp|congruence]]].
      destruct (timer st) as [input|].
      * destruct Ht as [-> Hn]. rewrite <- Heq in Hn.
        exfalso. apply Hn. reflexivity.
      * apply shows_blank; simpl; auto. rewrite <- Heq. reflexivity.
  - unfold copyToClipboard.
    destruct (outputMessages st) as [|c rest] eqn:Eo; [exact H|].
    unfold consistent, shows in *. simpl.
    split; [rewrite <- Eo; exact Ht|]. split; [lia|]. split.
    + intros text Htext. inversion Htext. discriminate.
    + intros Hne. destruct (He Hne) as [Ho _]. congruence.
  - destruct (copyTimers st) as [|n] eqn:En; [exact H|].
    unfold consistent, shows in *. simpl.
    split; [exact Ht|]. split; [discriminate|]. split; [exact Hp|exact He].
Qed.

Lemma initial_consistent : consistent initial.
Proof.
  unfold consistent, initial. simpl.
  split; [|split; [discriminate|split; [discriminate|congruence]]].
  unfold shows, extract. simpl. auto.
Qed.

Lemma run_consistent events : consistent (run events).
Proof.
  unfold run. generalize initial_consistent. generalize initial.
  induction events as [|e events IH]; intros st H; simpl; [exact H|].
  apply IH. apply step_consistent. exact H.
Qed.

Lemma inputLogs_setInputLogs v st : inputLogs (setInputLogs v st) = v.
Proof.
  unfold setInputLogs.
  destruct (jsstring_eqb v (inputLogs st)) eqn:E.
  - symmetry. apply jsstring_eqb_eq. exact E.
  - unfold effect. simpl. destruct (trim v); reflexivity.
Qed.

Lemma run_app events e : run (events ++ [e]) = step (run events) e.
Proof. unfold run. rewrite fold_left_app. reflexivity. Qed.

Lemma run_app2 events e1 e2 :
  run (events ++ [e1; e2]) = step (step (run events) e1) e2.
Proof. unfold run. rewrite fold_left_app. reflexivity. Qed.

Lemma consistent_timer st :
  consistent st -> trim (inputLogs st) = [] -> timer st = None.
Proof.
  intros (Ht & _) Hb. destruct (timer st) as [input|]; [|reflexivity].
  destruct Ht as [-> Hn]. contradiction.
Qed.

Lemma step_timer_fires st : timer (step st TimerFires) = None.
Proof.
  simpl. destruct (timer st) as [input|] eqn:E; [|exact E].
  unfold timer_callback.
  destruct (extract_body input) as [err|[messages output]]; reflexivity.
Qed.

Lemma step_timer_fires_inputLogs st :
  inputLogs (step st TimerFires) = inputLogs st.
Proof.
  simpl. destruct (timer st) as [input|]; [|reflexivity].
  unfold timer_callback.
  destruct (extract_body input) as [err|[messages output]]; reflexivity.
Qed.

(** Without messages the [try] block gives no output. *)
Lemma extract_body_count_zero input messages output :
  extract_body input = inr (messages, output) ->
  length messages = 0 -> output = [].
Proof.
  unfold extract_body.
  destruct (JSON_parse input) as [e|logs]; [discriminate|].
  destruct logs; try discriminate. unfold bind.
  destruct (Array_sort compare_timestamps l) as [e|sortedLogs];
    [discriminate|].
  destruct (filterM has_message sortedLogs) as [e|kept]; [discriminate|].
  destruct (mapM formatted_message kept) as [e|ms]; [discriminate|].
  destruct ms as [|m ms].
  - simpl. intros H _. inversion H. reflexivity.
  - destruct (join Number_toString (m :: ms) [NEWLINE]);
      [discriminate|].
    intros H Hl. inversion H; subst. discriminate.
Qed.

(** Without a count there is no output. *)
Definition counted (st : AppState) : Prop :=
  messageCount st = 0 -> outputMessages st = [].

Lemma step_counted st e : counted st -> counted (step st e).
Proof.
  unfold counted. intros H. destruct e as [v| | | | ]; simpl.
  - unfold handleInputChange, setInputLogs.
    destruct (jsstring_eqb v (inputLogs st)); [exact H|].
    unfold effect. simpl. destruct (trim v); simpl; auto.
  - destruct (timer st) as [input|]; [|exact H].
    unfold timer_callback.
    destruct (extract_body input) as [err|[messages output]] eqn:E; simpl;
      [reflexivity|].
    apply (extract_body_count_zero _ E).
  - unfold clearAll, setInputLogs, effect. simpl.
    destruct (inputLogs st); simpl; intros _; reflexivity.
  - unfold copyToClipboard.
    destruct (outputMessages st) as [|c rest] eqn:Eo; simpl;
      rewrite ?Eo; exact H.
  - destruct (copyTimers st); exact H.
Qed.

Lemma run_counted events : counted (run events).
Proof.
  unfold run.
  assert (H : counted initial) by (intros _; reflexivity).
  revert H. generalize initial.
  induction events as [|e events IH]; intros st H; simpl; [exact H|].
  apply IH. apply step_counted. exact H.
Qed.

(** X13.  In every state that the component can reach, either the timer of
    the effect is pending, and then it was set for the input that the state
    holds now, which is not blank; or no timer is pending, and then the
    output, the error and the count on display are those of the extraction
    from the input that the state holds now. *)
Theorem output_never_stale events :
  match timer (run events) with
  | Some input =>
      input = inputLogs (run events) /\ trim input <> []
  | None =>
      outputMessages (run events) =
        Extraction.outputMessages (extract (inputLogs (run events))) /\
      error (run events) =
        Extraction.error (extract (inputLogs (run events))) /\
      messageCount (run events) = count (extract (inputLogs (run events)))
  end.
Proof. destruct (run_consistent events) as [H _]. exact H. Qed.

(** X14.  Whatever has happened before, once the input has been changed to
    [v] and the timer of the effect has fired, the state holds [v], no timer
    of the effect is pending, and the display is that of the extraction from
    [v]: an extraction for an input before it, which the cleanup has
    cancelled, leaves no trace. *)
Theorem debounce_latest_input events v :
  inputLogs (run (events ++ [InputChange v; TimerFires])) = v /\
  timer (run (events ++ [InputChange v; TimerFires])) = None /\
  outputMessages (run (events ++ [InputChange v; TimerFires])) =
    Extraction.outputMessages (extract v) /\
  error (run (events ++ [InputChange v; TimerFires])) =
    Extraction.error (extract v) /\
  messageCount (run (events ++ [InputChange v; TimerFires])) =
    count (extract v).
Proof.
  pose proof (run_consistent (events ++ [InputChange v; TimerFires])) as H.
  destruct H as [H _]. rewrite run_app2 in *.
  rewrite step_timer_fires in H. rewrite step_timer_fires_inputLogs in *.
  simpl step in H. unfold handleInputChange in H.
  rewrite inputLogs_setInputLogs in H.
  split.
  - simpl. apply inputLogs_setInputLogs.
  - split; [apply step_timer_fires|exact H].
Qed.

(** X15.  A change of the input to a blank text empties the display at
    once, and leaves no timer of the effect pending. *)
Theorem blank_input_clears events v :
  forallb is_white_space v = true ->
  outputMessages (run (events ++ [InputChange v])) = [] /\
  error (run (events ++ [InputChange v])) = [] /\
  messageCount (run (events ++ [InputChange v])) = 0 /\
  timer (run (events ++ [InputChange v])) = None.
Proof.
  intros Hw. apply trim_white in Hw.
  pose proof (run_consistent (events ++ [InputChange v])) as H.
  assert (Hi : inputLogs (run (events ++ [InputChange v])) = v).
  { rewrite run_app. simpl. apply inputLogs_setInputLogs. }
  assert (Hb : trim (inputLogs (run (events ++ [InputChange v]))) = [])
    by (rewrite Hi; exact Hw).
  pose proof (consistent_timer H Hb) as Ht.
  destruct H as [H _]. rewrite Ht in H. destruct H as (Ho & He & Hc).
  rewrite Hi in *. unfold extract in *. rewrite Hw in *. simpl in *.
  auto.
Qed.

(** X16.  After [clearAll] the input and the display are empty and no
    timer of the effect is pending: a timer callback that comes later
    changes nothing. *)
Theorem clearAll_cancels_extraction events :
  inputLogs (run (events ++ [ClearAll])) = [] /\
  outputMessages (run (events ++ [ClearAll])) = [] /\
  error (run (events ++ [ClearAll])) = [] /\
  messageCount (run (events ++ [ClearAll])) = 0 /\
  timer (run (events ++ [ClearAll])) = None /\
  run (events ++ [ClearAll; TimerFires]) = run (events ++ [ClearAll]).
Proof.
  pose proof (run_consistent (events ++ [ClearAll])) as H.
  assert (Hi : inputLogs (run (events ++ [ClearAll])) = []).
  { rewrite run_app. simpl. apply inputLogs_setInputLogs. }
  assert (Hb : trim (inputLogs (run (events ++ [ClearAll]))) = [])
    by (rewrite Hi; reflexivity).
  pose proof (consistent_timer H Hb) as Ht.
  destruct H as [H _]. rewrite Ht in H. destruct H as (Ho & He & Hc).
  rewrite Hi in *. unfold extract in *. simpl in *.
  repeat split; auto.
  rewrite run_app2, <- run_app. simpl. rewrite Ht. reflexivity.
Qed.

(** X17.  While the state says that the output has been copied, a timer of
    [copyToClipboard] is pending, so the mark is taken back. *)
Theorem copied_has_timer events :
  copied (run events) = true -> 0 < copyTimers (run events).
Proof. destruct (run_consistent events) as (_ & H & _). exact H. Qed.

(** X18.  The clipboard is never given an empty text. *)
Theorem clipboard_never_empty events text :
  clipboard (run events) = Some text -> text <> [].
Proof.
  destruct (run_consistent events) as (_ & _ & H & _). apply H.
Qed.

(** X19.  The component never shows an error together with messages: while
    the error text is not empty, the output is empty and the count is 0. *)
Theorem error_excludes_output events :
  error (run events) <> [] ->
  outputMessages (run events) = [] /\ messageCount (run events) = 0.
Proof. destruct (run_consistent events) as (_ & _ & _ & H). exact H. Qed.

(** X21.  Whenever there is output, which is when the button that copies
    is enabled, the count of the messages is positive, so the badge of the
    count shows. *)
Theorem output_has_count events :
  outputMessages (run events) <> [] -> 0 < messageCount (run events).
Proof.
  intros H. pose proof (run_counted events) as C. unfold counted in C.
  destruct (messageCount (run events)); [|lia].
  exfalso. apply H. apply C. reflexivity.
Qed.

End WithRuntime.

End Component.

(** ** Runs of the component and of the extraction on the reference engine *)

Module ComponentRuns.
Import JsStringFacts ExtractionFacts ExtractionMore Component.

#[local] Existing Instance Reference.runtime.

(** The two entries of [Runs.out_of_order], the older one first. *)
Definition in_order : jsstring :=
  js "[{'timestamp':'2020-01-01T00:00:00Z','jsonPayload':{'message':'first'}},
       {'timestamp':'2020-01-02T00:00:00Z','jsonPayload':{'message':'second'}}]".

(** The user pastes the log, waits for the extraction and copies it. *)
Definition paste_and_copy : list event :=
  [InputChange Runs.out_of_order; TimerFires; CopyToClipboard].

Lemma extract_parse_error_witness :
  extract (js "[{") =
    mkResult [] [] 0
      (message_of (SyntaxError (lit "Unexpected end of JSON input"))).
Proof.
  apply (@extract_parse_error Reference.runtime (js "[{")
           (SyntaxError (lit "Unexpected end of JSON input")));
    vm_compute; reflexivity.
Defined.

Lemma extract_joins_strings_witness :
  exists texts,
    extract Runs.out_of_order =
    mkResult (map (fun t => Some (VString t)) texts)
             (join_strings [NEWLINE] texts)
             (length (filter retained (Runs.entries_of Runs.out_of_order)))
             [].
Proof.
  apply (@extract_joins_strings Reference.runtime Runs.out_of_order
           (Runs.entries_of Runs.out_of_order)); vm_compute; reflexivity.
Defined.

Lemma extract_keeps_sorted_input_witness :
  extract in_order =
  match join Number_toString (messages_of (Runs.entries_of in_order))
          [NEWLINE] with
  | inr out =>
      mkResult (messages_of (Runs.entries_of in_order)) out
               (length (messages_of (Runs.entries_of in_order))) []
  | inl e => mkResult [] [] 0 (message_of e)
  end.
Proof.
  apply (@extract_keeps_sorted_input Reference.runtime in_order
           (Runs.entries_of in_order)).
  - vm_compute. reflexivity.
  - vm_compute. reflexivity.
  - let v := eval vm_compute in (Runs.entries_of in_order) in
    change (Runs.entries_of in_order) with v.
    repeat constructor; vm_compute; discriminate.
Defined.

Lemma extract_order_irrelevant_witness :
  extract Runs.out_of_order = extract in_order.
Proof.
  apply (@extract_order_irrelevant Reference.runtime
           Runs.out_of_order in_order
           (Runs.entries_of Runs.out_of_order) (Runs.entries_of in_order)).
  - vm_compute. reflexivity.
  - vm_compute. reflexivity.
  - vm_compute. apply perm_swap.
  - vm_compute. reflexivity.
  - vm_compute. repeat constructor; simpl; intuition discriminate.
Defined.

Lemma output_lines_cover_messages_witness :
  count (extract Runs.out_of_order) <=
  length (LineNumbers.split NEWLINE
            (LineNumbers.getLineNumbers
               (Extraction.outputMessages (extract Runs.out_of_order)))).
Proof.
  apply (@output_lines_cover_messages Reference.runtime Runs.out_of_order
           (Runs.entries_of Runs.out_of_order)); vm_compute; reflexivity.
Defined.

(** Two timestamps that differ only below the millisecond denote the same
    instant; the entries then stay in the order of the input, so that the
    result depends on it. *)
Definition same_instant : jsstring :=
  js "[{'timestamp':'2020-01-01T00:00:00.1239Z','jsonPayload':{'message':'a'}},
       {'timestamp':'2020-01-01T00:00:00.1231Z','jsonPayload':{'message':'b'}}]".

Definition same_instant_swapped : jsstring :=
  js "[{'timestamp':'2020-01-01T00:00:00.1231Z','jsonPayload':{'message':'b'}},
       {'timestamp':'2020-01-01T00:00:00.1239Z','jsonPayload':{'message':'a'}}]".

Example extract_same_instant :
  map instant (Runs.entries_of same_instant)
    = [1577836800123; 1577836800123]%Z /\
  orderedMessages (extract same_instant) = [Runs.text "a"; Runs.text "b"] /\
  orderedMessages (extract same_instant_swapped)
    = [Runs.text "b"; Runs.text "a"].
Proof. vm_compute. repeat split. Qed.

(** Both orders give the messages in the order of their instants. *)
Example extract_in_order :
  orderedMessages (extract in_order) = [Runs.text "first"; Runs.text "second"].
Proof. vm_compute. reflexivity. Qed.

Lemma blank_input_clears_witness :
  outputMessages
    (run ([InputChange Runs.out_of_order; TimerFires]
          ++ [InputChange (lit "  ")])) = [] /\
  error
    (run ([InputChange Runs.out_of_order; TimerFires]
          ++ [InputChange (lit "  ")])) = [] /\
  messageCount
    (run ([InputChange Runs.out_of_order; TimerFires]
          ++ [InputChange (lit "  ")])) = 0 /\
  timer
    (run ([InputChange Runs.out_of_order; TimerFires]
          ++ [InputChange (lit "  ")])) = None.
Proof.
  apply (@blank_input_clears Reference.runtime
           [InputChange Runs.out_of_order; TimerFires] (lit "  ")).
  reflexivity.
Defined.

Lemma copied_has_timer_witness : 0 < copyTimers (run paste_and_copy).
Proof.
  apply (@copied_has_timer Reference.runtime paste_and_copy).
  vm_compute. reflexivity.
Defined.

Lemma clipboard_never_empty_witness :
  lit "first" ++ [NEWLINE] ++ lit "second" <> [].
Proof.
  apply (@clipboard_never_empty Reference.runtime paste_and_copy
           (lit "first" ++ [NEWLINE] ++ lit "second")).
  vm_compute. reflexivity.
Defined.

Lemma error_excludes_output_witness :
  outputMessages (run [InputChange (js "{'a':1}"); TimerFires]) = [] /\
  messageCount (run [InputChange (js "{'a':1}"); TimerFires]) = 0.
Proof.
  apply (@error_excludes_output Reference.runtime
           [InputChange (js "{'a':1}"); TimerFires]).
  vm_compute. discriminate.
Defined.

Lemma output_has_count_witness : 0 < messageCount (run paste_and_copy).
Proof.
  apply (@output_has_count Reference.runtime paste_and_copy).
  vm_compute. discriminate.
Defined.

(** The run of [paste_and_copy], and the copy timer firing after it. *)
Example run_paste_and_copy :
  run paste_and_copy =
    mkApp Runs.out_of_order (lit "first" ++ [NEWLINE] ++ lit "second") [] 2
          true None 1 (Some (lit "first" ++ [NEWLINE] ++ lit "second")) /\
  copied (run (paste_and_copy ++ [CopyTimerFires])) = false.
Proof. vm_compute. split; reflexivity. Qed.

(** An input that is replaced before its timer fires is never extracted:
    the error of the first input does not show. *)
Example run_replaced_input :
  run [InputChange (js "{'a':1}"); InputChange in_order; TimerFires] =
    mkApp in_order (lit "first" ++ [NEWLINE] ++ lit "second") [] 2
          false None 0 None.
Proof. vm_compute. reflexivity. Qed.

End ComponentRuns.
